(** * Meeting capture orchestration: agent, aggregator, orchestrator, registry

    A shallow embedding of the caption pipeline of the meeting bot:
    - [JS]       the JavaScript string and map operations the sources rely on;
    - [Store]    the store of shared, mutable objects;
    - [Agent]    extension/content.js (both content scripts of the file);
    - [Types]    src/types.ts;
    - [Scraper]  src/captionScraper.ts, class SegmentManager;
    - [Bot]      src/meetBot.ts, class MeetBot;
    - [Registry] src/sessionManager.ts, class BotSessionManager;
    - [Sessions] src/sessionManager.ts, stopSession and getSession;
    - [AgentLog] extension/content.js, the console lines of the agent;
    - [Api]      src/index.ts, the REST handlers;
    - [Captions] src/captionScraper.ts, parseCaptionElement and the injected
                 observer script;
    - [Audio]    the extension's class AudioCapture.
    The modules [AgentSpec], [ScraperSpec], [BotSpec] and [RegistrySpec], and
    those named [...Notions], hold the notions the properties are stated
    with; the modules named [...Props] and [...Facts] hold the properties.

    Conventions.  Strings are sequences of 8-bit code units; the whitespace
    and case tables cover the ASCII range, so that [trim], [toLowerCase] and
    the length of a string are those of the language on ASCII text, and the
    statements are about such text (a no-break space, an accented letter or
    a character of several units is outside them).  Wall-clock readings
    ([Date.now()]) are inputs, in milliseconds; an elapsed time the source
    divides by 1000 is kept in milliseconds.  JavaScript objects that are
    shared and mutated in place (segment objects) live in an explicit store
    and are named by references. *)

From Stdlib Require Import ZArith Lia Ascii String List Bool.
From stdpp Require Import base strings list gmap.

Open Scope string_scope.
Open Scope list_scope.

(* ===================================================================== *)
(** ** JavaScript strings *)
(* ===================================================================== *)

Module JS.

(** [\s] on the ASCII range: TAB, LF, VT, FF, CR and SPACE. *)
Definition isWhiteSpace (c : ascii) : bool :=
  let n := nat_of_ascii c in
  ((9 <=? n)%nat && (n <=? 13)%nat) || (n =? 32)%nat.

(** Line terminators, the characters [.] does not match: LF and CR. *)
Definition isLineTerminator (c : ascii) : bool :=
  let n := nat_of_ascii c in (n =? 10)%nat || (n =? 13)%nat.

Definition isDigit (c : ascii) : bool :=
  let n := nat_of_ascii c in (48 <=? n)%nat && (n <=? 57)%nat.

Definition isLowerOrUnderscore (c : ascii) : bool :=
  let n := nat_of_ascii c in
  ((97 <=? n)%nat && (n <=? 122)%nat) || (n =? 95)%nat.

Definition lowerChar (c : ascii) : ascii :=
  let n := nat_of_ascii c in
  if (65 <=? n)%nat && (n <=? 90)%nat then ascii_of_nat (n + 32) else c.

(** [s.toLowerCase()] *)
Fixpoint toLowerCase (s : string) : string :=
  match s with
  | EmptyString => EmptyString
  | String c s' => String (lowerChar c) (toLowerCase s')
  end.

(** [s.startsWith(p)] *)
Fixpoint startsWith (s p : string) {struct p} : bool :=
  match p with
  | EmptyString => true
  | String c p' =>
      match s with
      | EmptyString => false
      | String d s' => if Ascii.eqb c d then startsWith s' p' else false
      end
  end.

(** [s.includes(p)] *)
Fixpoint includes (s p : string) : bool :=
  startsWith s p ||
  match s with
  | EmptyString => false
  | String _ s' => includes s' p
  end.

(** [s.substring(0, n)] *)
Fixpoint substring0 (n : nat) (s : string) : string :=
  match n, s with
  | S n', String c s' => String c (substring0 n' s')
  | _, _ => EmptyString
  end.

Fixpoint trimStart (s : string) : string :=
  match s with
  | EmptyString => EmptyString
  | String c s' => if isWhiteSpace c then trimStart s' else s
  end.

Fixpoint trimEnd (s : string) : string :=
  match s with
  | EmptyString => EmptyString
  | String c s' =>
      match trimEnd s' with
      | EmptyString => if isWhiteSpace c then EmptyString else String c EmptyString
      | t => String c t
      end
  end.

(** [s.trim()] *)
Definition trim (s : string) : string := trimEnd (trimStart s).

Fixpoint allChars (p : ascii -> bool) (s : string) : bool :=
  match s with
  | EmptyString => true
  | String c s' => p c && allChars p s'
  end.

(** [s.split(/\s+/).filter(w => w.length > 0).length]: the number of maximal
    runs of non-whitespace characters. *)
Fixpoint countWords (inWord : bool) (s : string) : nat :=
  match s with
  | EmptyString => 0
  | String c s' =>
      if isWhiteSpace c then countWords false s'
      else (if inWord then 0 else 1) + countWords true s'
  end.

(** A JavaScript [Map] with string keys: insertion-ordered, [set] on a key
    that is present keeps its position. *)
Fixpoint map_get {V} (k : string) (m : list (string * V)) : option V :=
  match m with
  | [] => None
  | (k', v) :: m' => if String.eqb k k' then Some v else map_get k m'
  end.

Fixpoint map_set {V} (k : string) (v : V) (m : list (string * V)) : list (string * V) :=
  match m with
  | [] => [(k, v)]
  | (k', v') :: m' =>
      if String.eqb k k' then (k, v) :: m' else (k', v') :: map_set k v m'
  end.

Fixpoint map_delete {V} (k : string) (m : list (string * V)) : list (string * V) :=
  match m with
  | [] => []
  | (k', v') :: m' =>
      if String.eqb k k' then map_delete k m' else (k', v') :: map_delete k m'
  end.

Definition map_values {V} (m : list (string * V)) : list V := map snd m.

End JS.

(* ===================================================================== *)
(** ** The object store *)
(* ===================================================================== *)

(** Objects that are shared and mutated in place are kept in a list and named
    by their position. *)
Module Store.
Import JS.

(** The objects a list of references denotes. *)
Definition readAll {A} (h : list A) (rs : list nat) : list A :=
  omap (fun r => h !! r) rs.

(** The entries of a map of references, by value. *)
Definition readActive {A} (h : list A) (act : list (string * nat))
    : list (string * A) :=
  omap (fun kr => match h !! snd kr with
                  | Some s => Some (fst kr, s)
                  | None => None
                  end) act.

(** The references of an array [segs] and of a map [act] are allocated, the
    objects of the map are pairwise distinct and none of them is in the
    array. *)
Definition wfRefs {A} (h : list A) (segs : list nat) (act : list (string * nat))
    : Prop :=
  Forall (fun r => r < length h) segs
  /\ Forall (fun r => r < length h) (map_values act)
  /\ NoDup (map_values act)
  /\ Forall (fun r => r ∉ segs) (map_values act).

Definition optList {A} (o : option A) : list A :=
  match o with Some a => [a] | None => [] end.

(** A map whose entries are filed under the name they carry, each name
    once. *)
Definition filed {A} (name : A -> string) (act : list (string * A)) : Prop :=
  Forall (fun ks => name (snd ks) = fst ks) act /\ NoDup (map fst act).

End Store.

(* ===================================================================== *)
(** ** The automation agent (extension/content.js) *)
(* ===================================================================== *)

Module Agent.
Import JS Store.

(** The file holds two content scripts: the first ("Fixed Selectors") and the
    second ("Comprehensive Fix").  They share the capture loop and differ in
    the tables and in how a segment's start is computed. *)
Inductive version := V1 | V2.

Definition EXIT_PHRASES (v : version) : list string :=
  match v with
  | V1 => [ "notetaker, please leave"; "note taker, please leave";
            "bot, please leave"; "notu, please leave" ]
  | V2 => [ "notetaker, please leave"; "note taker, please leave";
            "bot, please leave"; "notu, please leave";
            "notu silahkan keluar"; "notu keluar"; "notu out"; "notu exit";
            "bot keluar"; "bot silahkan keluar" ]
  end.

(** The shapes of regular expression that occur in [UI_PATTERNS]. *)
Inductive UiPattern :=
| PContains (alts : list string)   (* /a|b|.../i        *)
| PExact (alts : list string)      (* /^(a|b|...)$/i    *)
| PPrefix (p : string)             (* /^p/i             *)
| PPeople                          (* /^People\d*$/i    *)
| PIconName                        (* /^[a-z_]+$/       *)
| PShort.                          (* /^.{0,2}$/        *)

Definition dropPeople (s : string) : string :=
  String.substring 6 (String.length s - 6) s.

(** [pattern.test(text)] *)
Definition test (p : UiPattern) (text : string) : bool :=
  match p with
  | PContains alts =>
      existsb (fun a => includes (toLowerCase text) (toLowerCase a)) alts
  | PExact alts =>
      existsb (fun a => String.eqb (toLowerCase text) (toLowerCase a)) alts
  | PPrefix p => startsWith (toLowerCase text) (toLowerCase p)
  | PPeople =>
      startsWith (toLowerCase text) "people" && allChars isDigit (dropPeople text)
  | PIconName =>
      negb (String.eqb text "") && allChars isLowerOrUnderscore text
  | PShort =>
      (String.length text <=? 2)%nat
      && allChars (fun c => negb (isLineTerminator c)) text
  end.

Definition UI_PATTERNS (v : version) : list UiPattern :=
  [ PContains ["you left the meeting"; "return to home screen"; "leave call"; "feedback"];
    PContains ["audio and video"; "learn more"; "anda telah keluar"; "You've left"];
    PExact ["Meeting details"];
    PExact ["Share screen"];
    PExact ["Send a reaction"];
    PPrefix "Turn on captions";
    PPrefix "Raise hand";
    PExact ["Chat with everyone"];
    PExact ["Meeting tools"];
    PExact ["Call ends soon"];
    PExact ["More options"];
    PPeople;
    PExact ["Meeting timer"];
    PExact ["Hand raises"];
    PContains ["This call is open to anyone"];
    PExact ["info"; "chat"; "apps"; "alarm"; "mood"; "meeting_room"];
    PExact ["computer_arrow_up"; "computer_arrow_down"];
    PExact ["back_hand"; "closed_caption"; "closed_caption_off"];
    PExact ["arrow_drop_down"; "chat_bubble"; "epg-"];
    PIconName;
    PPrefix "Press Down Arrow";
    PContains ["hover tray"; "Escape to close"];
    PShort;
    PExact ["Notu AI"] ]
  ++ match v with
     | V1 => []
     | V2 => [ PContains ["Indonesian"; "English"] ]
     end.

(** The text length under which a fragment of an unresolved speaker is
    dropped: [text.length < 50] in the first script, [< 10] in the second. *)
Definition minUnknownLength (v : version) : nat :=
  match v with V1 => 50 | V2 => 10 end.

(** A segment object.  [start] and [end_] are elapsed milliseconds;
    [wordCount] exists in the second script only. *)
Record Segment := mkSegment {
  speaker : string;
  text : string;
  start : Z;
  end_ : Z;
  index : nat;
  wordCount : option nat
}.

(** References into the object store. *)
Abbreviation ref := nat (only parsing).

(** [botState].  [captionObserver] and [flushTimer] are [None] while unset
    and carry whether the observer is connected / the interval is running.
    [segments] and [activeSegments] hold references into the object store. *)
Record BotState := mkBotState {
  isActive : bool;
  isInMeeting : bool;
  captionObserver : option bool;
  lastCaption : string;
  segmentCount : nat;
  startTime : option Z;
  flushTimer : option bool;
  segments : list ref;
  activeSegments : list (string * ref)
}.

(** Messages handed to [sendMessage(type, data)].  The payload is copied when
    the message is posted, so it is held by value. *)
Inductive Message :=
| MsgStatus (status : string) (detail : option string)
| MsgCaption (seg : Segment)
| MsgFlush (segs : list Segment) (count : nat) (duration : Z)
| MsgCompleted (reason : string) (segs : list Segment) (count : nat) (duration : Z).

(** What the leave sequence does to the page: click a leave button, or
    dispatch the Ctrl+Alt+Q key event. *)
Inductive UiLeave := ClickLeave | KeyLeave.

(** The page: [botState], the object store, the closure variable
    [lastSpeaker] of [startCaptionScraping] (the empty string stands for
    [null]: its only use there is [lastSpeaker || 'Speaker']), the messages
    sent, the [leaveMeeting] calls suspended at their first [await] (reason
    and the [finalSegments] array), the two timers of [watchForMeetingEnd],
    and the leave actions performed. *)
Record Page := mkPage {
  botState : BotState;
  heap : list Segment;
  lastSpeaker : string;
  outbox : list Message;
  suspended : list (string * list ref);
  checkEnd : bool;
  maxDurationTimer : bool;
  uiLeaves : list UiLeave
}.

Definition with_lastSpeaker (s : string) (p : Page) : Page :=
  mkPage (botState p) (heap p) s (outbox p) (suspended p)
         (checkEnd p) (maxDurationTimer p) (uiLeaves p).

(** [sendMessage(type, data)] *)
Definition sendMessage (m : Message) (p : Page) : Page :=
  mkPage (botState p) (heap p) (lastSpeaker p) (outbox p ++ [m]) (suspended p)
         (checkEnd p) (maxDurationTimer p) (uiLeaves p).

(** A DOM node as the capture loop sees it: the text content once the badge
    elements are removed, and the candidate speaker names the selector search
    yields, in search order and already trimmed; the flag marks a candidate
    that is also rejected when it consists of digits only. *)
Record Node := mkNode {
  textContent : string;
  nameHits : list (bool * string)
}.

Definition getText (n : Node) : string := trim (textContent n).

Definition isDigits (s : string) : bool :=
  negb (String.eqb s "") && allChars isDigit s.

Definition validName (h : bool * string) : bool :=
  negb (String.eqb (snd h) "")
  && negb (String.eqb (snd h) "Unknown Speaker")
  && negb (fst h && isDigits (snd h)).

(** [getSpeaker(node)]: the speaker and the new value of [lastSpeaker]. *)
Definition getSpeaker (v : version) (n : Node) (last : string) : string * string :=
  match v with
  | V1 =>
      match nameHits n with
      | (_, name) :: _ => if String.eqb name "" then (last, last) else (name, last)
      | [] => (last, last)
      end
  | V2 =>
      match find validName (nameHits n) with
      | Some (_, name) => (name, name)
      | None => (if String.eqb last "" then "Speaker" else last, last)
      end
  end.

Definition deref (h : list Segment) (r : ref) : option Segment := h !! r.

(** [[...botState.segments, ...Array.from(botState.activeSegments.values())]] *)
Definition finalSegments (b : BotState) : list ref :=
  segments b ++ map_values (activeSegments b).

Definition elapsed (b : BotState) (now : Z) : Z :=
  (now - default 0 (startTime b))%Z.

(** [leaveMeeting(reason)] up to its first [await]: the status message, the
    observer disconnected, the flush interval cleared, [finalSegments] taken.
    The call then waits on [clickElement]. *)
Definition leaveMeeting (reason : string) (p : Page) : Page :=
  let p1 := sendMessage (MsgStatus "leaving" (Some reason)) p in
  let b := botState p1 in
  let b' := mkBotState (isActive b) (isInMeeting b)
              (match captionObserver b with Some _ => Some false | None => None end)
              (lastCaption b) (segmentCount b) (startTime b)
              (match flushTimer b with Some _ => Some false | None => None end)
              (segments b) (activeSegments b) in
  mkPage b' (heap p1) (lastSpeaker p1) (outbox p1)
         (suspended p1 ++ [(reason, finalSegments b')])
         (checkEnd p1) (maxDurationTimer p1) (uiLeaves p1).

(** The rest of the oldest suspended [leaveMeeting] call: the leave button is
    clicked when one is found, the key event dispatched otherwise; the
    [completed] message is sent and the activity flags are cleared. *)
Definition resumeLeave (now : Z) (found : bool) (p : Page) : Page :=
  match suspended p with
  | [] => p
  | (reason, final) :: rest =>
      let segs := readAll (heap p) final in
      let b := botState p in
      let b' := mkBotState false false (captionObserver b) (lastCaption b)
                  (segmentCount b) (startTime b) (flushTimer b)
                  (segments b) (activeSegments b) in
      mkPage b' (heap p) (lastSpeaker p)
             (outbox p ++ [MsgCompleted reason segs (length segs) (elapsed b now)])
             rest (checkEnd p) (maxDurationTimer p)
             (uiLeaves p ++ [if found then ClickLeave else KeyLeave])
  end.

(** The estimated speaking time of the second script,
    [Math.max(1, wordCount / 2.5)] seconds, in milliseconds. *)
Definition estimatedDuration (words : nat) : Z :=
  Z.max 1000 (400 * Z.of_nat words).

(** The [start] a new segment object gets. *)
Definition segmentStart (v : version) (currentTime : Z) (words : nat) : Z :=
  match v with
  | V1 => currentTime
  | V2 => Z.max 0 (currentTime - estimatedDuration words)
  end.

Definition segmentWords (v : version) (txt : string) : option nat :=
  match v with
  | V1 => None
  | V2 => Some (countWords false txt)
  end.

(** The filters of [processCaption], in the order of the source; [true] when
    the fragment is dropped. *)
Definition rejected (v : version) (spk txt lastCap : string) : bool :=
  String.eqb txt "" || String.eqb txt lastCap
  || String.eqb (toLowerCase txt) (toLowerCase spk)
  || existsb (fun pat => test pat txt) (UI_PATTERNS v)
  || (String.eqb spk "Unknown Speaker"
      && (String.length txt <? minUnknownLength v)%nat).

Definition isExitPhrase (v : version) (txt : string) : bool :=
  existsb (fun ph => includes (toLowerCase txt) ph) (EXIT_PHRASES v).

(** The segment management of [processCaption]: merge into the speaker's
    active object when the text starts with the first 20 characters of that
    object's text, otherwise push the old object to [segments] and make a
    copy of [seg] the active object. *)
Definition mergeOrCreate (v : version) (seg : Segment) (b : BotState)
    (h : list Segment) : BotState * list Segment :=
  let existing :=
    match map_get (speaker seg) (activeSegments b) with
    | Some r => match deref h r with Some e => Some (r, e) | None => None end
    | None => None
    end in
  let create (pushed : list ref) :=
    (mkBotState (isActive b) (isInMeeting b) (captionObserver b) (lastCaption b)
       (segmentCount b) (startTime b) (flushTimer b)
       (segments b ++ pushed)
       (map_set (speaker seg) (length h) (activeSegments b)),
     h ++ [seg]) in
  match existing with
  | Some (r, e) =>
      if startsWith (text seg) (substring0 20 (text e)) then
        (b, <[r := mkSegment (speaker e) (text seg) (start e) (end_ seg) (index e)
                     (match v with V1 => wordCount e | V2 => wordCount seg end)]> h)
      else create [r]
  | None => create []
  end.

(** [processCaption(node)], with the clock reading of the call. *)
Definition processCaption (v : version) (n : Node) (now : Z) (p : Page) : Page :=
  let txt := getText n in
  let '(spk, last) := getSpeaker v n (lastSpeaker p) in
  let p := with_lastSpeaker last p in
  if rejected v spk txt (lastCaption (botState p)) then p
  else if isExitPhrase v txt then leaveMeeting "exit_phrase" p
  else
    let b := botState p in
    let b1 := mkBotState (isActive b) (isInMeeting b) (captionObserver b) txt
                (S (segmentCount b)) (startTime b) (flushTimer b)
                (segments b) (activeSegments b) in
    let currentTime := elapsed b1 now in
    let words := countWords false txt in
    let seg := mkSegment spk txt (segmentStart v currentTime words) currentTime
                 (segmentCount b1) (segmentWords v txt) in
    let '(b2, h2) := mergeOrCreate v seg b1 (heap p) in
    sendMessage (MsgCaption seg)
      (mkPage b2 h2 spk (outbox p) (suspended p)
              (checkEnd p) (maxDurationTimer p) (uiLeaves p)).

(** The body of the [MutationObserver] callback: every node of the batch goes
    through [processCaption], each with its own clock reading.  The loop runs
    to its end even when a call disconnects the observer. *)
Fixpoint observerCallback (v : version) (batch : list (Node * Z)) (p : Page) : Page :=
  match batch with
  | [] => p
  | (n, now) :: rest => observerCallback v rest (processCaption v n now p)
  end.

(** What the page reacts to once the bot records.  A start command, which
    the page answers with another [runBot] once the bot is no longer active,
    begins another run and is not among these events. *)
Inductive Event :=
| Mutations (batch : list (Node * Z))     (* the observer delivers a batch *)
| ResumeLeave (now : Z) (found : bool)    (* a suspended leaveMeeting goes on *)
| StopCommand                             (* {source: controller, type: stop} *)
| CheckEndTick (ended : bool)             (* the 2 s interval of watchForMeetingEnd *)
| MaxDuration                             (* its setTimeout *)
| FlushTick (now : Z).                    (* the interval of startFlushInterval *)

Definition with_timers (ce md : bool) (p : Page) : Page :=
  mkPage (botState p) (heap p) (lastSpeaker p) (outbox p) (suspended p)
         ce md (uiLeaves p).

Definition step (v : version) (e : Event) (p : Page) : Page :=
  match e with
  | Mutations batch =>
      match captionObserver (botState p) with
      | Some true => observerCallback v batch p
      | _ => p
      end
  | ResumeLeave now found => resumeLeave now found p
  | StopCommand =>
      if isActive (botState p) then leaveMeeting "user_requested" p else p
  | CheckEndTick ended =>
      if checkEnd p && ended
      then leaveMeeting "meeting_ended" (with_timers false (maxDurationTimer p) p)
      else p
  | MaxDuration =>
      if maxDurationTimer p
      then leaveMeeting "max_duration" (with_timers (checkEnd p) false p)
      else p
  | FlushTick now =>
      match flushTimer (botState p) with
      | Some true =>
          let segs := readAll (heap p) (map_values (activeSegments (botState p))) in
          match segs with
          | [] => p
          | _ => sendMessage (MsgFlush segs (segmentCount (botState p))
                                (elapsed (botState p) now)) p
          end
      | _ => p
      end
  end.

Definition run (v : version) (es : list Event) (p : Page) : Page :=
  fold_left (fun q e => step v e q) es p.

(** The page when [runBot] has reached "recording": the bot is active and in
    the meeting, the observer is connected, the flush interval and the two
    timers of [watchForMeetingEnd] run, nothing has been captured. *)
Definition recording (v : version) (started : Z) : Page :=
  mkPage (mkBotState true true (Some true) "" 0 (Some started) (Some true) [] [])
         []
         (match v with V1 => "Unknown Speaker" | V2 => "" end)
         [] [] true true [].

(** The messages of a kind in an outbox. *)
Definition isLeaving (m : Message) : bool :=
  match m with MsgStatus "leaving" _ => true | _ => false end.

Definition isCompleted (m : Message) : bool :=
  match m with MsgCompleted _ _ _ _ => true | _ => false end.

Definition count {A} (f : A -> bool) (l : list A) : nat :=
  length (List.filter f l).

(** A node whose badge names [spk] and whose remaining text is [txt]. *)
Definition fragment (spk txt : string) : Node := mkNode txt [(false, spk)].

(** The speaker [processCaption] attributes a node to. *)
Definition speakerOf (v : version) (n : Node) (p : Page) : string :=
  fst (getSpeaker v n (lastSpeaker p)).

(** A fragment is accepted when it passes the filters and is no exit phrase:
    the call then reaches [botState.lastCaption = text]. *)
Definition accepted (v : version) (n : Node) (p : Page) : bool :=
  negb (rejected v (speakerOf v n p) (getText n) (lastCaption (botState p)))
  && negb (isExitPhrase v (getText n)).

(** What a page has captured: the state of the aggregation and the messages
    sent.  The closure variable [lastSpeaker] is not part of it. *)
Definition captured (p : Page) : BotState * list Segment * list Message * list (string * list ref) :=
  (botState p, heap p, outbox p, suspended p).

(** The segments a leave at this point would deliver. *)
Definition finalValues (p : Page) : list Segment :=
  readAll (heap p) (finalSegments (botState p)).

Definition speakerText (s : Segment) : string * string := (speaker s, text s).

Definition completedPayloads (l : list Message) : list (list Segment) :=
  omap (fun m => match m with MsgCompleted _ segs _ _ => Some segs | _ => None end) l.

End Agent.

(* ===================================================================== *)
(** ** Shared declarations (src/types.ts) *)
(* ===================================================================== *)

(** The type definitions of the bot service, [Segment], [BotSession] and
    [BotStatus], as src/types.ts declares them (in the sources the
    declarations follow the audio capture class, in
    extension/background.js). *)
Module Types.

Record Segment := mkSegment {
  speaker : string;
  text : string;
  start : Z;
  end_ : Z
}.

Inductive BotStatus :=
| pending | joining | waiting_admission | in_meeting
| recording | leaving | completed | failed.

Record BotSession := mkBotSession {
  sessionId : string;
  meetingId : string;
  url : string;
  status : BotStatus;
  segments : list Segment;
  startedAt : option Z;
  completedAt : option Z;
  error : option string
}.

End Types.

(* ===================================================================== *)
(** ** The segment manager (src/captionScraper.ts) *)
(* ===================================================================== *)

Module Scraper.
Import JS Store Types.

(** References into the object store. *)
Abbreviation ref := nat (only parsing).

(** [class SegmentManager].  Segment objects live in [heap]; the array
    [segments] and the map [activeSegments] hold references to them. *)
Record SegmentManager := mkSegmentManager {
  heap : list Segment;
  segments : list ref;
  activeSegments : list (string * ref);
  segmentIndex : nat;
  startTime : Z;
  flushedCount : nat
}.

(** [new SegmentManager()], with the clock reading of the constructor. *)
Definition create (now : Z) : SegmentManager :=
  mkSegmentManager [] [] [] 0 now 0.

(** [addCaption(speaker, text)] *)
Definition addCaption (spk txt : string) (now : Z) (m : SegmentManager) : SegmentManager :=
  let elapsed := (now - startTime m)%Z in
  match map_get spk (activeSegments m) with
  | Some r =>
      mkSegmentManager
        (alter (fun s => mkSegment (speaker s) txt (start s) elapsed) r (heap m))
        (segments m) (activeSegments m) (segmentIndex m) (startTime m)
        (flushedCount m)
  | None =>
      mkSegmentManager
        (heap m ++ [mkSegment spk txt elapsed elapsed])
        (segments m) (map_set spk (length (heap m)) (activeSegments m))
        (segmentIndex m) (startTime m) (flushedCount m)
  end.

(** [this.segments.push({ ...segment })] for the object behind [r]. *)
Definition pushCopy (r : ref) (m : SegmentManager) : SegmentManager :=
  match heap m !! r with
  | Some s =>
      mkSegmentManager (heap m ++ [s]) (segments m ++ [length (heap m)])
        (activeSegments m) (segmentIndex m) (startTime m) (flushedCount m)
  | None => m
  end.

(** [finalizeSegment(speaker)]: the object returned, if any, and the new
    state. *)
Definition finalizeSegment (spk : string) (m : SegmentManager)
    : option ref * SegmentManager :=
  match map_get spk (activeSegments m) with
  | Some r =>
      let m1 := pushCopy r m in
      (Some r,
       mkSegmentManager (heap m1) (segments m1) (map_delete spk (activeSegments m1))
         (segmentIndex m1) (startTime m1) (flushedCount m1))
  | None => (None, m)
  end.

(** [getSegmentsForFlush()]: the array returned, as references. *)
Definition getSegmentsForFlush (m : SegmentManager) : list ref :=
  drop (flushedCount m) (segments m) ++ map_values (activeSegments m).

(** [markFlushed()] *)
Definition markFlushed (m : SegmentManager) : SegmentManager :=
  let m1 := fold_left (fun acc r => pushCopy r acc) (map_values (activeSegments m)) m in
  mkSegmentManager (heap m1) (segments m1) [] (segmentIndex m1) (startTime m1)
    (length (segments m1)).

(** [getAllSegments()] *)
Definition getAllSegments (m : SegmentManager) : list ref :=
  segments m ++ map_values (activeSegments m).

(** [getCount()] *)
Definition getCount (m : SegmentManager) : nat :=
  length (segments m) + length (activeSegments m).

(** [getDuration()] in milliseconds. *)
Definition getDuration (now : Z) (m : SegmentManager) : Z := (now - startTime m)%Z.

(** Calls on a manager. *)
Inductive Op :=
| AddCaption (spk txt : string) (now : Z)
| FinalizeSegment (spk : string)
| GetSegmentsForFlush
| MarkFlushed.

Definition apply (o : Op) (m : SegmentManager) : SegmentManager :=
  match o with
  | AddCaption spk txt now => addCaption spk txt now m
  | FinalizeSegment spk => snd (finalizeSegment spk m)
  | GetSegmentsForFlush => m
  | MarkFlushed => markFlushed m
  end.

Definition applyAll (os : list Op) (m : SegmentManager) : SegmentManager :=
  fold_left (fun acc o => apply o acc) os m.

Definition isMarkFlushed (o : Op) : bool :=
  match o with MarkFlushed => true | _ => false end.

End Scraper.

(* ===================================================================== *)
(** ** The orchestrator (src/meetBot.ts) *)
(* ===================================================================== *)

Module Bot.
Import JS Types.

(** What a bot emits through its [EventEmitter]. *)
Inductive BotEvent :=
| StatusEvent (st : BotStatus) (message : option string)
| CaptionEvent (meeting : string) (segment : Segment)
| FlushEvent (meeting : string) (segs : list Segment) (count : nat) (duration : Z)
| CompletedEvent (meeting : string) (reason : string) (segs : list Segment) (duration : Z).

(** The effects of a bot on its surroundings.  Listeners run inside [emit],
    so an emission carries what [getSession()] returns at that moment. *)
Inductive Effect :=
| Emit (e : BotEvent) (snapshot : BotSession)
| LaunchBrowser                 (* chromium.launchPersistentContext(...) *)
| Goto (target : string)        (* page.goto(url) *)
| PostCommand (type : string)   (* window.postMessage({source: controller, type}) *)
| CloseContext.                 (* context.close() *)

(** Where the asynchronous [join()] stands. *)
Inductive JoinPc :=
| NotStarted
| Launching | Navigating | Settling | Triggering
| Waiting (since timeout : Z)   (* waitForExtensionJoin polls *)
| Failing (message : string)    (* in the catch block, awaiting cleanup() *)
| Joined
| Rejected (message : string).

(** Where a [leave()] call stands: awaiting the stop command, or awaiting
    [cleanup()]. *)
Inductive LeavePc := StopPosted | Closing.

Record MeetBot := mkMeetBot {
  context : bool;
  page : bool;
  listening : bool;              (* the console listener is installed *)
  session : BotSession;
  segments : list Segment;
  isLeaving : bool;
  flushInterval : bool;
  timeoutTimer : bool;
  joinPc : JoinPc;
  leaves : list (string * LeavePc)
}.

(** [new MeetBot(meetingId, url)]; [sid] is the generated session id. *)
Definition create (sid meeting target : string) : MeetBot :=
  mkMeetBot false false false
    (mkBotSession sid meeting target pending [] None None None)
    [] false false false NotStarted [].

(** [getSession()] *)
Definition getSession (b : MeetBot) : BotSession :=
  let s := session b in
  mkBotSession (sessionId s) (meetingId s) (url s) (status s) (segments b)
    (startedAt s) (completedAt s) (error s).

(** Methods thread the bot and collect its effects. *)
Definition Act (A : Type) : Type := MeetBot -> A * MeetBot * list Effect.

Definition ret {A} (a : A) : Act A := fun b => (a, b, []).

Definition bind {A B} (c : Act A) (k : A -> Act B) : Act B :=
  fun b => let '(a, b1, e1) := c b in
           let '(r, b2, e2) := k a b1 in (r, b2, e1 ++ e2).

Notation "x <- c ;; k" := (bind c (fun x => k))
  (at level 100, c at level 99, right associativity).
Notation "c ;; k" := (bind c (fun _ => k))
  (at level 100, right associativity).

Definition get : Act MeetBot := fun b => (b, b, []).
Definition modify (f : MeetBot -> MeetBot) : Act unit := fun b => (tt, f b, []).
Definition effect (e : Effect) : Act unit := fun b => (tt, b, [e]).
Definition emit (e : BotEvent) : Act unit := fun b => (tt, b, [Emit e (getSession b)]).
Definition when (c : bool) (a : Act unit) : Act unit := if c then a else ret tt.

Definition exec (a : Act unit) (b : MeetBot) : MeetBot * list Effect :=
  let '(_, b', es) := a b in (b', es).

Definition set_session (s : BotSession) (b : MeetBot) : MeetBot :=
  mkMeetBot (context b) (page b) (listening b) s (segments b) (isLeaving b)
    (flushInterval b) (timeoutTimer b) (joinPc b) (leaves b).

Definition set_segments (l : list Segment) (b : MeetBot) : MeetBot :=
  mkMeetBot (context b) (page b) (listening b) (session b) l (isLeaving b)
    (flushInterval b) (timeoutTimer b) (joinPc b) (leaves b).

Definition set_browser (ctx pg lst : bool) (b : MeetBot) : MeetBot :=
  mkMeetBot ctx pg lst (session b) (segments b) (isLeaving b)
    (flushInterval b) (timeoutTimer b) (joinPc b) (leaves b).

Definition set_isLeaving (x : bool) (b : MeetBot) : MeetBot :=
  mkMeetBot (context b) (page b) (listening b) (session b) (segments b) x
    (flushInterval b) (timeoutTimer b) (joinPc b) (leaves b).

Definition set_timers (fl tm : bool) (b : MeetBot) : MeetBot :=
  mkMeetBot (context b) (page b) (listening b) (session b) (segments b)
    (isLeaving b) fl tm (joinPc b) (leaves b).

Definition set_joinPc (pc : JoinPc) (b : MeetBot) : MeetBot :=
  mkMeetBot (context b) (page b) (listening b) (session b) (segments b)
    (isLeaving b) (flushInterval b) (timeoutTimer b) pc (leaves b).

Definition set_leaves (l : list (string * LeavePc)) (b : MeetBot) : MeetBot :=
  mkMeetBot (context b) (page b) (listening b) (session b) (segments b)
    (isLeaving b) (flushInterval b) (timeoutTimer b) (joinPc b) l.

Definition isFailed (st : BotStatus) : bool :=
  match st with failed => true | _ => false end.

Definition hasJoined (st : BotStatus) : bool :=
  match st with in_meeting | recording => true | _ => false end.

Definition truthy (m : option string) : bool :=
  match m with Some s => negb (String.eqb s "") | None => false end.

(** [setStatus(status, message)] *)
Definition setStatus (st : BotStatus) (message : option string) : Act unit :=
  modify (fun b =>
    let s := session b in
    set_session
      (mkBotSession (sessionId s) (meetingId s) (url s) st (Types.segments s)
         (startedAt s) (completedAt s)
         (if isFailed st && truthy message then message else error s)) b) ;;
  emit (StatusEvent st message).

(** [cleanup()] up to [await this.context.close()]: the timers are cleared;
    the result tells whether a context is being closed.  Without a context the
    method runs to its end. *)
Definition cleanup_begin : Act bool :=
  modify (set_timers false false) ;;
  b <- get ;;
  if context b then effect CloseContext ;; ret true
  else modify (fun b => set_browser (context b) false (listening b) b) ;; ret false.

(** [cleanup()] once the context is closed. *)
Definition cleanup_end : Act unit :=
  modify (fun b => set_browser false false (listening b) b).

(** The catch block of [join()]. *)
Definition join_catch (message : string) : Act unit :=
  setStatus failed (Some message) ;;
  closing <- cleanup_begin ;;
  modify (set_joinPc (if closing then Failing message else Rejected message)).

(** [join()] up to [await chromium.launchPersistentContext(...)]. *)
Definition join (extensionPath : string) (extensionExists : bool) : Act unit :=
  setStatus joining None ;;
  if extensionExists
  then effect LaunchBrowser ;; modify (set_joinPc Launching)
  else join_catch ("Extension not found at " ++ extensionPath).

(** [join()] after [waitForExtensionJoin] has resolved. *)
Definition join_resume (joined : bool) (now : Z) : Act unit :=
  if joined then
    setStatus in_meeting None ;;
    modify (fun b =>
      let s := session b in
      set_session (mkBotSession (sessionId s) (meetingId s) (url s) (status s)
                     (Types.segments s) (Some now) (completedAt s) (error s)) b) ;;
    setStatus recording None ;;
    modify (set_timers true true) ;;
    modify (set_joinPc Joined)
  else join_catch "Extension failed to join meeting".

(** [checkStatus] of [waitForExtensionJoin(timeout)], started at [since]. *)
Definition checkStatus (since timeout now : Z) : Act unit :=
  b <- get ;;
  if hasJoined (status (session b)) then join_resume true now
  else if isFailed (status (session b)) then join_resume false now
  else if (timeout <=? now - since)%Z then join_resume false now
  else modify (set_joinPc (Waiting since timeout)).

(** [join()] from [setStatus('waiting_admission')] on: the first
    [checkStatus] runs at once. *)
Definition enter_wait (now : Z) : Act unit :=
  setStatus waiting_admission None ;;
  checkStatus now 120000 now.

(** [flushSegments()] *)
Definition flushSegments (now : Z) : Act unit :=
  b <- get ;;
  match segments b with
  | [] => ret tt
  | segs =>
      let since := match startedAt (session b) with
                   | Some t => if (t =? 0)%Z then now else t
                   | None => now
                   end in
      emit (FlushEvent (meetingId (session b)) segs (length segs) (now - since)%Z)
  end.

(** [leave()] after [cleanup()]. *)
Definition leave_finish (now : Z) : Act unit :=
  modify (fun b =>
    let s := session b in
    set_session (mkBotSession (sessionId s) (meetingId s) (url s) (status s)
                   (segments b) (startedAt s) (Some now) (error s)) b) ;;
  setStatus completed None.

(** [leave()] from the final flush on. *)
Definition leave_flush (reason : string) (now : Z) : Act unit :=
  flushSegments now ;;
  closing <- cleanup_begin ;;
  if closing then modify (fun b => set_leaves (leaves b ++ [(reason, Closing)]) b)
  else leave_finish now.

(** [leave(reason)] up to its first [await]. *)
Definition leave (reason : string) (now : Z) : Act unit :=
  setStatus leaving None ;;
  b <- get ;;
  if page b
  then effect (PostCommand "stop") ;;
       modify (fun b => set_leaves (leaves b ++ [(reason, StopPosted)]) b)
  else leave_flush reason now.

(** The payload of a caption: [{ speaker, text, index, timestamp }]. *)
Record CaptionData := mkCaptionData {
  cSpeaker : string;
  cText : string;
  cIndex : nat;
  cTimestamp : Z
}.

(** The payload of a completion:
    [{ reason, segments, segmentCount, duration }]; [segments] may be absent. *)
Record CompletionData := mkCompletionData {
  dReason : string;
  dSegments : option (list Segment);
  dSegmentCount : nat;
  dDuration : Z
}.

(** [handleCaption(data)] *)
Definition handleCaption (data : CaptionData) : Act unit :=
  let segment := mkSegment (cSpeaker data) (cText data)
                   (cTimestamp data) (cTimestamp data) in
  modify (fun b => set_segments (segments b ++ [segment]) b) ;;
  b <- get ;;
  emit (CaptionEvent (meetingId (session b)) segment).

(** [handleMeetingEnd()] up to the first [await] of its [leave()]. *)
Definition handleMeetingEnd (now : Z) : Act unit :=
  b <- get ;;
  if isLeaving b then ret tt
  else
    modify (set_isLeaving true) ;;
    b <- get ;;
    let duration := match startedAt (session b) with
                    | Some t => (now - t)%Z
                    | None => 0%Z
                    end in
    emit (CompletedEvent (meetingId (session b)) "meeting_ended" (segments b) duration) ;;
    leave "meeting_ended" now.

(** [handleCompletion(data)] up to the first [await] of its [leave()]. *)
Definition handleCompletion (data : CompletionData) (now : Z) : Act unit :=
  match dSegments data with
  | Some (s :: rest) =>
      modify (set_segments
                (map (fun s => mkSegment (speaker s) (text s) (start s) (end_ s))
                     (s :: rest)))
  | _ => ret tt
  end ;;
  b <- get ;;
  emit (CompletedEvent (meetingId (session b)) (dReason data) (segments b)
          (dDuration data)) ;;
  leave (dReason data) now.

(** The regular expression [/\[Caption\]\s*(.+?):\s*(.+)/] of
    [parseExtensionLog], with the backtracking order of the engine. *)

(** The longest prefix without a line terminator: what a greedy [.+] or [.*]
    takes. *)
Fixpoint takeLine (s : string) : string :=
  match s with
  | EmptyString => EmptyString
  | String c s' => if isLineTerminator c then EmptyString else String c (takeLine s')
  end.

(** [\s*(.+)] at the end of the pattern: the text captured. *)
Fixpoint afterColon (q : string) : option string :=
  match q with
  | EmptyString => None
  | String c q' =>
      if isWhiteSpace c then
        match afterColon q' with
        | Some g => Some g
        | None => if isLineTerminator c then None else Some (takeLine q)
        end
      else Some (takeLine q)
  end.

(** [(.+?):\s*(.+)] once the first character of the name is taken: the rest
    of the name and the text. *)
Fixpoint nameAndText (r : string) : option (string * string) :=
  match r with
  | EmptyString => None
  | String c r' =>
      let longer :=
        if isLineTerminator c then None
        else match nameAndText r' with
             | Some (g1, g2) => Some (String c g1, g2)
             | None => None
             end in
      if Ascii.eqb c ":" then
        match afterColon r' with
        | Some g2 => Some (EmptyString, g2)
        | None => longer
        end
      else longer
  end.

Definition startName (r : string) : option (string * string) :=
  match r with
  | EmptyString => None
  | String c r' =>
      if isLineTerminator c then None
      else match nameAndText r' with
           | Some (g1, g2) => Some (String c g1, g2)
           | None => None
           end
  end.

(** [\s*(.+?):\s*(.+)] after the tag. *)
Fixpoint afterTag (r : string) : option (string * string) :=
  match r with
  | EmptyString => None
  | String c r' =>
      if isWhiteSpace c then
        match afterTag r' with
        | Some x => Some x
        | None => startName r
        end
      else startName r
  end.

Fixpoint dropChars (n : nat) (s : string) : string :=
  match n, s with
  | S n', String _ s' => dropChars n' s'
  | _, _ => s
  end.

(** [text.match(/\[Caption\]\s*(.+?):\s*(.+)/)]: the two groups of the
    leftmost match. *)
Fixpoint captionMatch (s : string) : option (string * string) :=
  let here := if startsWith s "[Caption]" then afterTag (dropChars 9 s) else None in
  match here with
  | Some x => Some x
  | None =>
      match s with
      | EmptyString => None
      | String _ s' => captionMatch s'
      end
  end.

(** [parseExtensionLog(text)] *)
Definition parseExtensionLog (txt : string) (now : Z) : Act unit :=
  (if includes txt "IN_MEETING status sent" then setStatus in_meeting None
   else if includes txt "Successfully joined meeting" then setStatus in_meeting None
   else if includes txt "Bot is now recording" then setStatus recording None
   else if includes txt "Captions enabled" then ret tt
   else if includes txt "Meeting ended detected" || includes txt "Leaving meeting"
        then handleMeetingEnd now
   else if includes txt "Could not join meeting" || includes txt "Blocked from joining"
        then setStatus failed (Some "Could not join meeting")
   else ret tt) ;;
  match captionMatch txt with
  | Some (g1, g2) =>
      b <- get ;;
      let since := match startedAt (session b) with
                   | Some t => if (t =? 0)%Z then now else t
                   | None => now
                   end in
      handleCaption (mkCaptionData (trim g1) (trim g2) (length (segments b))
                       (now - since)%Z)
  | None => ret tt
  end.

(** A structured message of the extension: [{ source, type, data }]. *)
Inductive ExtensionMessage :=
| XStatus (st : string) (message error reason : option string)
| XCaption (data : CaptionData)
| XFlush (count : nat)
| XCompleted (data : CompletionData)
| XLoaded
| XOther (type : string).

(** [handleExtensionMessage(message)] *)
Definition handleExtensionMessage (m : ExtensionMessage) (now : Z) : Act unit :=
  match m with
  | XStatus st message err _ =>
      if String.eqb st "in_meeting" then setStatus in_meeting None
      else if String.eqb st "recording" then setStatus recording None
      else if String.eqb st "waiting_admission" then setStatus waiting_admission message
      else if String.eqb st "failed" then setStatus failed err
      else if String.eqb st "joining" then setStatus joining None
      else ret tt
  | XCaption data => handleCaption data
  | XFlush _ => ret tt
  | XCompleted data => handleCompletion data now
  | XLoaded => ret tt
  | XOther _ => ret tt
  end.

(** A promise settles: fulfilled, or rejected with an error message. *)
Definition Outcome := option string.

(** What happens to a bot after [join()] has started. *)
Inductive Input :=
| Launched (r : Outcome)                 (* launchPersistentContext settles *)
| Navigated (r : Outcome)                (* page.goto settles *)
| Settled (now : Z)                      (* waitForTimeout(3000) is over *)
| Triggered (r : Outcome) (now : Z)      (* the start command is posted *)
| Poll (now : Z)                         (* setTimeout(checkStatus, 1000) fires *)
| ContextClosed                          (* cleanup() of the catch block is over *)
| Console (txt : string) (now : Z)       (* the page prints a console line *)
| Message (m : ExtensionMessage) (now : Z)
| FlushTimer (now : Z)                   (* setInterval(flushSegments) fires *)
| MaxDurationTimer (now : Z)             (* the max-duration setTimeout fires *)
| Leave (reason : string) (now : Z)      (* leave(reason) is called from outside *)
| LeaveAdvance (i : nat) (now : Z).      (* the i-th pending leave() goes on *)

Definition nullPage : string := "Cannot read properties of null".

Definition step (i : Input) : Act unit :=
  b <- get ;;
  match i, joinPc b with
  | Launched None, Launching =>
      modify (set_browser true true true) ;;
      effect (Goto (url (session b))) ;;
      modify (set_joinPc Navigating)
  | Launched (Some e), Launching => join_catch e
  | Navigated None, Navigating =>
      if page b then modify (set_joinPc Settling) else join_catch nullPage
  | Navigated (Some e), Navigating => join_catch e
  | Settled now, Settling =>
      if page b
      then effect (PostCommand "start") ;; modify (set_joinPc Triggering)
      else enter_wait now
  | Triggered None now, Triggering => enter_wait now
  | Triggered (Some e) _, Triggering => join_catch e
  | Poll now, Waiting since timeout => checkStatus since timeout now
  | ContextClosed, Failing e => cleanup_end ;; modify (set_joinPc (Rejected e))
  | Console txt now, _ =>
      when (listening b && includes txt "[Notu.AI Bot]") (parseExtensionLog txt now)
  | Message m now, _ => handleExtensionMessage m now
  | FlushTimer now, _ => when (flushInterval b) (flushSegments now)
  | MaxDurationTimer now, _ => when (timeoutTimer b) (leave "max_duration_reached" now)
  | Leave reason now, _ => leave reason now
  | LeaveAdvance i now, _ =>
      match leaves b !! i with
      | Some (reason, StopPosted) =>
          modify (fun b => set_leaves (delete i (leaves b)) b) ;;
          leave_flush reason now
      | Some (reason, Closing) =>
          modify (fun b => set_leaves (delete i (leaves b)) b) ;;
          cleanup_end ;;
          leave_finish now
      | None => ret tt
      end
  | _, _ => ret tt
  end.

Definition run (inputs : list Input) (b : MeetBot) : MeetBot * list Effect :=
  fold_left (fun '(b, es) i => let '(b', es') := exec (step i) b in (b', es ++ es'))
            inputs (b, []).

Definition isCompletedEmit (e : Effect) : bool :=
  match e with Emit (CompletedEvent _ _ _ _) _ => true | _ => false end.

End Bot.

(* ===================================================================== *)
(** ** The session registry (src/sessionManager.ts) *)
(* ===================================================================== *)

Module Registry.
Import JS Types.

(** [socket.emit(event, data)] *)
Inductive WsEvent :=
| bot_status_change (meeting : string) (st : BotStatus) (message : option string)
| caption_added (meeting : string) (segment : Segment)
| bot_meeting_ended (meeting : string) (session : BotSession) (reason : string).

(** [axios.post(url, body)] *)
Inductive HttpPost :=
| PostSegments (meeting : string) (segs : list Segment)
| PostFinalize (meeting : string) (sid : string) (segs : list Segment) (duration : Z).

(** What a [startSession] call has produced so far. *)
Inductive StartResult :=
| Returns (s : BotSession)
| Throws (message : string)
| Awaits (bot : nat).

(** [class BotSessionManager] and its surroundings.  [MeetBot] objects live
    in [bots] and are named by their position; [sessions] is the map from
    meeting id to bot.  [calls] holds the [startSession] calls that await
    [bot.join()], [completions] the 'completed' listeners that await
    [finalizeMeeting] (with whether a POST is in flight), [results] what the
    awaited [startSession] calls produced. *)
Record Manager := mkManager {
  bots : list Bot.MeetBot;
  sessions : gmap string nat;
  socketConnected : bool;
  finalizedMeetings : gset string;
  emitted : list WsEvent;
  posts : list HttpPost;
  browsers : nat;
  calls : list (string * nat);
  completions : list (string * bool);
  results : list (nat * StartResult)
}.

Definition empty : Manager :=
  mkManager [] ∅ false ∅ [] [] 0 [] [] [].

(** [emitToBackend(event, data)] *)
Definition emitToBackend (e : WsEvent) (m : Manager) : Manager :=
  if socketConnected m
  then mkManager (bots m) (sessions m) (socketConnected m) (finalizedMeetings m)
         (emitted m ++ [e]) (posts m) (browsers m) (calls m) (completions m) (results m)
  else m.

Definition post (p : HttpPost) (m : Manager) : Manager :=
  mkManager (bots m) (sessions m) (socketConnected m) (finalizedMeetings m)
    (emitted m) (posts m ++ [p]) (browsers m) (calls m) (completions m) (results m).

Definition set_finalized (f : gset string) (m : Manager) : Manager :=
  mkManager (bots m) (sessions m) (socketConnected m) f
    (emitted m) (posts m) (browsers m) (calls m) (completions m) (results m).

Definition set_sessions (s : gmap string nat) (m : Manager) : Manager :=
  mkManager (bots m) s (socketConnected m) (finalizedMeetings m)
    (emitted m) (posts m) (browsers m) (calls m) (completions m) (results m).

Definition set_bots (l : list Bot.MeetBot) (m : Manager) : Manager :=
  mkManager l (sessions m) (socketConnected m) (finalizedMeetings m)
    (emitted m) (posts m) (browsers m) (calls m) (completions m) (results m).

Definition set_completions (l : list (string * bool)) (m : Manager) : Manager :=
  mkManager (bots m) (sessions m) (socketConnected m) (finalizedMeetings m)
    (emitted m) (posts m) (browsers m) (calls m) l (results m).

Definition set_calls (l : list (string * nat)) (r : list (nat * StartResult))
    (m : Manager) : Manager :=
  mkManager (bots m) (sessions m) (socketConnected m) (finalizedMeetings m)
    (emitted m) (posts m) (browsers m) l (completions m) r.

Definition add_browser (m : Manager) : Manager :=
  mkManager (bots m) (sessions m) (socketConnected m) (finalizedMeetings m)
    (emitted m) (posts m) (S (browsers m)) (calls m) (completions m) (results m).

(** The [duration] of the finalize body, in milliseconds. *)
Definition sessionDuration (s : BotSession) : Z :=
  match startedAt s, completedAt s with
  | Some a, Some c => (c - a)%Z
  | _, _ => 0%Z
  end.

(** [finalizeMeeting(meetingId, session)] up to [await axios.post(...)]: the
    result tells whether a POST was issued. *)
Definition finalizeMeeting (meeting : string) (s : BotSession) (m : Manager)
    : bool * Manager :=
  if decide (meeting ∈ finalizedMeetings m) then (false, m)
  else
    (true,
     post (PostFinalize meeting (sessionId s) (Types.segments s) (sessionDuration s))
       (set_finalized ({[meeting]} ∪ finalizedMeetings m) m)).

(** [finalizeMeeting] once the POST has settled: a failure takes the meeting
    out of the set again. *)
Definition finalizeSettled (meeting : string) (ok : bool) (m : Manager) : Manager :=
  if ok then m else set_finalized (finalizedMeetings m ∖ {[meeting]}) m.

(** The 'completed' listener of [startSession], up to
    [await this.finalizeMeeting(...)]. *)
Definition onCompleted (meeting : string) (snapshot : BotSession)
    (reason : string) (segs : list Segment) (now : Z) (m : Manager) : Manager :=
  let m1 := emitToBackend (bot_meeting_ended meeting snapshot reason) m in
  let s := mkBotSession (sessionId snapshot) (meetingId snapshot) (url snapshot)
             (status snapshot) segs (startedAt snapshot) (Some now) (error snapshot) in
  let '(inflight, m2) := finalizeMeeting meeting s m1 in
  set_completions (completions m2 ++ [(meeting, inflight)]) m2.

(** The rest of the [i]-th suspended 'completed' listener; [ok] is the
    outcome of its POST when it issued one. *)
Definition resumeCompleted (i : nat) (ok : bool) (m : Manager) : Manager :=
  match (completions m !! i : option (string * bool)) with
  | Some (meeting, inflight) =>
      let m1 := set_completions (delete i (completions m)) m in
      let m2 := if inflight then finalizeSettled meeting ok m1 else m1 in
      let m3 := emitToBackend
                  (bot_status_change meeting completed
                     (Some "Meeting completed successfully")) m2 in
      set_sessions (delete meeting (sessions m3)) m3
  | None => m
  end.

(** The listeners [startSession] installs on a bot, run on what the bot did;
    [meeting] is the id the listeners close over. *)
Definition listen (meeting : string) (now : Z) (e : Bot.Effect) (m : Manager) : Manager :=
  match e with
  | Bot.Emit (Bot.StatusEvent st message) _ =>
      emitToBackend (bot_status_change meeting st message) m
  | Bot.Emit (Bot.CaptionEvent mid segment) _ =>
      emitToBackend (caption_added mid segment) m
  | Bot.Emit (Bot.FlushEvent _ segs _ _) _ => post (PostSegments meeting segs) m
  | Bot.Emit (Bot.CompletedEvent _ reason segs _) snapshot =>
      onCompleted meeting snapshot reason segs now m
  | Bot.LaunchBrowser => add_browser m
  | _ => m
  end.

Definition listenAll (meeting : string) (now : Z) (es : list Bot.Effect)
    (m : Manager) : Manager :=
  fold_left (fun acc e => listen meeting now e acc) es m.

(** The rest of the [startSession] calls that await the join of bot [r]. *)
Definition settleCalls (r : nat) (b : Bot.MeetBot) (m : Manager) : Manager :=
  match Bot.joinPc b with
  | Bot.Joined =>
      let mine := List.filter (fun c => Nat.eqb (snd c) r) (calls m) in
      set_calls (List.filter (fun c => negb (Nat.eqb (snd c) r)) (calls m))
        (results m ++ map (fun c => (r, Returns (Bot.getSession b))) mine) m
  | Bot.Rejected e =>
      let mine := List.filter (fun c => Nat.eqb (snd c) r) (calls m) in
      let m1 := fold_left (fun acc c => set_sessions (delete (fst c) (sessions acc)) acc)
                  mine m in
      set_calls (List.filter (fun c => negb (Nat.eqb (snd c) r)) (calls m))
        (results m ++ map (fun c => (r, Throws e)) mine) m1
  | _ => m
  end.

(** Something happens to bot [r]: the bot reacts, its listeners run, and a
    [startSession] call that awaited its join goes on. *)
Definition deliver (r : nat) (i : Bot.Input) (now : Z) (m : Manager) : Manager :=
  match bots m !! r with
  | Some b =>
      let '(b', es) := Bot.exec (Bot.step i) b in
      let m1 := set_bots (<[r := b']> (bots m)) m in
      let m2 := listenAll (meetingId (Bot.session b)) now es m1 in
      settleCalls r b' m2
  | None => m
  end.

(** [startSession(meetingId, url)] up to the first [await] of [bot.join()];
    [sid] is the session id a new bot would generate. *)
Definition startSession (meeting target sid extensionPath : string)
    (extensionExists : bool) (now : Z) (m : Manager) : StartResult * Manager :=
  match sessions m !! meeting with
  | Some r =>
      match bots m !! r with
      | Some existing => (Returns (Bot.getSession existing), m)
      | None => (Throws Bot.nullPage, m)
      end
  | None =>
      let r := length (bots m) in
      let bot := Bot.create sid meeting target in
      let m1 := set_sessions (<[meeting := r]> (sessions m))
                  (set_bots (bots m ++ [bot]) m) in
      let '(bot', es) := Bot.exec (Bot.join extensionPath extensionExists) bot in
      let m2 := set_bots (<[r := bot']> (bots m1)) m1 in
      let m3 := listenAll meeting now es m2 in
      match Bot.joinPc bot' with
      | Bot.Rejected e => (Throws e, set_sessions (delete meeting (sessions m3)) m3)
      | _ => (Awaits r,
              set_calls (calls m3 ++ [(meeting, r)]) (results m3) m3)
      end
  end.

(** The finalize POSTs issued for a meeting. *)
Definition isFinalizeOf (meeting : string) (p : HttpPost) : bool :=
  match p with
  | PostFinalize m' _ _ _ => String.eqb m' meeting
  | _ => false
  end.

Definition finalizeCalls (meeting : string) (m : Manager) : nat :=
  length (List.filter (isFinalizeOf meeting) (posts m)).

End Registry.

(* ===================================================================== *)
(** ** Notions used to state the properties *)
(* ===================================================================== *)

Module AgentSpec.
Import JS Store Agent.

(** An accepted observation: the speaker and text [processCaption] went on
    with, and the elapsed time of the call. *)
Record Observation := mkObservation {
  oSpeaker : string;
  oText : string;
  oElapsed : Z
}.

Definition observe (v : version) (n : Node) (now : Z) (p : Page) : Observation :=
  mkObservation (speakerOf v n p) (getText n) (elapsed (botState p) now).

(** The accepted observations of a batch, in order. *)
Fixpoint acceptedTrace (v : version) (batch : list (Node * Z)) (p : Page)
    : list Observation :=
  match batch with
  | [] => []
  | (n, now) :: rest =>
      (if accepted v n p then [observe v n now p] else [])
      ++ acceptedTrace v rest (processCaption v n now p)
  end.

(** [new] is a strict extension of [old]. *)
Definition extends (old new : string) : bool :=
  startsWith new old && negb (String.eqb new old).

(** Every text strictly extends the one before it; [prev] is the text before
    the first, if any. *)
Fixpoint chainFrom (prev : option string) (texts : list string) : bool :=
  match texts with
  | [] => true
  | t :: rest =>
      match prev with Some o => extends o t | None => true end
      && chainFrom (Some t) rest
  end.

Definition bySpeaker (spk : string) (o : Observation) : bool :=
  String.eqb (oSpeaker o) spk.

Definition ofSpeaker (spk : string) (s : Segment) : bool :=
  String.eqb (speaker s) spk.

(** The start the script gives the segment opened by an observation. *)
Definition openedAt (v : version) (o : Observation) : Z :=
  segmentStart v (oElapsed o) (countWords false (oText o)).

(** The aggregation property for one speaker, with the start the segment is
    said to have as a parameter: when the accepted texts of the speaker form
    a chain of strict extensions, the final segments hold exactly one segment
    of the speaker, with the last text, the given start and the elapsed time
    of the last observation as end. *)
Definition aggregates (v : version) (startOf : Observation -> Z)
    (started : Z) (batch : list (Node * Z)) (spk : string) : Prop :=
  let p0 := recording v started in
  let mine := List.filter (bySpeaker spk) (acceptedTrace v batch p0) in
  chainFrom None (map oText mine) = true ->
  forall first lst, head mine = Some first -> last mine = Some lst ->
  exists seg,
    List.filter (ofSpeaker spk) (finalValues (observerCallback v batch p0)) = [seg]
    /\ text seg = oText lst
    /\ start seg = startOf first
    /\ end_ seg = oElapsed lst.

(** The aggregation state by value: the finalized segments and the table of
    active segments. *)
Definition View : Type := list Segment * list (string * Segment).

Definition view (p : Page) : View :=
  (readAll (heap p) (segments (botState p)),
   readActive (heap p) (activeSegments (botState p))).

Definition merged (v : version) (e seg : Segment) : Segment :=
  mkSegment (speaker e) (text seg) (start e) (end_ seg) (index e)
    (match v with V1 => wordCount e | V2 => wordCount seg end).

(** The segment management of [processCaption] on values. *)
Definition mergeOrCreateV (v : version) (seg : Segment) (w : View) : View :=
  match map_get (speaker seg) (snd w) with
  | Some e =>
      if startsWith (text seg) (substring0 20 (text e))
      then (fst w, map_set (speaker seg) (merged v e seg) (snd w))
      else (fst w ++ [e], map_set (speaker seg) seg (snd w))
  | None => (fst w, map_set (speaker seg) seg (snd w))
  end.

(** The segment object [processCaption] builds for an accepted node. *)
Definition segmentOf (v : version) (n : Node) (now : Z) (p : Page) : Segment :=
  let t := elapsed (botState p) now in
  mkSegment (speakerOf v n p) (getText n)
    (segmentStart v t (countWords false (getText n))) t
    (S (segmentCount (botState p))) (segmentWords v (getText n)).

(** The references of a page are well formed. *)
Definition wf (p : Page) : Prop :=
  wfRefs (heap p) (segments (botState p)) (activeSegments (botState p)).

Definition finOf (spk : string) (w : View) : list Segment :=
  List.filter (ofSpeaker spk) (fst w).

Definition actOf (spk : string) (w : View) : option Segment :=
  map_get spk (snd w).

(** Every active segment is filed under its speaker, once. *)
Definition keyed (w : View) : Prop := filed speaker (snd w).

(** A sample batch: Alice's caption grows while Bob speaks in between. *)
Definition growingBatch : list (Node * Z) :=
  [ (fragment "Alice" "Hello everyone", 5000%Z);
    (fragment "Bob" "Good morning", 6000%Z);
    (fragment "Alice" "Hello everyone, welcome back", 7500%Z) ].

End AgentSpec.

Module ScraperSpec.
Import JS Store Types Scraper.

(** A call [addCaption(speaker, text)] and the clock reading it takes. *)
Record Caption := mkCaption {
  capSpeaker : string;
  capText : string;
  capNow : Z
}.

Definition addAll (cs : list Caption) (m : SegmentManager) : SegmentManager :=
  fold_left (fun acc c => addCaption (capSpeaker c) (capText c) (capNow c) acc) cs m.

Definition saidBy (spk : string) (c : Caption) : bool :=
  String.eqb (capSpeaker c) spk.

Definition ofSpeaker (spk : string) (s : Segment) : bool :=
  String.eqb (speaker s) spk.

(** What [getAllSegments()] returns, by value. *)
Definition allValues (m : SegmentManager) : list Segment :=
  readAll (heap m) (getAllSegments m).

(** The references of a manager are well formed, the map has each speaker
    once, and the flushed boundary lies within [segments]. *)
Definition wf (m : SegmentManager) : Prop :=
  wfRefs (heap m) (segments m) (activeSegments m)
  /\ NoDup (map fst (activeSegments m))
  /\ flushedCount m <= length (segments m).

(** The manager by value: finalized segments and active segments. *)
Definition view (m : SegmentManager) : list Segment * list (string * Segment) :=
  (readAll (heap m) (segments m), readActive (heap m) (activeSegments m)).

(** [addCaption] on values. *)
Definition addCaptionV (spk txt : string) (elapsed : Z)
    (act : list (string * Segment)) : list (string * Segment) :=
  match map_get spk act with
  | Some e => map_set spk (mkSegment (speaker e) txt (start e) elapsed) act
  | None => map_set spk (mkSegment spk txt elapsed elapsed) act
  end.

Definition noMarkFlushed (os : list Op) : bool :=
  forallb (fun o => negb (isMarkFlushed o)) os.

(** The calls other than [markFlushed]. *)
Inductive Call :=
| CallAddCaption (spk txt : string) (now : Z)
| CallFinalizeSegment (spk : string)
| CallGetSegmentsForFlush.

Definition toOp (c : Call) : Op :=
  match c with
  | CallAddCaption spk txt now => AddCaption spk txt now
  | CallFinalizeSegment spk => FinalizeSegment spk
  | CallGetSegmentsForFlush => GetSegmentsForFlush
  end.

(** An object that is allocated and not active: nothing writes to it. *)
Definition frozenIn (m : SegmentManager) (r : nat) : Prop :=
  r < length (heap m) /\ r ∉ map_values (activeSegments m).

(** After a flush at store size [H] and boundary [n]: every reference beyond
    the boundary, and every active one, was allocated later. *)
Definition afterFlush (H n : nat) (m : SegmentManager) : Prop :=
  H <= length (heap m) /\ n <= flushedCount m
  /\ Forall (fun r => H <= r) (drop n (segments m))
  /\ Forall (fun r => H <= r) (map_values (activeSegments m)).

End ScraperSpec.

Module BotSpec.
Import JS Types Bot.

(** The bot an action leaves behind. *)
Definition after {A} (a : Act A) (b : MeetBot) : MeetBot := snd (fst (a b)).

(** An action keeps an observation [f] of the bot. *)
Definition keeps {X A} (f : MeetBot -> X) (a : Act A) : Prop :=
  forall b, f (after a b) = f b.

(** Observations of a bot that no update but one of [segments] changes, as
    long as the session keeps its ids. *)
Class Stable {X} (f : MeetBot -> X) := {
  stable_session : forall s b,
    sessionId s = sessionId (session b) -> meetingId s = meetingId (session b) ->
    f (set_session s b) = f b;
  stable_browser : forall c p l b, f (set_browser c p l b) = f b;
  stable_isLeaving : forall x b, f (set_isLeaving x b) = f b;
  stable_timers : forall x y b, f (set_timers x y b) = f b;
  stable_joinPc : forall pc b, f (set_joinPc pc b) = f b;
  stable_leaves : forall l b, f (set_leaves l b) = f b
}.

(** The ids of a bot. *)
Definition ids (b : MeetBot) : string * string :=
  (sessionId (session b), meetingId (session b)).

(** The inputs that are neither console lines nor captions nor
    completions. *)
Definition quiet (i : Input) : bool :=
  match i with
  | Console _ _ | Message (XCaption _) _ | Message (XCompleted _) _ => false
  | _ => true
  end.

(** The message [join()] fails with when the admission wait does not
    succeed. *)
Definition joinFailure : string := "Extension failed to join meeting".

(** A reason that speaks of a timeout, in any case and spelling. *)
Definition mentionsTimeout (reason : string) : bool :=
  let r := toLowerCase reason in
  includes r "timeout" || includes r "timed out" || includes r "time out".

(** The bot has failed and its reason speaks of a timeout. *)
Definition failedOnTimeout (b : MeetBot) : Prop :=
  status (session b) = failed
  /\ exists reason, error (session b) = Some reason /\ mentionsTimeout reason = true.

End BotSpec.

Module RegistrySpec.
Import JS Types Registry.

(** The poll timer of bot [r] fires at the given clock readings. *)
Definition pollAll (r : nat) (polls : list Z) (m : Manager) : Manager :=
  fold_left (fun acc t => deliver r (Bot.Poll t) t acc) polls m.

(** Sample states. *)

(** A registry with a connected socket and nothing else. *)
Definition connected : Manager := mkManager [] ∅ true ∅ [] [] 0 [] [] [].

Definition sampleSession : BotSession :=
  Bot.getSession (Bot.create "bot_1" "m1" "https://meet.google.com/abc-defg-hij").

(** The bot of meeting "m1" emits 'completed'. *)
Definition sampleCompleted : Bot.Effect :=
  Bot.Emit (Bot.CompletedEvent "m1" "meeting_ended" [] 60000) sampleSession.

(** A bot whose join has reached the admission wait at clock reading 0. *)
Definition waitingBot : Bot.MeetBot :=
  fst (Bot.run [Bot.Launched None; Bot.Navigated None; Bot.Settled 0;
                Bot.Triggered None 0]
         (fst (Bot.exec (Bot.join "/opt/extension" true)
                 (Bot.create "bot_1" "m1" "https://meet.google.com/abc-defg-hij")))).

(** The registry while [startSession] awaits that join. *)
Definition waitingRegistry : Manager :=
  mkManager [waitingBot] {["m1" := 0]} true ∅ [] [] 1 [("m1", 0)] [] [].

End RegistrySpec.

(* ===================================================================== *)
(** ** Further notions: the segment manager *)
(* ===================================================================== *)

Module ScraperNotions.
Import JS Store Types Scraper ScraperSpec.

(** The clock readings of the [addCaption] calls never go back, starting from
    the reading [t]. *)
Fixpoint inOrder (t : Z) (os : list Op) : bool :=
  match os with
  | [] => true
  | AddCaption _ _ now :: rest => (t <=? now)%Z && inOrder now rest
  | _ :: rest => inOrder t rest
  end.

(** A segment that starts at or after the creation of the manager and does
    not end before it starts. *)
Definition wellTimed (s : Segment) : Prop := (0 <= start s <= end_ s)%Z.

End ScraperNotions.

(* ===================================================================== *)
(** ** Further notions: the agent *)
(* ===================================================================== *)

Module AgentNotions.
Import JS Store Agent.

(** The [index] fields of the caption messages of an outbox, in order. *)
Definition captionIndexes (l : list Message) : list nat :=
  omap (fun m => match m with MsgCaption seg => Some (index seg) | _ => None end) l.

(** The messages that carry captured data: captions and flushes. *)
Definition isData (m : Message) : bool :=
  match m with MsgCaption _ | MsgFlush _ _ _ => true | _ => false end.

(** What the capture loop has built: the segment objects, the references to
    them, and the counters. *)
Definition capture (p : Page)
    : list Segment * list nat * list (string * nat) * nat * string :=
  (heap p, segments (botState p), activeSegments (botState p),
   segmentCount (botState p), lastCaption (botState p)).

(** The clock readings of the nodes the observer delivers, in order. *)
Fixpoint stamps (es : list Event) : list Z :=
  match es with
  | [] => []
  | Mutations batch :: rest => map snd batch ++ stamps rest
  | _ :: rest => stamps rest
  end.

(** The readings never go back, starting from [t]. *)
Fixpoint ascending (t : Z) (l : list Z) : bool :=
  match l with
  | [] => true
  | x :: rest => (t <=? x)%Z && ascending x rest
  end.

Definition wellTimed (s : Segment) : Prop := (0 <= start s <= end_ s)%Z.

(** The caption messages sent so far are numbered 1, 2, ... up to
    [segmentCount]. *)
Definition numbered (p : Page) : Prop :=
  captionIndexes (outbox p) = seq 1 (segmentCount (botState p)).

(** The observer is disconnected and the flush interval cleared (or neither
    was ever set up). *)
Definition stopped (p : Page) : Prop :=
  captionObserver (botState p) <> Some true /\ flushTimer (botState p) <> Some true.

(** The references [leaveMeeting] would collect name every segment object,
    each once. *)
Definition complete (p : Page) : Prop :=
  finalSegments (botState p) ≡ₚ seq 0 (length (heap p)).

(** The session started at [started], the latest clock reading is [t], and
    every segment object is well timed and ends by [t]. *)
Definition timedUpTo (started t : Z) (p : Page) : Prop :=
  startTime (botState p) = Some started
  /\ (started <= t)%Z
  /\ Forall (fun s => wellTimed s /\ (end_ s <= t - started)%Z) (heap p).

(** The closure variable [lastSpeaker] does not hold "Unknown Speaker". *)
Definition namesNoUnknown (p : Page) : Prop := lastSpeaker p <> "Unknown Speaker".

(** The events through which [leaveMeeting] is called from outside the
    observer callback: the stop command, the meeting-end check and the
    max-duration timer. *)
Definition leaveCall (e : Event) : bool :=
  match e with
  | StopCommand | CheckEndTick _ | MaxDuration => true
  | _ => false
  end.

Definition isResume (e : Event) : bool :=
  match e with ResumeLeave _ _ => true | _ => false end.

(** A node that names no speaker, with a text of four characters. *)
Definition unnamedNode : Node := mkNode "Okay" [].



Definition captionTexts (l : list Message) : list (string * string) :=
  omap (fun m => match m with MsgCaption seg => Some (speakerText seg) | _ => None end) l.

End AgentNotions.

(* ===================================================================== *)
(** ** Further notions: the orchestrator *)
(* ===================================================================== *)

Module BotNotions.
Import JS Types Bot BotSpec.

(** The effects an action produces. *)
Definition effects {A} (a : Act A) (b : MeetBot) : list Effect := snd (a b).

(** The 'completed' events among some effects. *)
Definition completedCount (es : list Effect) : nat :=
  length (List.filter isCompletedEmit es).

(** A structured 'completed' message of the extension. *)
Definition isCompletion (i : Input) : bool :=
  match i with Message (XCompleted _) _ => true | _ => false end.

(** How often [handleMeetingEnd] can still pass its guard. *)
Definition mayEnd (b : MeetBot) : nat := if isLeaving b then 0 else 1.

(** An action that emits no 'completed' event and leaves [isLeaving] as it
    is. *)
Definition calm {A} (a : Act A) : Prop :=
  forall b, completedCount (effects a b) = 0 /\ isLeaving (after a b) = isLeaving b.

(** An action that emits at most [extra] 'completed' events beyond those the
    guard of [handleMeetingEnd] lets through. *)
Definition budgeted {A} (extra : nat) (a : Act A) : Prop :=
  forall b, completedCount (effects a b) + mayEnd (after a b) <= mayEnd b + extra.

(** The bot with the status of its session replaced. *)
Definition withStatus (st : BotStatus) (b : MeetBot) : MeetBot :=
  let s := session b in
  set_session (mkBotSession (sessionId s) (meetingId s) (url s) st (Types.segments s)
                 (startedAt s) (completedAt s) (error s)) b.

(** The bot once a [leave()] that ended at [now] is over. *)
Definition leftBot (now : Z) (b : MeetBot) : MeetBot :=
  let s := session b in
  mkMeetBot false false (listening b)
    (mkBotSession (sessionId s) (meetingId s) (url s) completed (segments b)
       (startedAt s) (Some now) (error s))
    (segments b) (isLeaving b) false false (joinPc b) (leaves b).

End BotNotions.

(* ===================================================================== *)
(** ** The agent's console lines (extension/content.js, log and processCaption) *)
(* ===================================================================== *)

Module AgentLog.
Import JS Agent.

(** [log(msg)]: with [CONFIG.DEBUG] set, [console.log('[Notu.AI Bot]', msg)];
    the console line holds the two arguments separated by a space. *)
Definition log (msg : string) : string := "[Notu.AI Bot] " ++ msg.

(** What the second script appends to the caption line:
    [ (${wordCount} words, ~${estimatedDuration.toFixed(1)}s)]; [words] and
    [seconds] are the decimal renderings of the two numbers. *)
Definition details (v : version) (words seconds : string) : string :=
  match v with
  | V1 => ""
  | V2 => " (" ++ words ++ " words, ~" ++ seconds ++ "s)"
  end.

(** The line [processCaption] logs for an accepted fragment. *)
Definition captionLine (v : version) (spk txt words seconds : string) : string :=
  log ("🎤 [Caption] " ++ spk ++ ": " ++ txt ++ details v words seconds).

(** The line [leaveMeeting(reason)] logs first:
    [log('🚪 Leaving meeting:', reason)]. *)
Definition leavingLine (reason : string) : string :=
  log ("🚪 Leaving meeting: " ++ reason).

(** No line terminator. *)
Definition oneLine (s : string) : bool :=
  allChars (fun c => negb (isLineTerminator c)) s.

(** No colon. *)
Definition noColon (s : string) : bool :=
  allChars (fun c => negb (Ascii.eqb c ":")) s.

End AgentLog.

(* ===================================================================== *)
(** ** The rest of the registry (src/sessionManager.ts, stopSession and getSession) *)
(* ===================================================================== *)

Module Sessions.
Import JS Types Registry.

(** [stopSession(meetingId, reason)] up to [await bot.leave(reason)]: the
    bot whose [leave()] the call awaits, if the meeting has a session. *)
Definition stopSession (meeting reason : string) (now : Z) (m : Manager)
    : option nat * Manager :=
  match sessions m !! meeting with
  | None => (None, m)
  | Some r => (Some r, deliver r (Bot.Leave reason now) now m)
  end.

(** The rest of [stopSession] once [leave()] of bot [r] has returned its
    session: the backend is notified, the session is the result. *)
Definition stopSettled (meeting reason : string) (r : nat) (m : Manager)
    : option BotSession * Manager :=
  match bots m !! r with
  | Some b =>
      let session := Bot.getSession b in
      (Some session, emitToBackend (bot_meeting_ended meeting session reason) m)
  | None => (None, m)
  end.

(** [getSession(meetingId)] *)
Definition getSession (meeting : string) (m : Manager) : option BotSession :=
  match sessions m !! meeting with
  | Some r => Bot.getSession <$> bots m !! r
  | None => None
  end.

End Sessions.

(* ===================================================================== *)
(** ** Further notions: the registry *)
(* ===================================================================== *)

Module RegistryNotions.
Import JS Types Registry.

(** The segment POSTs the 'flush' listener makes for some effects of a bot. *)
Definition flushPosts (meeting : string) (es : list Bot.Effect) : list HttpPost :=
  omap (fun e => match e with
                 | Bot.Emit (Bot.FlushEvent _ segs _ _) _ => Some (PostSegments meeting segs)
                 | _ => None
                 end) es.

Definition isSegmentsPost (p : HttpPost) : bool :=
  match p with PostSegments _ _ => true | _ => false end.

(** What the registry and the console handler go by in a bot, and what a
    completion reports of it. *)
Definition posture (b : Bot.MeetBot)
    : bool * bool * Bot.JoinPc * list Segment * (string * string) * option Z :=
  (Bot.listening b, Bot.isLeaving b, Bot.joinPc b, Bot.segments b, BotSpec.ids b,
   startedAt (Bot.session b)).

(** The pending [leave()] of bot [r] that [k] names goes on, once for each of
    the clock readings. *)
Definition leaveGoesOn (r k : nat) (ts : list Z) (m : Manager) : Manager :=
  fold_left (fun acc t => deliver r (Bot.LeaveAdvance k t) t acc) ts m.

(** The time a 'completed' event of [handleMeetingEnd] at [now] is finalized
    with. *)
Definition runningTime (b : Bot.MeetBot) (now : Z) : Z :=
  match startedAt (Bot.session b) with
  | Some a => (now - a)%Z
  | None => 0%Z
  end.

(** Sample states. *)

(** The bot of [waitingRegistry] after the extension reported that it is in
    the meeting, the next poll ended the admission wait at clock reading
    2000, and one caption line was printed. *)
Definition joinedBot : Bot.MeetBot :=
  fst (Bot.run [Bot.Message (Bot.XStatus "in_meeting" None None None) 1000;
                Bot.Poll 2000;
                Bot.Console "[Notu.AI Bot] [Caption] Alice: Hello everyone" 3000]
         RegistrySpec.waitingBot).

Definition joinedRegistry : Manager :=
  mkManager [joinedBot] {["m1" := 0]} true ∅ [] [] 1 [] [] [].

(** The bot of [waitingRegistry] after the extension reported a failure and
    the next poll ended the admission wait: the catch block of [join()]
    awaits [cleanup()]. *)
Definition failingBot : Bot.MeetBot :=
  fst (Bot.run [Bot.Message (Bot.XStatus "failed" None (Some "Blocked") None) 1000;
                Bot.Poll 2000]
         RegistrySpec.waitingBot).

Definition failingRegistry : Manager :=
  mkManager [failingBot] {["m1" := 0]} true ∅ [] [] 1 [("m1", 0)] [] [].

(** A registry whose 'completed' listener for "m1" awaits its finalize
    POST. *)
Definition finalizingRegistry : Manager :=
  mkManager [] {["m1" := 0]} true {["m1"]} [] [] 1 [] [("m1", true)] [].

(** A 'flush' event of one segment. *)
Definition sampleFlush : Bot.Effect :=
  Bot.Emit (Bot.FlushEvent "m1" [mkSegment "Alice" "Hello" 0 0] 1 5000)
           RegistrySpec.sampleSession.

End RegistryNotions.

(* ===================================================================== *)
(** ** The REST handlers (src/index.ts) *)
(* ===================================================================== *)

Module Api.
Import JS Types Registry Sessions.

(** The JSON bodies the handlers send. *)
Inductive Body :=
| JoinBody (sessionId meetingId message : string)
    (* { success: true, sessionId, meetingId, message } *)
| ErrorBody (error : string)
    (* { success: false, error } *)
| StopBody (transcript : string) (segmentCount : nat) (duration : Z)
    (* { success: true, transcript, segmentCount, duration } *)
| StatusBody (sessionId meetingId : string) (st : BotStatus) (segmentCount : nat)
    (duration : Z) (lastSegment : option Segment).
    (* { sessionId, meetingId, status, segmentCount, duration, lastSegment } *)

(** [res.status(code).json(body)]; [res.json(body)] answers with 200. *)
Record Response := mkResponse { code : nat; body : Body }.

(** What a handler has produced so far: its response, or the bot whose
    [join()] or [leave()] it awaits. *)
Inductive Handled :=
| Responds (r : Response)
| Pending (bot : nat).

(** The rest of [POST /api/bot/join] once [startSession] has settled. *)
Definition joinSettled (r : StartResult) : Handled :=
  match r with
  | Returns s =>
      Responds (mkResponse 200
                  (JoinBody (sessionId s) (meetingId s) "Bot started successfully"))
  | Throws e => Responds (mkResponse 500 (ErrorBody e))
  | Awaits b => Pending b
  end.

(** [POST /api/bot/join] up to the first [await] of [startSession]; the
    fields [meetingUrl] and [meetingId] of the body are strings or absent. *)
Definition postJoin (meetingUrl meetingId : option string)
    (sid extensionPath : string) (extensionExists : bool) (now : Z) (m : Manager)
    : Handled * Manager :=
  let required := Responds (mkResponse 400
                    (ErrorBody "meetingUrl and meetingId are required")) in
  match meetingUrl, meetingId with
  | Some u, Some i =>
      if String.eqb u "" || String.eqb i "" then (required, m)
      else if negb (includes u "meet.google.com")
      then (Responds (mkResponse 400 (ErrorBody "Only Google Meet URLs are supported")), m)
      else
        let '(r, m') := startSession i u sid extensionPath extensionExists now m in
        (joinSettled r, m')
  | _, _ => (required, m)
  end.

(** [reason || 'user_requested'] *)
Definition stopReason (reason : option string) : string :=
  match reason with
  | Some r => if String.eqb r "" then "user_requested" else r
  | None => "user_requested"
  end.

Definition newline : string := String (ascii_of_nat 10) "".

(** [segments.map((s) => `${s.speaker}: ${s.text}`).join('\n')] *)
Definition transcript (segs : list Segment) : string :=
  String.concat newline (map (fun s => (speaker s ++ ": " ++ text s)%string) segs).

(** The response of [POST /api/bot/:meetingId/stop] to what [stopSession]
    returned; the duration is in milliseconds. *)
Definition stopResponse (o : option BotSession) : Response :=
  match o with
  | None => mkResponse 404 (ErrorBody "Session not found")
  | Some s =>
      mkResponse 200
        (StopBody (transcript (Types.segments s)) (length (Types.segments s))
           (sessionDuration s))
  end.

(** [POST /api/bot/:meetingId/stop] up to [await bot.leave(reason)]. *)
Definition postStop (meeting : string) (reason : option string) (now : Z) (m : Manager)
    : Handled * Manager :=
  match stopSession meeting (stopReason reason) now m with
  | (Some r, m') => (Pending r, m')
  | (None, m') => (Responds (stopResponse None), m')
  end.

(** The rest of the handler once [leave()] of bot [r] has returned. *)
Definition postStopSettled (meeting : string) (reason : option string) (r : nat)
    (m : Manager) : Response * Manager :=
  let '(o, m') := stopSettled meeting (stopReason reason) r m in (stopResponse o, m').

(** [GET /api/bot/:meetingId/status]; the duration is in milliseconds. *)
Definition getStatus (meeting : string) (now : Z) (m : Manager) : Response :=
  match getSession meeting m with
  | None => mkResponse 404 (ErrorBody "Session not found")
  | Some s =>
      mkResponse 200
        (StatusBody (sessionId s) (meetingId s) (status s) (length (Types.segments s))
           (match startedAt s with Some a => (now - a)%Z | None => 0%Z end)
           (List.last (map Some (Types.segments s)) None))
  end.

(** The clock reading at which [leave()] of a bot ends, when its steps run
    at [t1], [t2] and [t3]. *)
Definition leftAt (b : Bot.MeetBot) (t1 t2 t3 : Z) : Z :=
  if Bot.page b then (if Bot.context b then t3 else t2)
  else (if Bot.context b then t2 else t1).

End Api.

(* ===================================================================== *)
(** ** Caption parsing and the injected observer (src/captionScraper.ts) *)
(* ===================================================================== *)

Module Captions.
Import JS.

(** [SYSTEM_MESSAGE_PATTERNS]: each pattern is a literal text with the flag
    [i]. *)
Definition SYSTEM_MESSAGE_PATTERNS : list string :=
  ["you left the meeting"; "return to home screen"; "leave call"; "feedback";
   "audio and video"; "learn more"; "you're the only one here";
   "waiting for others"; "someone has already admitted"; "presenting now"].

(** [isSystemMessage(text)] *)
Definition isSystemMessage (text : string) : bool :=
  existsb (fun pattern => includes (toLowerCase text) pattern) SYSTEM_MESSAGE_PATTERNS.

(** [interface CaptionEvent] *)
Record CaptionEvent := mkCaptionEvent { speaker : string; text : string }.

Definition LF : ascii := ascii_of_nat 10.

(** [s.split('\n')] *)
Fixpoint splitLines (s : string) : list string :=
  match s with
  | EmptyString => [EmptyString]
  | String c s' =>
      if Ascii.eqb c LF then EmptyString :: splitLines s'
      else match splitLines s' with
           | l :: ls => String c l :: ls
           | [] => [String c EmptyString]
           end
  end.

(** [parseCaptionElement(element)], on the [textContent] of the element. *)
Definition parseCaptionElement (textContent : option string) : option CaptionEvent :=
  match textContent with
  | None => None
  | Some raw =>
      let text := trim raw in
      if String.eqb text "" || isSystemMessage text then None
      else
        match List.filter (fun line => negb (String.eqb (trim line) ""))
                (splitLines text) with
        | first :: second :: rest =>
            Some (mkCaptionEvent (trim first)
                    (trim (String.concat " " (second :: rest))))
        | [only] => Some (mkCaptionEvent "Unknown" (trim only))
        | [] => None
        end
  end.

(** The script of [getInjectionScript()]. *)

Inductive MutationType := childList | characterData | attributes.

(** A mutation record as the observer callback meets it: its type, the
    [textContent] of the caption container and the reading of [Date.now()]
    at that moment. *)
Record Mutation := mkMutation {
  mutationType : MutationType;
  textContent : option string;
  now : Z
}.

(** The dedupe tracking of the script. *)
Record Tracking := mkTracking {
  lastCaption : string;
  lastSpeaker : string;
  lastCaptionTime : Z
}.

Definition DEDUPE_THRESHOLD_MS : Z := 500.

Definition initial : Tracking := mkTracking "" "" 0.

(** One round of the loop over the mutation records: the tracking afterwards
    and the call [window.onCaption(speaker, text)], if one is made, with the
    clock reading; [hasOnCaption] tells whether [window.onCaption] is a
    function.  The script's [parseCaption] is [parseCaptionElement]. *)
Definition observe (hasOnCaption : bool) (mu : Mutation) (t : Tracking)
    : Tracking * option (CaptionEvent * Z) :=
  match mutationType mu with
  | attributes => (t, None)
  | _ =>
      match parseCaptionElement (textContent mu) with
      | None => (t, None)
      | Some caption =>
          if String.eqb (text caption) (lastCaption t)
             && String.eqb (speaker caption) (lastSpeaker t)
             && (now mu - lastCaptionTime t <? DEDUPE_THRESHOLD_MS)%Z
          then (t, None)
          else (mkTracking (text caption) (speaker caption) (now mu),
                if hasOnCaption then Some (caption, now mu) else None)
      end
  end.

(** The calls of [window.onCaption] for a sequence of mutation records. *)
Fixpoint observeAll (hasOnCaption : bool) (mus : list Mutation) (t : Tracking)
    : list (CaptionEvent * Z) :=
  match mus with
  | [] => []
  | mu :: rest =>
      let '(t', call) := observe hasOnCaption mu t in
      match call with
      | Some c => c :: observeAll hasOnCaption rest t'
      | None => observeAll hasOnCaption rest t'
      end
  end.

(** No line feed. *)
Definition noLineFeed (s : string) : bool :=
  allChars (fun c => negb (Ascii.eqb c LF)) s.

(** A pattern that neither starts nor ends with white space. *)
Fixpoint endsClean (p : string) : bool :=
  match p with
  | EmptyString => false
  | String c EmptyString => negb (isWhiteSpace c)
  | String _ p' => endsClean p'
  end.

Definition clean (p : string) : bool :=
  match p with
  | EmptyString => false
  | String c _ => negb (isWhiteSpace c) && endsClean p
  end.

(** A text of ASCII characters only; on these the white space and the
    letter cases of [JS] are those of the language. *)
Definition isAscii (s : string) : bool :=
  allChars (fun c => (nat_of_ascii c <? 128)%nat) s.

(** The [textContent] of an element is absent or ASCII. *)
Definition asciiContent (textContent : option string) : bool :=
  match textContent with
  | Some raw => isAscii raw
  | None => true
  end.

(** A container text of two lines: a speaker and a sentence. *)
Definition sampleCaption : string := "Alice" ++ String LF "Hello everyone".

(** A container text of two lines: a speaker, and a sentence that mentions
    feedback. *)
Definition sampleText : string :=
  "Alice" ++ String LF "Thanks for the Feedback on my draft".

End Captions.

(* ===================================================================== *)
(** ** Audio capture (extension, class AudioCapture) *)
(* ===================================================================== *)

Module Audio.

(** The payload of an [audio_chunk_data] message. *)
Record Chunk := mkChunk {
  audioData : string;
  size : nat;
  timestamp : Z;
  duration : Z
}.

(** What the object sends: a message to the background script, or a chunk
    posted to the window for the orchestrator. *)
Inductive Sent :=
| ToBackground (type : string) (meeting : option string)
| Posted (meeting : option string) (data : Chunk).

(** [class AudioCapture]; [listeners] counts the handlers of this object that
    are registered with [chrome.runtime.onMessage]. *)
Record AudioCapture := mkAudioCapture {
  isRecording : bool;
  meetingId : option string;
  chunkCount : nat;
  messageHandler : bool;
  listeners : nat
}.

(** [new AudioCapture()] *)
Definition create : AudioCapture := mkAudioCapture false None 0 false 0.

(** [setupChunkListener()] *)
Definition setupChunkListener (a : AudioCapture) : AudioCapture :=
  let removed := if messageHandler a then Nat.pred (listeners a) else listeners a in
  mkAudioCapture (isRecording a) (meetingId a) (chunkCount a) true (S removed).

(** [start(meetingId)] up to [await this.sendToBackground(...)]; the result
    is what the call returns when it does not get that far. *)
Definition start (meeting : string) (a : AudioCapture)
    : option bool * AudioCapture * list Sent :=
  if isRecording a then (Some true, a, [])
  else
    let a1 := mkAudioCapture (isRecording a) (Some meeting) (chunkCount a)
                (messageHandler a) (listeners a) in
    (None, setupChunkListener a1, [ToBackground "start_audio_capture" (Some meeting)]).

(** [start] once the background script has answered; [success] is
    [result && result.success]. *)
Definition startSettled (success : bool) (a : AudioCapture) : bool * AudioCapture :=
  if success
  then (true, mkAudioCapture true (meetingId a) (chunkCount a) (messageHandler a)
                (listeners a))
  else (false, a).

(** [handleChunkFromBackground(data)] *)
Definition handleChunkFromBackground (data : Chunk) (a : AudioCapture)
    : AudioCapture * list Sent :=
  (mkAudioCapture (isRecording a) (meetingId a) (S (chunkCount a)) (messageHandler a)
     (listeners a),
   [Posted (meetingId a) data]).

(** A message reaches [chrome.runtime.onMessage]: every registered handler
    of the object runs. *)
Fixpoint dispatch (n : nat) (type : string) (data : Chunk) (a : AudioCapture)
    : AudioCapture * list Sent :=
  match n with
  | O => (a, [])
  | S n' =>
      let '(a1, out1) := if String.eqb type "audio_chunk_data"
                         then handleChunkFromBackground data a else (a, []) in
      let '(a2, out2) := dispatch n' type data a1 in
      (a2, out1 ++ out2)
  end.

Definition onMessage (type : string) (data : Chunk) (a : AudioCapture)
    : AudioCapture * list Sent :=
  dispatch (listeners a) type data a.

(** [stop()] up to [await this.sendToBackground('stop_audio_capture')];
    when the object is not recording the method runs to its end. *)
Definition stop (a : AudioCapture) : AudioCapture * list Sent :=
  let a1 := if messageHandler a
            then mkAudioCapture (isRecording a) (meetingId a) (chunkCount a) false
                   (Nat.pred (listeners a))
            else a in
  if isRecording a1 then (a1, [ToBackground "stop_audio_capture" None])
  else (mkAudioCapture false (meetingId a1) (chunkCount a1) (messageHandler a1)
          (listeners a1), []).

(** [stop()] once the background script has answered. *)
Definition stopSettled (a : AudioCapture) : AudioCapture :=
  mkAudioCapture false (meetingId a) (chunkCount a) (messageHandler a) (listeners a).

(** What happens to the object. *)
Inductive Event :=
| Start (meeting : string)
| StartSettled (success : bool)
| Stop
| StopSettled
| Message (type : string) (data : Chunk).

Definition step (e : Event) (a : AudioCapture) : AudioCapture * list Sent :=
  match e with
  | Start meeting => let '(_, a', out) := start meeting a in (a', out)
  | StartSettled success => (snd (startSettled success a), [])
  | Stop => stop a
  | StopSettled => (stopSettled a, [])
  | Message type data => onMessage type data a
  end.

Definition run (es : list Event) (a : AudioCapture) : AudioCapture * list Sent :=
  fold_left (fun '(a, out) e => let '(a', out') := step e a in (a', out ++ out'))
    es (a, []).

Definition isPosted (s : Sent) : bool :=
  match s with Posted _ _ => true | _ => false end.

Definition isChunkMessage (e : Event) : bool :=
  match e with Message type _ => String.eqb type "audio_chunk_data" | _ => false end.

(** The object has one registered handler when [messageHandler] is set and
    none otherwise. *)
Definition tidy (a : AudioCapture) : Prop :=
  listeners a = if messageHandler a then 1 else 0.

Definition sampleChunk : Chunk := mkChunk "GkXfo59ChoEB" 9 10000 10.

End Audio.

(* ===================================================================== *)
(** ** Properties of the object store *)
(* ===================================================================== *)

Module StoreProps.
Import JS Store.

Section Store.
Context {A : Type}.

Lemma readAll_cons (h : list A) (r : nat) (rs : list nat) :
  readAll h (r :: rs) = match h !! r with
                        | Some s => s :: readAll h rs
                        | None => readAll h rs
                        end.
Proof. reflexivity. Qed.

Lemma readActive_cons (h : list A) (k : string) (r : nat)
    (act : list (string * nat)) :
  readActive h ((k, r) :: act) = match h !! r with
                                 | Some s => (k, s) :: readActive h act
                                 | None => readActive h act
                                 end.
Proof. unfold readActive. simpl. destruct (h !! r); reflexivity. Qed.

Lemma readAll_app (h : list A) (a b : list nat) :
  readAll h (a ++ b) = readAll h a ++ readAll h b.
Proof. unfold readAll. apply omap_app. Qed.

Lemma readAll_grow (h x : list A) (rs : list nat) :
  Forall (fun r => r < length h) rs -> readAll (h ++ x) rs = readAll h rs.
Proof.
  induction 1 as [|r rs Hr _ IH]; [reflexivity|].
  rewrite !readAll_cons, IH. rewrite lookup_app_l by assumption. reflexivity.
Qed.

Lemma readAll_insert (h : list A) (r : nat) (x : A) (rs : list nat) :
  r ∉ rs -> readAll (<[r := x]> h) rs = readAll h rs.
Proof.
  induction rs as [|a rs IH]; [reflexivity|].
  intros H. apply not_elem_of_cons in H as [Hne Hnotin].
  rewrite !readAll_cons, IH by assumption.
  rewrite list_lookup_insert_ne by assumption. reflexivity.
Qed.

Lemma readActive_grow (h x : list A) (act : list (string * nat)) :
  Forall (fun r => r < length h) (map_values act) ->
  readActive (h ++ x) act = readActive h act.
Proof.
  induction act as [|[k r] act IH]; [reflexivity|].
  intros H. apply Forall_cons in H as [Hr H].
  rewrite !readActive_cons, IH by assumption.
  rewrite lookup_app_l by assumption. reflexivity.
Qed.

Lemma readActive_insert (h : list A) (r : nat) (x : A)
    (act : list (string * nat)) :
  r ∉ map_values act -> readActive (<[r := x]> h) act = readActive h act.
Proof.
  induction act as [|[k a] act IH]; [reflexivity|].
  intros H. apply not_elem_of_cons in H as [Hne Hnotin].
  rewrite !readActive_cons, IH by assumption.
  rewrite list_lookup_insert_ne by assumption. reflexivity.
Qed.

Lemma map_get_elem {V : Type} (k : string) (v : V) (m : list (string * V)) :
  map_get k m = Some v -> v ∈ map_values m.
Proof.
  unfold map_values. induction m as [|[k' v'] m IH]; simpl; [intros H; discriminate H|].
  destruct (String.eqb k k'); intros H.
  - injection H as ->. apply elem_of_cons. left. reflexivity.
  - apply elem_of_cons. right. auto.
Qed.

Lemma map_get_readActive (h : list A) (k : string) (act : list (string * nat)) :
  Forall (fun r => r < length h) (map_values act) ->
  map_get k (readActive h act) = match map_get k act with
                                 | Some r => h !! r
                                 | None => None
                                 end.
Proof.
  induction act as [|[k' r] act IH]; [reflexivity|].
  intros H. apply Forall_cons in H as [Hr H].
  destruct (lookup_lt_is_Some_2 h r Hr) as [s Hs].
  rewrite readActive_cons, Hs. simpl.
  destruct (String.eqb k k'); [symmetry; exact Hs | auto].
Qed.

(** Merging in place: the object behind the speaker's reference changes. *)
Lemma readActive_merge (h : list A) (k : string) (r : nat) (x : A)
    (act : list (string * nat)) :
  Forall (fun r => r < length h) (map_values act) ->
  NoDup (map_values act) ->
  map_get k act = Some r ->
  readActive (<[r := x]> h) act = map_set k x (readActive h act).
Proof.
  induction act as [|[k' a] act IH]; [intros _ _ H; discriminate H|].
  intros Hall Hnd Hget.
  apply Forall_cons in Hall as [Ha Hall]. apply NoDup_cons in Hnd as [Hnotin Hnd].
  destruct (lookup_lt_is_Some_2 h a Ha) as [s Hs].
  rewrite !readActive_cons, Hs. simpl in Hget |- *.
  destruct (String.eqb k k') eqn:E.
  - injection Hget as ->. apply String.eqb_eq in E as ->.
    rewrite list_lookup_insert_eq by assumption.
    rewrite readActive_insert by assumption. reflexivity.
  - assert (a <> r) as Hne.
    { intros ->. apply Hnotin. eapply (map_get_elem k r act). exact Hget. }
    rewrite list_lookup_insert_ne by congruence. rewrite Hs.
    rewrite IH by assumption. reflexivity.
Qed.

(** Opening a segment: a fresh object is filed under the speaker. *)
Lemma readActive_create (h : list A) (k : string) (x : A)
    (act : list (string * nat)) :
  Forall (fun r => r < length h) (map_values act) ->
  readActive (h ++ [x]) (map_set k (length h) act) = map_set k x (readActive h act).
Proof.
  induction act as [|[k' a] act IH].
  - intros _. cbn [map_set]. rewrite readActive_cons.
    rewrite lookup_app_r by lia. rewrite Nat.sub_diag. reflexivity.
  - intros Hall. apply Forall_cons in Hall as [Ha Hall].
    destruct (lookup_lt_is_Some_2 h a Ha) as [s Hs].
    rewrite (readActive_cons h), Hs.
    cbn [map_set]. destruct (String.eqb k k') eqn:E.
    + rewrite readActive_cons.
      rewrite lookup_app_r by lia. rewrite Nat.sub_diag. simpl.
      rewrite readActive_grow by assumption. reflexivity.
    + rewrite readActive_cons.
      rewrite lookup_app_l by assumption. rewrite Hs.
      rewrite IH by assumption. reflexivity.
Qed.

Lemma map_set_values {V : Type} (k : string) (y x : V) (m : list (string * V)) :
  NoDup (map_values m) ->
  x ∈ map_values (map_set k y m) ->
  x = y \/ (x ∈ map_values m /\ map_get k m <> Some x).
Proof.
  unfold map_values. induction m as [|[k' a] m IH]; simpl.
  - intros _ H. apply list_elem_of_singleton in H. auto.
  - intros Hnd H. apply NoDup_cons in Hnd as [Hnotin Hnd].
    destruct (String.eqb k k') eqn:E; simpl in H; apply elem_of_cons in H as [H | H].
    + auto.
    + right. split; [apply elem_of_cons; auto|]. intros Heq. injection Heq as ->. auto.
    + subst x. right. split; [apply elem_of_cons; auto|].
      intros Heq. apply Hnotin. exact (map_get_elem _ _ _ Heq).
    + destruct (IH Hnd H) as [-> | [Hin Hne]]; [auto|].
      right. split; [apply elem_of_cons; auto | exact Hne].
Qed.

Lemma map_set_NoDup {V : Type} (k : string) (y : V) (m : list (string * V)) :
  NoDup (map_values m) -> y ∉ map_values m -> NoDup (map_values (map_set k y m)).
Proof.
  unfold map_values. induction m as [|[k' a] m IH]; simpl.
  - intros _ _. apply NoDup_singleton.
  - intros Hnd Hy. apply NoDup_cons in Hnd as [Hnotin Hnd].
    apply not_elem_of_cons in Hy as [Hne Hy].
    destruct (String.eqb k k'); simpl; apply NoDup_cons; split; auto.
    intros Hin. destruct (map_set_values k y a m Hnd Hin) as [-> | [Hin' _]]; auto.
Qed.

Lemma wfRefs_create (h : list A) (segs pushed : list nat)
    (act : list (string * nat)) (k : string) (x : A) :
  wfRefs h segs act ->
  (forall r, r ∈ pushed -> map_get k act = Some r) ->
  wfRefs (h ++ [x]) (segs ++ pushed) (map_set k (length h) act).
Proof.
  intros (Hsegs & Hact & Hnd & Hsep) Hpushed.
  assert (length h ∉ map_values act) as Hfresh.
  { intros Hin. rewrite Forall_forall in Hact. specialize (Hact _ Hin). lia. }
  repeat split.
  - apply Forall_app. split.
    + apply Forall_forall. intros r Hr. rewrite Forall_forall in Hsegs.
      specialize (Hsegs _ Hr). rewrite length_app. simpl. lia.
    + apply Forall_forall. intros r Hr. apply Hpushed in Hr.
      apply map_get_elem in Hr. rewrite Forall_forall in Hact.
      specialize (Hact _ Hr). rewrite length_app. simpl. lia.
  - apply Forall_forall. intros r Hr.
    destruct (map_set_values k (length h) r act Hnd Hr) as [-> | [Hin _]].
    + rewrite length_app. simpl. lia.
    + rewrite Forall_forall in Hact. specialize (Hact _ Hin).
      rewrite length_app. simpl. lia.
  - apply map_set_NoDup; assumption.
  - apply Forall_forall. intros r Hr Hin.
    apply elem_of_app in Hin as [Hin | Hin].
    + destruct (map_set_values k (length h) r act Hnd Hr) as [-> | [Hin' _]].
      * rewrite Forall_forall in Hsegs. specialize (Hsegs _ Hin). lia.
      * rewrite Forall_forall in Hsep. exact (Hsep _ Hin' Hin).
    + specialize (Hpushed _ Hin).
      destruct (map_set_values k (length h) r act Hnd Hr) as [-> | [_ Hne]].
      * apply map_get_elem in Hpushed. rewrite Forall_forall in Hact.
        specialize (Hact _ Hpushed). lia.
      * contradiction.
Qed.

Lemma wfRefs_insert (h : list A) (segs : list nat)
    (act : list (string * nat)) (r : nat) (x : A) :
  wfRefs h segs act -> wfRefs (<[r := x]> h) segs act.
Proof.
  intros (Hsegs & Hact & Hnd & Hsep). repeat split; try assumption;
    rewrite length_insert; assumption.
Qed.

Lemma map_get_set_eq {V : Type} (k : string) (x : V) (m : list (string * V)) :
  map_get k (map_set k x m) = Some x.
Proof.
  induction m as [|[k' a] m IH]; simpl.
  - rewrite String.eqb_refl. reflexivity.
  - destruct (String.eqb k k') eqn:E; simpl; rewrite ?String.eqb_refl, ?E; auto.
Qed.

Lemma map_get_set_ne {V : Type} (k k' : string) (x : V) (m : list (string * V)) :
  k' <> k -> map_get k' (map_set k x m) = map_get k' m.
Proof.
  intros Hne. induction m as [|[k0 a] m IH]; simpl.
  - apply String.eqb_neq in Hne. rewrite Hne. reflexivity.
  - destruct (String.eqb k k0) eqn:E; simpl.
    + apply String.eqb_eq in E. subst k0.
      apply String.eqb_neq in Hne. rewrite Hne. reflexivity.
    + rewrite IH. reflexivity.
Qed.

Lemma map_get_None_keys {V : Type} (k : string) (m : list (string * V)) :
  map_get k m = None -> k ∉ map fst m.
Proof.
  induction m as [|[k' a] m IH]; simpl; intros H.
  - apply not_elem_of_nil.
  - destruct (String.eqb k k') eqn:E; [discriminate H|].
    apply String.eqb_neq in E. apply not_elem_of_cons. auto.
Qed.

Lemma map_set_keys {V : Type} (k : string) (x : V) (m : list (string * V)) :
  map fst (map_set k x m) = match map_get k m with
                            | Some _ => map fst m
                            | None => map fst m ++ [k]
                            end.
Proof.
  induction m as [|[k' a] m IH]; simpl; [reflexivity|].
  destruct (String.eqb k k') eqn:E; simpl.
  - apply String.eqb_eq in E. subst. reflexivity.
  - rewrite IH. destruct (map_get k m); reflexivity.
Qed.

Lemma map_set_Forall {V : Type} (P : string * V -> Prop) (k : string) (x : V)
    (m : list (string * V)) :
  Forall P m -> P (k, x) -> Forall P (map_set k x m).
Proof.
  intros Hm Hx. induction Hm as [|[k' a] m Ha Hm IH]; simpl.
  - apply Forall_singleton. exact Hx.
  - destruct (String.eqb k k'); apply Forall_cons; auto.
Qed.

Lemma readAll_values (h : list A) (act : list (string * nat)) :
  readAll h (map_values act) = map snd (readActive h act).
Proof.
  induction act as [|[k r] act IH]; [reflexivity|].
  unfold map_values in *. cbn [map snd]. rewrite readAll_cons, readActive_cons.
  destruct (h !! r); simpl; rewrite IH; reflexivity.
Qed.


End Store.


(** Maps whose entries are filed under a name the entry carries. *)
Section Keyed.
Context {A : Type} (name : A -> string).

Lemma filed_get (act : list (string * A)) (k : string) (e : A) :
  filed name act -> map_get k act = Some e -> name e = k.
Proof.
  intros [Hk _]. induction Hk as [|[k' a] m Ha Hm IH]; simpl; [intros H; discriminate H|].
  destruct (String.eqb k k') eqn:E; [|exact IH].
  intros H. injection H as ->. apply String.eqb_eq in E. subst. exact Ha.
Qed.

Lemma filed_set (act : list (string * A)) (x : A) :
  filed name act -> filed name (map_set (name x) x act).
Proof.
  intros [Hk Hnd]. split.
  - apply map_set_Forall; [exact Hk | reflexivity].
  - rewrite map_set_keys. destruct (map_get (name x) act) eqn:E; [exact Hnd|].
    apply NoDup_app. split; [exact Hnd|]. split; [|apply NoDup_singleton].
    intros y Hy Hy'. apply list_elem_of_singleton in Hy'. subst y.
    exact (map_get_None_keys _ _ E Hy).
Qed.

Lemma map_get_In (k : string) (e : A) (act : list (string * A)) :
  map_get k act = Some e -> k ∈ map fst act.
Proof.
  induction act as [|[k' a] act IH]; simpl; [intros H; discriminate H|].
  destruct (String.eqb k k') eqn:E; intros H.
  - apply String.eqb_eq in E. subst. apply elem_of_cons. auto.
  - apply elem_of_cons. auto.
Qed.

Lemma filed_filter (spk : string) (act : list (string * A)) :
  filed name act ->
  List.filter (fun s => String.eqb (name s) spk) (map snd act)
  = optList (map_get spk act).
Proof.
  intros [Hk Hnd]. induction act as [|[k s] act IH]; [reflexivity|].
  apply Forall_cons in Hk as [Hs Hk].
  cbn [map fst] in Hnd. apply NoDup_cons in Hnd as [Hnotin Hnd].
  cbn [map snd List.filter map_get]. cbn [fst snd] in Hs.
  specialize (IH Hk Hnd). rewrite Hs.
  rewrite (String.eqb_sym k spk). destruct (String.eqb spk k) eqn:E.
  - apply String.eqb_eq in E. rewrite IH.
    destruct (map_get spk act) as [e|] eqn:G; [|reflexivity].
    exfalso. apply Hnotin. rewrite <- E. exact (map_get_In _ _ _ G).
  - exact IH.
Qed.

End Keyed.

End StoreProps.

(* ===================================================================== *)
(** ** Properties of the segment manager *)
(* ===================================================================== *)

Module ScraperProps.
Import JS Store Types Scraper ScraperSpec StoreProps.

Lemma alter_as_insert {A} (f : A -> A) (r : nat) (h : list A) (e : A) :
  h !! r = Some e -> alter f r h = <[r := f e]> h.
Proof.
  revert r. induction h as [|a h IH]; intros [|r] H; try discriminate H.
  - injection H as ->. reflexivity.
  - simpl in *. f_equal. apply IH. exact H.
Qed.

Lemma map_delete_values {V : Type} (k : string) (x : V) (m : list (string * V)) :
  x ∈ map_values (map_delete k m) -> x ∈ map_values m.
Proof.
  unfold map_values. induction m as [|[k' a] m IH]; simpl; [auto|].
  destruct (String.eqb k k'); simpl; intros H.
  - apply elem_of_cons. auto.
  - apply elem_of_cons in H as [H | H]; apply elem_of_cons; auto.
Qed.

Lemma map_delete_keys {V : Type} (k k0 : string) (m : list (string * V)) :
  k0 ∈ map fst (map_delete k m) -> k0 ∈ map fst m /\ k0 <> k.
Proof.
  induction m as [|[k' a] m IH]; simpl; [intros H; inversion H|].
  destruct (String.eqb k k') eqn:E; simpl; intros H.
  - destruct (IH H). split; [apply elem_of_cons; auto | assumption].
  - apply elem_of_cons in H as [H | H].
    + subst k0. split; [apply elem_of_cons; auto|].
      apply String.eqb_neq in E. congruence.
    + destruct (IH H). split; [apply elem_of_cons; auto | assumption].
Qed.

Lemma map_delete_NoDup_keys {V : Type} (k : string) (m : list (string * V)) :
  NoDup (map fst m) -> NoDup (map fst (map_delete k m)).
Proof.
  induction m as [|[k' a] m IH]; simpl; [auto|].
  intros H. apply NoDup_cons in H as [Hnotin H].
  destruct (String.eqb k k'); simpl; [auto|].
  apply NoDup_cons. split; [|auto].
  intros Hin. apply map_delete_keys in Hin as [Hin _]. auto.
Qed.

Lemma map_delete_NoDup_values {V : Type} (k : string) (m : list (string * V)) :
  NoDup (map_values m) -> NoDup (map_values (map_delete k m)).
Proof.
  unfold map_values. induction m as [|[k' a] m IH]; simpl; [auto|].
  intros H. apply NoDup_cons in H as [Hnotin H].
  destruct (String.eqb k k'); simpl; [auto|].
  apply NoDup_cons. split; [|auto].
  intros Hin. apply (map_delete_values k a m) in Hin. auto.
Qed.

Lemma wf_create now : wf (create now).
Proof.
  unfold wf, wfRefs, create. simpl.
  repeat split; try apply Forall_nil; try apply NoDup_nil; auto.
Qed.

Lemma wf_addCaption spk txt now m : wf m -> wf (addCaption spk txt now m).
Proof.
  intros (Hrefs & Hkeys & Hfc). unfold addCaption.
  destruct (map_get spk (activeSegments m)) as [r|] eqn:E; unfold wf; simpl.
  - split; [|auto]. destruct Hrefs as (H1 & H2 & H3 & H4).
    repeat split; try assumption; rewrite length_alter; assumption.
  - split; [|split; [|assumption]].
    + pose proof (wfRefs_create (heap m) (segments m) [] (activeSegments m) spk
                    (mkSegment spk txt (now - startTime m) (now - startTime m)) Hrefs) as W.
      rewrite app_nil_r in W. apply W. intros r Hr. inversion Hr.
    + rewrite map_set_keys, E. apply NoDup_app. split; [assumption|].
      split; [|apply NoDup_singleton].
      intros y Hy Hy'. apply list_elem_of_singleton in Hy'. subst y.
      exact (map_get_None_keys _ _ E Hy).
Qed.

(** Pushing a copy: a fresh object at the end of [segments]. *)
Lemma pushCopy_spec r m e :
  heap m !! r = Some e ->
  pushCopy r m = mkSegmentManager (heap m ++ [e]) (segments m ++ [length (heap m)])
                   (activeSegments m) (segmentIndex m) (startTime m) (flushedCount m).
Proof. intros H. unfold pushCopy. rewrite H. reflexivity. Qed.

Lemma wfRefs_push (h : list Segment) (segs : list nat) (act : list (string * nat)) e :
  wfRefs h segs act -> wfRefs (h ++ [e]) (segs ++ [length h]) act.
Proof.
  intros (H1 & H2 & H3 & H4). repeat split.
  - apply Forall_app. split.
    + eapply Forall_impl; [exact H1|]. intros r Hr. cbn beta in *.
      rewrite length_app. simpl. lia.
    + apply Forall_singleton. rewrite length_app. simpl. lia.
  - eapply Forall_impl; [exact H2|]. intros r Hr. cbn beta in *.
    rewrite length_app. simpl. lia.
  - assumption.
  - rewrite Forall_forall in H2, H4. apply Forall_forall. intros r Hr Hin.
    apply elem_of_app in Hin as [Hin | Hin]; [exact (H4 _ Hr Hin)|].
    apply list_elem_of_singleton in Hin. specialize (H2 _ Hr). lia.
Qed.

Lemma wfRefs_delete (h : list Segment) (segs : list nat) (act : list (string * nat)) k :
  wfRefs h segs act -> wfRefs h segs (map_delete k act).
Proof.
  intros (H1 & H2 & H3 & H4). rewrite Forall_forall in H2, H4. repeat split.
  - assumption.
  - apply Forall_forall. intros r Hr. apply H2. exact (map_delete_values _ _ _ Hr).
  - apply map_delete_NoDup_values. assumption.
  - apply Forall_forall. intros r Hr. apply H4. exact (map_delete_values _ _ _ Hr).
Qed.

Lemma wf_pushCopy r m : wf m -> wf (pushCopy r m).
Proof.
  intros (Hrefs & Hkeys & Hfc). unfold pushCopy.
  destruct (heap m !! r) as [e|]; [|exact (conj Hrefs (conj Hkeys Hfc))].
  unfold wf. simpl. split; [apply wfRefs_push; assumption|].
  split; [assumption|]. rewrite length_app. simpl. lia.
Qed.

Lemma wf_finalizeSegment spk m : wf m -> wf (snd (finalizeSegment spk m)).
Proof.
  intros Hwf. unfold finalizeSegment.
  destruct (map_get spk (activeSegments m)) as [r|]; [|exact Hwf].
  cbn [snd]. destruct (wf_pushCopy r m Hwf) as (Hrefs & Hkeys & Hfc).
  unfold wf. simpl. split; [apply wfRefs_delete; assumption|].
  split; [apply map_delete_NoDup_keys; assumption | assumption].
Qed.

Lemma pushCopy_active r m : activeSegments (pushCopy r m) = activeSegments m.
Proof. unfold pushCopy. destruct (heap m !! r); reflexivity. Qed.

Lemma wf_pushAll rs m :
  wf m -> wf (fold_left (fun acc r => pushCopy r acc) rs m).
Proof.
  revert m. induction rs as [|r rs IH]; intros m Hwf; simpl; [exact Hwf|].
  apply IH. apply wf_pushCopy. exact Hwf.
Qed.

Lemma wf_markFlushed m : wf m -> wf (markFlushed m).
Proof.
  intros Hwf. unfold markFlushed.
  destruct (wf_pushAll (map_values (activeSegments m)) m Hwf) as ((H1 & _) & _ & _).
  unfold wf, wfRefs. simpl.
  repeat split; try apply Forall_nil; try apply NoDup_nil; auto.
Qed.

Lemma wf_apply o m : wf m -> wf (apply o m).
Proof.
  destruct o; simpl; intros Hwf.
  - apply wf_addCaption. exact Hwf.
  - apply wf_finalizeSegment. exact Hwf.
  - exact Hwf.
  - apply wf_markFlushed. exact Hwf.
Qed.

Lemma wf_applyAll os m : wf m -> wf (applyAll os m).
Proof.
  revert m. induction os as [|o os IH]; intros m Hwf; simpl; [exact Hwf|].
  apply IH. apply wf_apply. exact Hwf.
Qed.

(** [addCaption] on the store does what it does on values. *)
Lemma addCaption_view spk txt now m :
  wf m ->
  view (addCaption spk txt now m)
  = (fst (view m), addCaptionV spk txt (now - startTime m) (snd (view m))).
Proof.
  intros ((Hsegs & Hact & Hnd & Hsep) & Hkeys & Hfc).
  unfold view, addCaption, addCaptionV. cbn [fst snd].
  rewrite map_get_readActive by assumption.
  destruct (map_get spk (activeSegments m)) as [r|] eqn:E; cbn [heap segments activeSegments].
  - pose proof (map_get_elem _ _ _ E) as Hin.
    assert (r < length (heap m)) as Hr by (rewrite Forall_forall in Hact; auto).
    destruct (lookup_lt_is_Some_2 _ _ Hr) as [e He]. rewrite He.
    rewrite (alter_as_insert _ _ _ _ He).
    rewrite readAll_insert by (rewrite Forall_forall in Hsep; auto).
    rewrite (readActive_merge _ spk) by assumption. reflexivity.
  - rewrite readAll_grow by assumption.
    rewrite readActive_create by assumption. reflexivity.
Qed.

Lemma addCaptionV_filed spk txt t act :
  filed speaker act -> filed speaker (addCaptionV spk txt t act).
Proof.
  intros Hf. unfold addCaptionV. destruct (map_get spk act) as [e|] eqn:E.
  - pose proof (filed_get speaker _ _ _ Hf E) as He.
    replace spk with (speaker (mkSegment (speaker e) txt (start e) t)) at 1 by exact He.
    apply filed_set. exact Hf.
  - apply (filed_set speaker act (mkSegment spk txt t t)). exact Hf.
Qed.

(** The captions of one speaker keep one active segment: the text and end of
    the last call, the start of the first. *)
Lemma addAll_from spk cs : forall m,
  wf m -> filed speaker (snd (view m)) ->
  let mine := List.filter (saidBy spk) cs in
  let m' := addAll cs m in
  wf m' /\ filed speaker (snd (view m'))
  /\ fst (view m') = fst (view m)
  /\ startTime m' = startTime m
  /\ match last mine with
     | None => map_get spk (snd (view m')) = map_get spk (snd (view m))
     | Some lst =>
         map_get spk (snd (view m'))
         = Some (mkSegment spk (capText lst)
                   (match map_get spk (snd (view m)), head mine with
                    | Some e, _ => start e
                    | None, Some f => capNow f - startTime m
                    | None, None => 0
                    end)
                   (capNow lst - startTime m))
     end%Z.
Proof.
  induction cs as [|c cs IH]; intros m Hwf Hf; cbn zeta.
  { split; [exact Hwf|]. split; [exact Hf|]. repeat split; reflexivity. }
  cbn [addAll fold_left List.filter].
  fold (addAll cs (addCaption (capSpeaker c) (capText c) (capNow c) m)).
  pose proof (wf_addCaption (capSpeaker c) (capText c) (capNow c) m Hwf) as Hwf1.
  pose proof (addCaption_view (capSpeaker c) (capText c) (capNow c) m Hwf) as Hview.
  pose proof (addCaptionV_filed (capSpeaker c) (capText c)
                (capNow c - startTime m)%Z _ Hf) as Hf1.
  specialize (IH _ Hwf1). cbn zeta in IH. rewrite Hview in IH. cbn [fst snd] in IH.
  destruct (IH Hf1) as (W & F & Fin & St & L). clear IH.
  assert (startTime (addCaption (capSpeaker c) (capText c) (capNow c) m) = startTime m)
    as Hst by (unfold addCaption;
               destruct (map_get (capSpeaker c) (activeSegments m)); reflexivity).
  rewrite Hst in St, L.
  split; [exact W|]. split; [exact F|]. split; [exact Fin|]. split; [exact St|].
  destruct (saidBy spk c) eqn:E; unfold saidBy in E.
  - apply String.eqb_eq in E. subst spk. rewrite last_cons. cbn [head].
    unfold addCaptionV in L.
    destruct (last (List.filter (saidBy (capSpeaker c)) cs)) as [lst|].
    + destruct (map_get (capSpeaker c) (snd (view m))) as [e|] eqn:G;
        rewrite map_get_set_eq in L; rewrite L; reflexivity.
    + destruct (map_get (capSpeaker c) (snd (view m))) as [e|] eqn:G;
        rewrite map_get_set_eq in L; rewrite L; [|reflexivity].
      rewrite (filed_get speaker _ _ _ Hf G). reflexivity.
  - apply String.eqb_neq in E.
    assert (map_get spk (addCaptionV (capSpeaker c) (capText c)
                           (capNow c - startTime m)%Z (snd (view m)))
            = map_get spk (snd (view m))) as Hsame.
    { unfold addCaptionV. destruct (map_get (capSpeaker c) (snd (view m)));
        apply map_get_set_ne; congruence. }
    rewrite Hsame in L. exact L.
Qed.

(** Pushing copies of allocated objects, one after the other. *)
Lemma pushAll_spec rs : forall m,
  let m' := fold_left (fun acc r => pushCopy r acc) rs m in
  (exists new, segments m' = segments m ++ new
     /\ Forall (fun c => length (heap m) <= c) new)
  /\ length (heap m) <= length (heap m')
  /\ (forall r, r < length (heap m) -> heap m' !! r = heap m !! r)
  /\ (Forall (fun r => r < length (heap m)) rs ->
      readAll (heap m') (segments m')
      = readAll (heap m') (segments m) ++ readAll (heap m) rs).
Proof.
  induction rs as [|r rs IH]; intros m; cbn zeta; cbn [fold_left].
  { split; [exists []; rewrite app_nil_r; split; [reflexivity | apply Forall_nil_2]|].
    split; [lia|]. split; [reflexivity|]. intros _. rewrite app_nil_r. reflexivity. }
  specialize (IH (pushCopy r m)). cbn zeta in IH.
  destruct IH as ((new & Hsegs & Hnew) & Hlen & Hlook & Hread).
  destruct (heap m !! r) as [e|] eqn:He.
  - assert (heap (pushCopy r m) = heap m ++ [e]) as Hh
      by (rewrite (pushCopy_spec r m e He); reflexivity).
    assert (segments (pushCopy r m) = segments m ++ [length (heap m)]) as Hs
      by (rewrite (pushCopy_spec r m e He); reflexivity).
    remember (fold_left (fun acc r => pushCopy r acc) rs (pushCopy r m)) as m'.
    rewrite Hh, Hs in *. clear Heqm'.
    rewrite length_app in Hlen, Hnew, Hlook. cbn [length] in *.
    split.
    { exists (length (heap m) :: new). rewrite Hsegs, <- app_assoc. split; [reflexivity|].
      apply Forall_cons. split; [lia|]. eapply Forall_impl; [exact Hnew|].
      intros c Hc. cbn beta in *. lia. }
    split; [lia|]. split.
    { intros r0 Hr0. rewrite Hlook by lia. apply lookup_app_l. exact Hr0. }
    intros Hall. apply Forall_cons in Hall as [Hr Hall].
    rewrite Hread.
    2:{ eapply Forall_impl; [exact Hall|]. intros c Hc. cbn beta in *.
        rewrite length_app. simpl. lia. }
    rewrite readAll_app, <- app_assoc. f_equal.
    rewrite (readAll_cons (heap m) r), He.
    rewrite (readAll_cons (heap m')), Hlook by lia.
    rewrite lookup_app_r by lia. rewrite Nat.sub_diag. cbn [lookup list_lookup].
    rewrite readAll_grow by exact Hall. reflexivity.
  - assert (pushCopy r m = m) as Hsame by (unfold pushCopy; rewrite He; reflexivity).
    rewrite Hsame in *.
    split; [exists new; split; assumption|]. split; [assumption|].
    split; [assumption|]. intros Hall. apply Forall_cons in Hall as [Hr Hall].
    apply lookup_ge_None in He. lia.
Qed.

Lemma pushAll_fields rs : forall m,
  let m' := fold_left (fun acc r => pushCopy r acc) rs m in
  activeSegments m' = activeSegments m /\ flushedCount m' = flushedCount m
  /\ startTime m' = startTime m.
Proof.
  induction rs as [|r rs IH]; intros m; cbn zeta; cbn [fold_left]; [auto|].
  destruct (IH (pushCopy r m)) as (H1 & H2 & H3). rewrite H1, H2, H3.
  unfold pushCopy. destruct (heap m !! r); auto.
Qed.

(** [markFlushed] by value: the active segments join the finalized ones. *)
Lemma markFlushed_view m :
  wf m ->
  view (markFlushed m) = (fst (view m) ++ map snd (snd (view m)), []).
Proof.
  intros ((Hsegs & Hact & _) & _). unfold view, markFlushed. cbn [heap segments activeSegments fst snd].
  destruct (pushAll_spec (map_values (activeSegments m)) m) as (_ & _ & Hlook & Hread).
  cbn zeta in Hlook, Hread. rewrite (Hread Hact). f_equal.
  rewrite <- readAll_values. f_equal.
  clear Hread Hact. induction Hsegs as [|r rs Hr _ IH]; [reflexivity|].
  rewrite !readAll_cons, IH, Hlook by exact Hr. reflexivity.
Qed.

Lemma allValues_view m : allValues m = fst (view m) ++ map snd (snd (view m)).
Proof.
  unfold allValues, getAllSegments, view. cbn [fst snd].
  rewrite readAll_app, readAll_values. reflexivity.
Qed.

(** The captions of a speaker make one segment of the manager. *)
Lemma manager_one_segment created cs spk first lst :
  let mine := List.filter (saidBy spk) cs in
  let m := addAll cs (create created) in
  head mine = Some first -> last mine = Some lst ->
  let seg := mkSegment spk (capText lst) (capNow first - created) (capNow lst - created) in
  List.filter (ofSpeaker spk) (allValues m) = [seg]
  /\ List.filter (ofSpeaker spk) (fst (view (markFlushed m))) = [seg].
Proof.
  cbn zeta. intros Hhead Hlast.
  destruct (addAll_from spk cs (create created) (wf_create created))
    as (W & F & Fin & St & L).
  { split; [apply Forall_nil_2 | apply NoDup_nil_2]. }
  rewrite Hlast, Hhead in L.
  change (snd (view (create created))) with (@nil (string * Segment)) in L.
  cbn [map_get startTime create] in L.
  assert (List.filter (ofSpeaker spk) (allValues (addAll cs (create created)))
          = [mkSegment spk (capText lst) (capNow first - created) (capNow lst - created)])
    as Hall.
  { rewrite allValues_view, Fin.
    change (fst (view (create created))) with (@nil Segment). cbn [app].
    unfold ofSpeaker. rewrite (filed_filter speaker) by exact F. rewrite L. reflexivity. }
  split; [exact Hall|].
  rewrite markFlushed_view by exact W. cbn [fst].
  rewrite <- allValues_view. exact Hall.
Qed.

(** *** Flushing *)

Lemma pushCopy_lookup a m r :
  r < length (heap m) ->
  heap (pushCopy a m) !! r = heap m !! r
  /\ length (heap m) <= length (heap (pushCopy a m)).
Proof.
  intros Hr. unfold pushCopy. destruct (heap m !! a); cbn [heap].
  - rewrite lookup_app_l by exact Hr. rewrite length_app. split; [reflexivity | lia].
  - split; [reflexivity | lia].
Qed.

(** An object that is not active is never written again. *)
Lemma frozen_apply o m r :
  wf m -> frozenIn m r ->
  heap (apply o m) !! r = heap m !! r /\ frozenIn (apply o m) r.
Proof.
  intros ((Hsegs & Hact & Hnd & Hsep) & Hkeys & Hfc) [Hr Hnot].
  unfold frozenIn. destruct o as [spk txt now | spk | | ]; cbn [apply].
  - unfold addCaption. destruct (map_get spk (activeSegments m)) as [a|] eqn:E;
      cbn [heap activeSegments].
    + assert (a <> r) as Hne by (intros ->; apply Hnot; exact (map_get_elem _ _ _ E)).
      rewrite list_lookup_alter_ne by exact Hne. rewrite length_alter. auto.
    + rewrite lookup_app_l by exact Hr. rewrite length_app.
      split; [reflexivity|]. split; [lia|].
      intros Hin. destruct (map_set_values _ _ _ _ Hnd Hin) as [-> | [Hin' _]]; [lia | auto].
  - unfold finalizeSegment. destruct (map_get spk (activeSegments m)) as [a|] eqn:E;
      cbn [snd heap activeSegments]; [|auto].
    destruct (pushCopy_lookup a m r Hr) as [Hl Hlen].
    split; [exact Hl|]. split; [lia|]. rewrite pushCopy_active.
    intros Hin. apply Hnot. exact (map_delete_values _ _ _ Hin).
  - auto.
  - unfold markFlushed. cbn [heap activeSegments].
    destruct (pushAll_spec (map_values (activeSegments m)) m) as (_ & Hlen & Hlook & _).
    cbn zeta in Hlen, Hlook. split; [apply Hlook; exact Hr|].
    split; [lia | apply not_elem_of_nil].
Qed.

Lemma frozen_applyAll os : forall m r,
  wf m -> frozenIn m r -> heap (applyAll os m) !! r = heap m !! r.
Proof.
  induction os as [|o os IH]; intros m r Hwf Hfr; [reflexivity|].
  cbn [applyAll fold_left]. fold (applyAll os (apply o m)).
  destruct (frozen_apply o m r Hwf Hfr) as [Hl Hfr1].
  rewrite (IH _ _ (wf_apply o m Hwf) Hfr1). exact Hl.
Qed.

Lemma map_delete_absent {V : Type} (k : string) (m : list (string * V)) :
  k ∉ map fst m -> map_delete k m = m.
Proof.
  induction m as [|[k' a] m IH]; simpl; [reflexivity|].
  intros H. apply not_elem_of_cons in H as [Hne H].
  apply String.eqb_neq in Hne. rewrite Hne. rewrite IH by exact H. reflexivity.
Qed.

(** With each key once, [delete] takes out the entry [get] finds, only. *)
Lemma map_delete_missing {V : Type} (k : string) (a x : V) (m : list (string * V)) :
  NoDup (map fst m) -> map_get k m = Some a ->
  x ∈ map_values m -> x ∉ map_values (map_delete k m) -> x = a.
Proof.
  unfold map_values. induction m as [|[k' b] m IH]; simpl; [intros _ H; discriminate H|].
  intros Hnd Hget Hin Hnot. apply NoDup_cons in Hnd as [Hk Hnd].
  destruct (String.eqb k k') eqn:E.
  - injection Hget as ->. apply String.eqb_eq in E. subst k'.
    rewrite map_delete_absent in Hnot by exact Hk.
    apply elem_of_cons in Hin as [Hin | Hin]; [exact Hin | contradiction].
  - simpl in Hnot. apply not_elem_of_cons in Hnot as [Hne Hnot].
    apply elem_of_cons in Hin as [Hin | Hin]; [contradiction|]. auto.
Qed.

Lemma map_delete_length {V : Type} (k : string) (m : list (string * V)) :
  NoDup (map fst m) -> length m <= S (length (map_delete k m)).
Proof.
  induction m as [|[k' b] m IH]; simpl; [lia|].
  intros Hnd. apply NoDup_cons in Hnd as [Hk Hnd].
  destruct (String.eqb k k') eqn:E; simpl.
  - apply String.eqb_eq in E. subst k'. rewrite map_delete_absent by exact Hk. lia.
  - specialize (IH Hnd). lia.
Qed.

Lemma map_set_length {V : Type} (k : string) (x : V) (m : list (string * V)) :
  length m <= length (map_set k x m).
Proof.
  induction m as [|[k' b] m IH]; simpl; [lia|].
  destruct (String.eqb k k'); simpl; lia.
Qed.

Lemma map_set_keeps {V : Type} (k : string) (x y : V) (m : list (string * V)) :
  map_get k m = None -> y ∈ map_values m -> y ∈ map_values (map_set k x m).
Proof.
  unfold map_values. induction m as [|[k' b] m IH]; simpl; [intros _ H; inversion H|].
  destruct (String.eqb k k'); [intros H; discriminate H|].
  intros Hget Hin. simpl. apply elem_of_cons in Hin as [Hin | Hin];
    apply elem_of_cons; auto.
Qed.

(** One call that is not [markFlushed]: a reference the flush snapshot held
    is still in it, or its object was finalized and the copy is in it. *)
Lemma live_apply o m r :
  wf m -> isMarkFlushed o = false -> r ∈ getSegmentsForFlush m ->
  r ∈ getSegmentsForFlush (apply o m)
  \/ exists c, c ∈ getSegmentsForFlush (apply o m)
       /\ frozenIn (apply o m) c /\ frozenIn (apply o m) r
       /\ heap (apply o m) !! c = heap (apply o m) !! r.
Proof.
  intros Hwf Hop Hin. pose proof Hwf as ((Hsegs & Hact & Hnd & Hsep) & Hkeys & Hfc).
  unfold getSegmentsForFlush in *.
  destruct o as [spk txt now | spk | | ]; cbn [apply]; [| | auto | discriminate Hop].
  - left. unfold addCaption.
    destruct (map_get spk (activeSegments m)) as [a|] eqn:E;
      cbn [segments activeSegments flushedCount]; [exact Hin|].
    apply elem_of_app in Hin as [Hin | Hin]; apply elem_of_app; [auto|].
    right. apply map_set_keeps; assumption.
  - unfold finalizeSegment.
    destruct (map_get spk (activeSegments m)) as [a|] eqn:E; cbn [snd]; [|auto].
    pose proof (map_get_elem _ _ _ E) as Ha.
    assert (a < length (heap m)) as Hlt by (rewrite Forall_forall in Hact; auto).
    destruct (lookup_lt_is_Some_2 _ _ Hlt) as [e He].
    rewrite (pushCopy_spec a m e He). cbn [heap segments activeSegments flushedCount].
    rewrite drop_app. replace (flushedCount m - length (segments m)) with 0 by lia.
    cbn [drop]. apply elem_of_app in Hin as [Hin | Hin].
    { left. rewrite <- app_assoc. apply elem_of_app. auto. }
    destruct (decide (r ∈ map_values (map_delete spk (activeSegments m)))) as [Hstill | Hgone].
    { left. apply elem_of_app. auto. }
    right. exists (length (heap m)).
    assert (r = a) as -> by exact (map_delete_missing _ _ _ _ Hkeys E Hin Hgone).
    assert (length (heap m) ∉ map_values (map_delete spk (activeSegments m))) as Hfresh.
    { intros Hc. apply map_delete_values in Hc. rewrite Forall_forall in Hact.
      specialize (Hact _ Hc). lia. }
    unfold frozenIn. cbn [heap activeSegments]. rewrite length_app. cbn [length].
    split; [rewrite <- app_assoc; apply elem_of_app; right; apply elem_of_app; left;
            apply list_elem_of_singleton; reflexivity|].
    split; [split; [lia | exact Hfresh]|].
    split; [split; [lia | exact Hgone]|].
    rewrite lookup_app_r by lia. rewrite Nat.sub_diag.
    rewrite lookup_app_l by exact Hlt. rewrite He. reflexivity.
Qed.

Lemma live_allocated m r : wf m -> r ∈ getSegmentsForFlush m -> r < length (heap m).
Proof.
  intros ((Hsegs & Hact & _) & _) Hin. unfold getSegmentsForFlush in Hin.
  rewrite Forall_forall in Hsegs, Hact.
  apply elem_of_app in Hin as [Hin | Hin]; [|auto].
  apply Hsegs. apply list_elem_of_lookup in Hin as [i Hi].
  rewrite lookup_drop in Hi. apply list_elem_of_lookup. eauto.
Qed.

Lemma heap_grows_applyAll os : forall m,
  wf m -> length (heap m) <= length (heap (applyAll os m)).
Proof.
  induction os as [|o os IH]; intros m Hwf; [cbn; lia|].
  cbn [applyAll fold_left]. fold (applyAll os (apply o m)).
  specialize (IH _ (wf_apply o m Hwf)).
  enough (length (heap m) <= length (heap (apply o m))) by lia.
  destruct o as [spk txt now | spk | | ]; cbn [apply].
  - unfold addCaption. destruct (map_get spk (activeSegments m)); cbn [heap].
    + rewrite length_alter. lia.
    + rewrite length_app. lia.
  - unfold finalizeSegment. destruct (map_get spk (activeSegments m)) as [a|]; cbn [snd heap]; [|lia].
    unfold pushCopy. destruct (heap m !! a); cbn [heap]; [rewrite length_app|]; lia.
  - lia.
  - unfold markFlushed. cbn [heap].
    destruct (pushAll_spec (map_values (activeSegments m)) m) as (_ & Hlen & _). exact Hlen.
Qed.

(** Any number of calls without [markFlushed]: every reference a flush
    snapshot held still denotes an object, and a later snapshot holds a
    reference to an equal object (the same one, or its finalized copy). *)
Lemma live_applyAll os : forall m r,
  wf m -> noMarkFlushed os = true -> r ∈ getSegmentsForFlush m ->
  exists r', r' ∈ getSegmentsForFlush (applyAll os m)
    /\ heap (applyAll os m) !! r' = heap (applyAll os m) !! r.
Proof.
  induction os as [|o os IH]; intros m r Hwf Hno Hin.
  { exists r. split; [exact Hin | reflexivity]. }
  cbn [noMarkFlushed forallb] in Hno. apply andb_true_iff in Hno as [Ho Hno].
  apply negb_true_iff in Ho.
  cbn [applyAll fold_left]. fold (applyAll os (apply o m)).
  pose proof (wf_apply o m Hwf) as Hwf1.
  destruct (live_apply o m r Hwf Ho Hin) as [Hin1 | (c & Hc & Hfc & Hfr & Heq)].
  - exact (IH _ _ Hwf1 Hno Hin1).
  - destruct (IH _ _ Hwf1 Hno Hc) as (r' & Hr' & Heq').
    exists r'. split; [exact Hr'|].
    rewrite Heq'. rewrite (frozen_applyAll os _ c Hwf1 Hfc).
    rewrite (frozen_applyAll os _ r Hwf1 Hfr). exact Heq.
Qed.

Lemma live_length_apply o m :
  wf m -> isMarkFlushed o = false ->
  length (getSegmentsForFlush m) <= length (getSegmentsForFlush (apply o m)).
Proof.
  intros ((Hsegs & Hact & Hnd & Hsep) & Hkeys & Hfc) Hop.
  unfold getSegmentsForFlush, map_values.
  destruct o as [spk txt now | spk | | ]; cbn [apply]; [| | lia | discriminate Hop].
  - unfold addCaption. destruct (map_get spk (activeSegments m));
      cbn [segments activeSegments flushedCount]; [lia|].
    rewrite !length_app, !length_map.
    pose proof (map_set_length spk (length (heap m)) (activeSegments m)). lia.
  - unfold finalizeSegment. destruct (map_get spk (activeSegments m)) as [a|] eqn:E;
      cbn [snd]; [|lia].
    pose proof (map_get_elem _ _ _ E) as Ha.
    assert (a < length (heap m)) as Hlt by (rewrite Forall_forall in Hact; auto).
    destruct (lookup_lt_is_Some_2 _ _ Hlt) as [e He].
    rewrite (pushCopy_spec a m e He). cbn [segments activeSegments flushedCount].
    rewrite !length_app, !length_map, !length_drop, length_app. cbn [length].
    pose proof (map_delete_length spk (activeSegments m) Hkeys). lia.
Qed.

Lemma live_length_applyAll os : forall m,
  wf m -> noMarkFlushed os = true ->
  length (getSegmentsForFlush m) <= length (getSegmentsForFlush (applyAll os m)).
Proof.
  induction os as [|o os IH]; intros m Hwf Hno; [cbn; lia|].
  cbn [noMarkFlushed forallb] in Hno. apply andb_true_iff in Hno as [Ho Hno].
  apply negb_true_iff in Ho.
  cbn [applyAll fold_left]. fold (applyAll os (apply o m)).
  specialize (IH _ (wf_apply o m Hwf) Hno).
  pose proof (live_length_apply o m Hwf Ho). lia.
Qed.

Lemma afterFlush_markFlushed m :
  afterFlush (length (heap (markFlushed m))) (length (segments (markFlushed m)))
             (markFlushed m).
Proof.
  unfold afterFlush, markFlushed. cbn [heap segments activeSegments flushedCount].
  rewrite drop_all. repeat split; try lia; apply Forall_nil_2.
Qed.

Lemma afterFlush_apply o m H n :
  wf m -> afterFlush H n m -> afterFlush H n (apply o m).
Proof.
  intros ((Hsegs & Hact & Hnd & Hsep) & Hkeys & Hfc) (HH & Hn & Hdrop & Hlive).
  unfold afterFlush. destruct o as [spk txt now | spk | | ]; cbn [apply].
  - unfold addCaption. destruct (map_get spk (activeSegments m)) as [a|] eqn:E;
      cbn [heap segments activeSegments flushedCount].
    + rewrite length_alter. auto.
    + rewrite length_app. split; [lia|]. split; [lia|]. split; [exact Hdrop|].
      apply Forall_forall. intros r Hr.
      destruct (map_set_values _ _ _ _ Hnd Hr) as [-> | [Hin _]]; [lia|].
      rewrite Forall_forall in Hlive. auto.
  - unfold finalizeSegment. destruct (map_get spk (activeSegments m)) as [a|] eqn:E;
      cbn [snd]; [|auto].
    pose proof (map_get_elem _ _ _ E) as Ha.
    assert (a < length (heap m)) as Hlt by (rewrite Forall_forall in Hact; auto).
    destruct (lookup_lt_is_Some_2 _ _ Hlt) as [e He].
    rewrite (pushCopy_spec a m e He). cbn [heap segments activeSegments flushedCount].
    rewrite length_app. split; [lia|]. split; [lia|]. split.
    + rewrite drop_app. apply Forall_app. split; [exact Hdrop|].
      apply Forall_forall. intros r Hr.
      apply list_elem_of_lookup in Hr as [i Hi]. rewrite lookup_drop in Hi.
      apply list_lookup_singleton_Some in Hi as [_ <-]. lia.
    + apply Forall_forall. intros r Hr. rewrite Forall_forall in Hlive.
      apply Hlive. exact (map_delete_values _ _ _ Hr).
  - auto.
  - unfold markFlushed. cbn [heap segments activeSegments flushedCount].
    destruct (pushAll_spec (map_values (activeSegments m)) m)
      as ((new & Hs & Hnew) & Hlen & _).
    cbn zeta in Hs, Hlen. rewrite Hs.
    split; [lia|]. split; [rewrite length_app; lia|]. split; [|apply Forall_nil_2].
    rewrite drop_app. apply Forall_app. split; [exact Hdrop|].
    apply Forall_forall. intros r Hr.
    apply list_elem_of_lookup in Hr as [i Hi]. rewrite lookup_drop in Hi.
    rewrite Forall_forall in Hnew.
    assert (r ∈ new) as Hin by (apply list_elem_of_lookup; eauto).
    specialize (Hnew _ Hin). cbn beta in Hnew. lia.
Qed.

Lemma afterFlush_applyAll os : forall m H n,
  wf m -> afterFlush H n m -> afterFlush H n (applyAll os m).
Proof.
  induction os as [|o os IH]; intros m H n Hwf Haf; [exact Haf|].
  cbn [applyAll fold_left]. fold (applyAll os (apply o m)).
  apply IH; [apply wf_apply; exact Hwf | apply afterFlush_apply; assumption].
Qed.

Lemma afterFlush_live H n m r :
  afterFlush H n m -> r ∈ getSegmentsForFlush m -> H <= r.
Proof.
  intros (_ & Hn & Hdrop & Hlive) Hin. unfold getSegmentsForFlush in Hin.
  rewrite Forall_forall in Hdrop, Hlive.
  apply elem_of_app in Hin as [Hin | Hin]; [|auto].
  apply Hdrop. apply list_elem_of_lookup in Hin as [i Hi].
  rewrite lookup_drop in Hi. apply list_elem_of_lookup.
  exists (flushedCount m - n + i). rewrite lookup_drop.
  replace (n + (flushedCount m - n + i)) with (flushedCount m + i) by lia. exact Hi.
Qed.

Lemma noMarkFlushed_calls cs : noMarkFlushed (map toOp cs) = true.
Proof.
  unfold noMarkFlushed. induction cs as [|c cs IH]; [reflexivity|].
  cbn [map forallb]. rewrite IH. destruct c; reflexivity.
Qed.

(** C6.  Flushing is non-destructive.  For every state [m] a manager can
    reach: after any calls other than [markFlushed], the array an earlier
    [getSegmentsForFlush] returned, read when the later call returns (its
    objects are shared with the manager and may have grown), is contained in
    the array the later call returns, which is at least as long; a segment
    that was finalized in between is there as its copy.  Right after
    [markFlushed] the snapshot is empty, and whatever is called later, no
    segment that was flushed is returned again. *)
Theorem flush_is_non_destructive created history :
  let m := applyAll history (create created) in
  (forall calls,
     let m' := applyAll (map toOp calls) m in
     readAll (heap m') (getSegmentsForFlush m)
       ⊆ readAll (heap m') (getSegmentsForFlush m')
     /\ length (getSegmentsForFlush m) <= length (getSegmentsForFlush m'))
  /\ getSegmentsForFlush (markFlushed m) = []
  /\ (forall later,
        Forall (fun r => r ∉ getSegmentsForFlush (applyAll later (markFlushed m)))
               (segments (markFlushed m))).
Proof.
  cbn zeta. pose proof (wf_applyAll history _ (wf_create created)) as Hwf.
  set (m := applyAll history (create created)) in *.
  split; [|split].
  - intros calls. pose proof (noMarkFlushed_calls calls) as Hno.
    split; [|apply live_length_applyAll; assumption].
    intros s Hs. unfold readAll in Hs |- *.
    apply list_elem_of_omap in Hs as (r & Hr & Hlook).
    destruct (live_applyAll _ m r Hwf Hno Hr) as (r' & Hr' & Heq).
    apply list_elem_of_omap. exists r'. split; [exact Hr'|]. rewrite Heq. exact Hlook.
  - unfold getSegmentsForFlush, markFlushed. cbn [segments activeSegments flushedCount].
    rewrite drop_all. reflexivity.
  - intros later. apply Forall_forall. intros r Hr Hin.
    pose proof (wf_markFlushed m Hwf) as Hwf1.
    pose proof (afterFlush_applyAll later _ _ _ Hwf1 (afterFlush_markFlushed m)) as Haf.
    pose proof (afterFlush_live _ _ _ _ Haf Hin) as Hge.
    destruct Hwf1 as ((Hsegs & _) & _). rewrite Forall_forall in Hsegs.
    specialize (Hsegs _ Hr). lia.
Qed.

End ScraperProps.

(* ===================================================================== *)
(** ** Properties of the automation agent *)
(* ===================================================================== *)

Module AgentProps.
Import JS Store Agent AgentSpec StoreProps.

Arguments substring0 : simpl never.

Lemma string_eqb_refl (s : string) : String.eqb s s = true.
Proof. apply String.eqb_refl. Qed.

Lemma trimStart_blank (s : string) :
  allChars isWhiteSpace s = true -> trimStart s = "".
Proof.
  induction s as [|c s IH]; simpl; [reflexivity|].
  intros H. apply andb_true_iff in H as [Hc Hs]. rewrite Hc. auto.
Qed.

Lemma trim_blank (s : string) : allChars isWhiteSpace s = true -> trim s = "".
Proof. intros H. unfold trim. rewrite trimStart_blank by assumption. reflexivity. Qed.

(** A rejected fragment changes nothing but, in the second script, the
    closure variable [lastSpeaker]. *)
Lemma processCaption_rejected v n now p :
  rejected v (speakerOf v n p) (getText n) (lastCaption (botState p)) = true ->
  captured (processCaption v n now p) = captured p.
Proof.
  unfold processCaption, speakerOf. destruct (getSpeaker v n (lastSpeaker p)) as [spk last].
  simpl. intros ->. reflexivity.
Qed.

(** [mergeOrCreate] touches the segment references and the store only. *)
Lemma mergeOrCreate_fields v seg b h :
  let b' := fst (mergeOrCreate v seg b h) in
  lastCaption b' = lastCaption b /\ segmentCount b' = segmentCount b
  /\ startTime b' = startTime b /\ captionObserver b' = captionObserver b
  /\ flushTimer b' = flushTimer b /\ isActive b' = isActive b
  /\ isInMeeting b' = isInMeeting b.
Proof.
  unfold mergeOrCreate.
  destruct (map_get (speaker seg) (activeSegments b)) as [r|]; simpl;
    [destruct (deref h r) as [e|]; simpl;
     [destruct (startsWith (text seg) (substring0 20 (text e))); simpl|]|];
    repeat split; reflexivity.
Qed.

Lemma accepted_lastCaption v n now p :
  accepted v n p = true ->
  lastCaption (botState (processCaption v n now p)) = getText n.
Proof.
  unfold accepted, processCaption, speakerOf.
  destruct (getSpeaker v n (lastSpeaker p)) as [spk last]. simpl.
  intros H. apply andb_true_iff in H as [H1 H2].
  apply negb_true_iff in H1, H2. rewrite H1, H2.
  match goal with
  | |- context [mergeOrCreate ?a ?s ?b ?h] =>
      pose proof (mergeOrCreate_fields a s b h) as F;
      destruct (mergeOrCreate a s b h) as [b2 h2]
  end.
  simpl in *. destruct F as [F _]. rewrite F. reflexivity.
Qed.

(** C8.  Duplicate suppression is keyed on the last accepted text alone: once
    a fragment is accepted, a following fragment with the same text is a
    no-op for the aggregation state and sends no message, whatever speaker
    its node names. *)
Theorem duplicate_text_is_noop v n1 t1 n2 t2 p :
  accepted v n1 p = true ->
  getText n2 = getText n1 ->
  captured (processCaption v n2 t2 (processCaption v n1 t1 p))
  = captured (processCaption v n1 t1 p).
Proof.
  intros Hacc Htxt. apply processCaption_rejected.
  unfold rejected. rewrite (accepted_lastCaption _ _ _ _ Hacc), Htxt.
  rewrite string_eqb_refl. rewrite orb_true_r. reflexivity.
Qed.

Lemma duplicate_text_is_noop_witness :
  let p := recording V2 0 in
  let n1 := fragment "Alice" "Good morning all" in
  let n2 := fragment "Bob" "Good morning all" in
  speakerOf V2 n1 p <> speakerOf V2 n2 (processCaption V2 n1 1000 p)
  /\ captured (processCaption V2 n2 2000 (processCaption V2 n1 1000 p))
     = captured (processCaption V2 n1 1000 p).
Proof.
  split; [vm_compute; congruence|].
  apply duplicate_text_is_noop; reflexivity.
Defined.

(** The filters of [processCaption] where they fire.  A fragment whose text
    is empty or blank, or equals the speaker name up to case, or whose
    speaker reads "Unknown Speaker" while the text is shorter than the
    minimum length, is dropped: [botState] (segments, active segments,
    lastCaption, segmentCount), the segment objects and the messages sent
    stay as they are.  Only the first script ever reads "Unknown Speaker"
    as a speaker. *)
Theorem filters_reject v n now p :
  allChars isWhiteSpace (textContent n) = true
  \/ toLowerCase (getText n) = toLowerCase (speakerOf v n p)
  \/ (speakerOf v n p = "Unknown Speaker"
      /\ String.length (getText n) < minUnknownLength v) ->
  captured (processCaption v n now p) = captured p.
Proof.
  intros H. apply processCaption_rejected. unfold rejected.
  destruct H as [H | [H | [H1 H2]]].
  - unfold getText. rewrite (trim_blank _ H). reflexivity.
  - rewrite H, string_eqb_refl. rewrite !orb_true_r. reflexivity.
  - rewrite H1. simpl String.eqb at 4.
    apply Nat.ltb_lt in H2. rewrite H2. rewrite !orb_true_r. reflexivity.
Qed.

Lemma filters_reject_witness :
  let p := recording V1 0 in
  let n := mkNode "  hello there  " [] in
  (speakerOf V1 n p = "Unknown Speaker"
   /\ String.length (getText n) < minUnknownLength V1)
  /\ captured (processCaption V1 n 1000 p) = captured p.
Proof.
  split.
  - split; [reflexivity | vm_compute; lia].
  - apply filters_reject. right. right.
    split; [reflexivity | vm_compute; lia].
Defined.

(** C7.  Alice says "Hi there", then "Hi there, everyone", Bob says "Good
    morning", and the session ends: the one [completed] message carries
    Alice's segment with the longer text, then Bob's, and nothing else. *)
Theorem scenario_alice_bob v started t1 t2 t3 tEnd reason found :
  let p := observerCallback v
             [ (fragment "Alice" "Hi there", t1);
               (fragment "Alice" "Hi there, everyone", t2);
               (fragment "Bob" "Good morning", t3) ]
             (recording v started) in
  map (map speakerText)
      (completedPayloads (outbox (resumeLeave tEnd found (leaveMeeting reason p))))
  = [ [ ("Alice", "Hi there, everyone"); ("Bob", "Good morning") ] ].
Proof.
  destruct v; reflexivity.
Qed.

(** C2.  One observer batch holds two notifications of
    the same accepted fragment with an exit phrase.  [leaveMeeting] has no
    guard and the exit-phrase branch does not record the text as last seen,
    so the leave sequence runs twice: two "leaving" status messages, two
    leave actions on the page and two [completed] messages. *)
Theorem exit_phrase_twice_leaves_twice v started t1 t2 t3 t4 found3 found4 :
  let n := fragment "Alice" "Okay bot, please leave now" in
  let p := run v [ Mutations [(n, t1); (n, t2)];
                   ResumeLeave t3 found3; ResumeLeave t4 found4 ]
               (recording v started) in
  count isLeaving (outbox p) = 2
  /\ count isCompleted (outbox p) = 2
  /\ length (uiLeaves p) = 2.
Proof.
  destruct v; repeat split; reflexivity.
Qed.

(** [leaveMeeting] runs its sequence on every call: each call posts a
    "leaving" status and suspends one more continuation, each continuation
    sends one [completed] message. *)
Lemma leaveMeeting_unguarded reason p :
  count isLeaving (outbox (leaveMeeting reason p)) = S (count isLeaving (outbox p))
  /\ length (suspended (leaveMeeting reason p)) = S (length (suspended p)).
Proof.
  unfold leaveMeeting, count. simpl.
  rewrite List.filter_app, !length_app. simpl. split; lia.
Qed.

(** *** Aggregation *)

Lemma startsWith_substring0 (n : nat) (old t : string) :
  startsWith t old = true -> startsWith t (substring0 n old) = true.
Proof.
  revert old t. induction n as [|n IH]; intros old t H.
  - destruct old; reflexivity.
  - destruct old as [|c old]; [reflexivity|].
    destruct t as [|d t]; [simpl in H; discriminate H|].
    change (substring0 (S n) (String c old)) with (String c (substring0 n old)).
    cbn [startsWith] in *. revert H. destruct (Ascii.eqb c d); [auto | intros H; discriminate H].
Qed.

(** The segment management on the store does what it does on values. *)
Lemma mergeOrCreate_view v seg b h :
  wfRefs h (segments b) (activeSegments b) ->
  let bh := mergeOrCreate v seg b h in
  wfRefs (snd bh) (segments (fst bh)) (activeSegments (fst bh))
  /\ (readAll (snd bh) (segments (fst bh)),
      readActive (snd bh) (activeSegments (fst bh)))
     = mergeOrCreateV v seg (readAll h (segments b), readActive h (activeSegments b)).
Proof.
  intros Hwf. pose proof Hwf as (Hsegs & Hact & Hnd & Hsep).
  unfold mergeOrCreate, mergeOrCreateV. cbn [fst snd].
  rewrite map_get_readActive by assumption.
  destruct (map_get (speaker seg) (activeSegments b)) as [r|] eqn:Hget.
  - pose proof (map_get_elem _ _ _ Hget) as Hin.
    assert (r < length h) as Hr by (rewrite Forall_forall in Hact; auto).
    destruct (lookup_lt_is_Some_2 h r Hr) as [e He].
    unfold deref. rewrite He.
    destruct (startsWith (text seg) (substring0 20 (text e))); cbn [fst snd segments activeSegments].
    + split; [apply wfRefs_insert; assumption|].
      rewrite readAll_insert by (rewrite Forall_forall in Hsep; auto).
      rewrite (readActive_merge h (speaker seg)) by assumption. reflexivity.
    + split.
      * apply wfRefs_create; [assumption|].
        intros r' Hr'. apply list_elem_of_singleton in Hr'. subst r'. assumption.
      * rewrite readAll_grow.
        2:{ apply Forall_app. split; [assumption|]. apply Forall_singleton. assumption. }
        rewrite readAll_app, readActive_create by assumption.
        rewrite readAll_cons, He. reflexivity.
  - cbn [fst snd segments activeSegments]. split.
    + apply wfRefs_create; [assumption|]. intros r Hr. inversion Hr.
    + rewrite app_nil_r. rewrite readAll_grow by assumption.
      rewrite readActive_create by assumption. reflexivity.
Qed.

Lemma processCaption_view v n now p :
  wf p ->
  wf (processCaption v n now p)
  /\ view (processCaption v n now p)
     = if accepted v n p
       then mergeOrCreateV v (segmentOf v n now p) (view p)
       else view p.
Proof.
  intros Hwf. unfold processCaption, accepted, segmentOf, speakerOf.
  destruct (getSpeaker v n (lastSpeaker p)) as [spk last]. cbn [fst].
  cbn [with_lastSpeaker botState lastCaption].
  destruct (rejected v spk (getText n) (lastCaption (botState p))); cbn [negb andb].
  { split; [exact Hwf | reflexivity]. }
  destruct (isExitPhrase v (getText n)); cbn [negb].
  { split; [exact Hwf | reflexivity]. }
  match goal with
  | |- context [mergeOrCreate ?a ?s ?b ?h] =>
      pose proof (mergeOrCreate_view a s b h Hwf) as [W E];
      destruct (mergeOrCreate a s b h) as [b2 h2]
  end.
  cbn [fst snd] in W, E. split; [exact W | exact E].
Qed.

Lemma keyed_get (w : View) (k : string) (e : Segment) :
  keyed w -> map_get k (snd w) = Some e -> speaker e = k.
Proof. apply (filed_get speaker). Qed.

Lemma keyed_set (w : View) (fin : list Segment) (x : Segment) :
  keyed w -> keyed (fin, map_set (speaker x) x (snd w)).
Proof. apply (filed_set speaker). Qed.

Lemma mergeOrCreateV_keyed v seg w : keyed w -> keyed (mergeOrCreateV v seg w).
Proof.
  intros Hk. unfold mergeOrCreateV.
  destruct (map_get (speaker seg) (snd w)) as [e|] eqn:E.
  - pose proof (keyed_get w _ _ Hk E) as He.
    destruct (startsWith (text seg) (substring0 20 (text e))).
    + replace (speaker seg) with (speaker (merged v e seg)) by exact He.
      apply keyed_set. exact Hk.
    + apply keyed_set. exact Hk.
  - apply keyed_set. exact Hk.
Qed.

Lemma ofSpeaker_true spk s : ofSpeaker spk s = true <-> speaker s = spk.
Proof. unfold ofSpeaker. apply String.eqb_eq. Qed.

Lemma ofSpeaker_false spk s : ofSpeaker spk s = false <-> speaker s <> spk.
Proof. unfold ofSpeaker. apply String.eqb_neq. Qed.

(** A fragment of another speaker leaves the speaker's segments alone. *)
Lemma mergeOrCreateV_other v seg w spk :
  keyed w -> speaker seg <> spk ->
  finOf spk (mergeOrCreateV v seg w) = finOf spk w
  /\ actOf spk (mergeOrCreateV v seg w) = actOf spk w.
Proof.
  intros Hk Hne. unfold mergeOrCreateV, finOf, actOf.
  destruct (map_get (speaker seg) (snd w)) as [e|] eqn:E.
  - pose proof (keyed_get w _ _ Hk E) as He.
    destruct (startsWith (text seg) (substring0 20 (text e))); cbn [fst snd].
    + split; [reflexivity|]. apply map_get_set_ne. congruence.
    + split; [|apply map_get_set_ne; congruence].
      rewrite List.filter_app. simpl.
      assert (ofSpeaker spk e = false) as -> by (apply ofSpeaker_false; congruence).
      apply app_nil_r.
  - cbn [fst snd]. split; [reflexivity|]. apply map_get_set_ne. congruence.
Qed.

(** A fragment of the speaker that continues the active text, or finds no
    active segment, pushes nothing. *)
Lemma mergeOrCreateV_same v seg w :
  match actOf (speaker seg) w with
  | Some e => startsWith (text seg) (text e) = true
  | None => True
  end ->
  finOf (speaker seg) (mergeOrCreateV v seg w) = finOf (speaker seg) w
  /\ exists s, actOf (speaker seg) (mergeOrCreateV v seg w) = Some s
       /\ text s = text seg /\ end_ s = end_ seg
       /\ start s = match actOf (speaker seg) w with
                    | Some e => start e
                    | None => start seg
                    end.
Proof.
  unfold mergeOrCreateV, finOf, actOf.
  destruct (map_get (speaker seg) (snd w)) as [e|] eqn:E; intros H.
  - rewrite (startsWith_substring0 20 _ _ H). cbn [fst snd].
    split; [reflexivity|]. exists (merged v e seg).
    rewrite map_get_set_eq. repeat split; reflexivity.
  - cbn [fst snd]. split; [reflexivity|]. exists seg.
    rewrite map_get_set_eq. repeat split; reflexivity.
Qed.

(** The segments of a speaker a leave would deliver: the finalized ones, then
    the active one. *)
Lemma finalValues_split (spk : string) (p : Page) :
  keyed (view p) ->
  List.filter (ofSpeaker spk) (finalValues p)
  = finOf spk (view p) ++ optList (actOf spk (view p)).
Proof.
  intros Hk. unfold finalValues, finalSegments, finOf, actOf, view, keyed in *.
  cbn [fst snd] in *. rewrite readAll_app, List.filter_app, readAll_values.
  unfold ofSpeaker. rewrite (filed_filter speaker) by assumption. reflexivity.
Qed.

Lemma extends_startsWith old new : extends old new = true -> startsWith new old = true.
Proof. unfold extends. intros H. apply andb_true_iff in H as [H _]. exact H. Qed.

(** The aggregation of one speaker along a batch, from any state. *)
Lemma aggregate_from v spk batch : forall p,
  wf p -> keyed (view p) ->
  let mine := List.filter (bySpeaker spk) (acceptedTrace v batch p) in
  let p' := observerCallback v batch p in
  chainFrom (text <$> actOf spk (view p)) (map oText mine) = true ->
  wf p' /\ keyed (view p')
  /\ finOf spk (view p') = finOf spk (view p)
  /\ match last mine with
     | None => actOf spk (view p') = actOf spk (view p)
     | Some lst =>
         exists seg, actOf spk (view p') = Some seg
           /\ text seg = oText lst /\ end_ seg = oElapsed lst
           /\ start seg = match actOf spk (view p), head mine with
                          | Some e, _ => start e
                          | None, Some f => openedAt v f
                          | None, None => 0%Z
                          end
     end.
Proof.
  induction batch as [|[n now] batch IH]; intros p Hwf Hk; cbn zeta.
  { intros _. split; [exact Hwf|]. split; [exact Hk|]. split; reflexivity. }
  cbn [acceptedTrace observerCallback].
  destruct (processCaption_view v n now p Hwf) as [Hwf1 Hview].
  specialize (IH (processCaption v n now p) Hwf1). cbn zeta in IH.
  destruct (accepted v n p) eqn:Hacc.
  2:{ rewrite Hview in IH. cbn [app]. exact (IH Hk). }
  pose proof (mergeOrCreateV_keyed v (segmentOf v n now p) (view p) Hk) as Hk1.
  rewrite <- Hview in Hk1. specialize (IH Hk1).
  cbn [app List.filter].
  destruct (bySpeaker spk (observe v n now p)) eqn:E;
    unfold bySpeaker in E; cbn [observe oSpeaker] in E.
  - apply String.eqb_eq in E.
    cbn [map oText observe chainFrom head]. intros Hchain.
    apply andb_true_iff in Hchain as [Hprev Hchain].
    assert (speaker (segmentOf v n now p) = spk) as Hspk by exact E.
    destruct (mergeOrCreateV_same v (segmentOf v n now p) (view p))
      as (Hfin & s1 & Hact1 & Htext1 & Hend1 & Hstart1).
    { rewrite Hspk. destruct (actOf spk (view p)) as [e|]; [|exact I].
      cbn [fmap option_fmap option_map] in Hprev. apply extends_startsWith. exact Hprev. }
    rewrite Hspk, <- Hview in Hfin, Hact1. rewrite Hspk in Hstart1.
    rewrite Hact1 in IH. cbn [fmap option_fmap option_map] in IH.
    rewrite Htext1 in IH. cbn [segmentOf text] in IH.
    destruct (IH Hchain) as (W & K & F & L).
    split; [exact W|]. split; [exact K|]. split; [rewrite F; exact Hfin|].
    rewrite last_cons.
    destruct (last (List.filter (bySpeaker spk)
                (acceptedTrace v batch (processCaption v n now p)))) as [lst|].
    + destruct L as (seg & A & T & En & St). exists seg.
      split; [exact A|]. split; [exact T|]. split; [exact En|].
      rewrite St, Hstart1. destruct (actOf spk (view p)); reflexivity.
    + exists s1.
      split; [exact L|]. split; [exact Htext1|]. split; [exact Hend1|].
      rewrite Hstart1. destruct (actOf spk (view p)); reflexivity.
  - apply String.eqb_neq in E.
    destruct (mergeOrCreateV_other v (segmentOf v n now p) (view p) spk Hk E) as [Hfin Hact].
    rewrite <- Hview in Hfin, Hact. rewrite Hfin, Hact in IH. exact IH.
Qed.

Lemma wf_recording v started : wf (recording v started).
Proof.
  unfold wf, wfRefs, recording. cbn.
  repeat split; try apply Forall_nil_2; apply NoDup_nil_2.
Qed.

Lemma keyed_recording v started : keyed (view (recording v started)).
Proof. split; [apply Forall_nil_2 | apply NoDup_nil_2]. Qed.

(** The accepted fragments of a speaker make one segment of the agent. *)
Lemma agent_one_segment v started batch spk : aggregates v (openedAt v) started batch spk.
Proof.
  unfold aggregates. cbn zeta. intros Hchain first lst Hhead Hlast.
  destruct (aggregate_from v spk batch (recording v started)
              (wf_recording v started) (keyed_recording v started) Hchain)
    as (W & K & F & L).
  rewrite Hlast in L. destruct L as (seg & A & T & En & St).
  exists seg. rewrite Hhead in St.
  rewrite (finalValues_split spk _ K), F, A.
  repeat split; assumption.
Qed.

(** C1.  When the accepted texts of a speaker form a chain of
    strict extensions, the final segments of the agent hold exactly one
    segment of that speaker: its text is the last text, its end the elapsed
    time of the last observation, and its start the start given at the first
    observation, which is the elapsed time in the first script and the
    elapsed time less the estimated speaking time, not below zero, in the
    second.  In [SegmentManager], whatever the texts, the captions of a
    speaker make exactly one segment, from the elapsed time of the first call
    to that of the last; [markFlushed] moves it to the finalized list. *)
Theorem one_segment_per_speaker v started batch spk first lst :
  let p0 := recording v started in
  let mine := List.filter (bySpeaker spk) (acceptedTrace v batch p0) in
  chainFrom None (map oText mine) = true ->
  head mine = Some first ->
  last mine = Some lst ->
  (exists seg,
     List.filter (ofSpeaker spk) (finalValues (observerCallback v batch p0)) = [seg]
     /\ text seg = oText lst
     /\ start seg = match v with
                    | V1 => oElapsed first
                    | V2 => Z.max 0 (oElapsed first
                                     - estimatedDuration (countWords false (oText first)))
                    end
     /\ end_ seg = oElapsed lst)
  /\ (forall created captions cfirst clast,
        let cmine := List.filter (ScraperSpec.saidBy spk) captions in
        let m := ScraperSpec.addAll captions (Scraper.create created) in
        head cmine = Some cfirst -> last cmine = Some clast ->
        let seg := Types.mkSegment spk (ScraperSpec.capText clast)
                     (ScraperSpec.capNow cfirst - created)
                     (ScraperSpec.capNow clast - created) in
        List.filter (ScraperSpec.ofSpeaker spk) (ScraperSpec.allValues m) = [seg]
        /\ List.filter (ScraperSpec.ofSpeaker spk)
             (fst (ScraperSpec.view (Scraper.markFlushed m))) = [seg]).
Proof.
  cbn zeta. intros Hchain Hhead Hlast. split.
  - destruct (agent_one_segment v started batch spk Hchain first lst Hhead Hlast)
      as (seg & Hf & Ht & Hs & He).
    exists seg. split; [exact Hf|]. split; [exact Ht|]. split; [|exact He].
    rewrite Hs. destruct v; reflexivity.
  - intros created captions cfirst clast Hh Hl.
    exact (ScraperProps.manager_one_segment created captions spk cfirst clast Hh Hl).
Qed.

Lemma one_segment_per_speaker_witness :
  let mine := List.filter (bySpeaker "Alice")
                (acceptedTrace V2 growingBatch (recording V2 0)) in
  (chainFrom None (map oText mine) = true
   /\ head mine = Some (mkObservation "Alice" "Hello everyone" 5000)
   /\ last mine = Some (mkObservation "Alice" "Hello everyone, welcome back" 7500))
  /\ exists seg,
       List.filter (ofSpeaker "Alice")
         (finalValues (observerCallback V2 growingBatch (recording V2 0))) = [seg]
       /\ text seg = "Hello everyone, welcome back"
       /\ start seg = 4000%Z
       /\ end_ seg = 7500%Z.
Proof.
  split; [repeat split; reflexivity|].
  destruct (one_segment_per_speaker V2 0 growingBatch "Alice"
              (mkObservation "Alice" "Hello everyone" 5000)
              (mkObservation "Alice" "Hello everyone, welcome back" 7500)
              eq_refl eq_refl eq_refl) as [(seg & Hf & Ht & Hs & He) _].
  exists seg. repeat split; assumption.
Defined.

(** C1, with the elapsed time of the first observation as start, fails in
    the second script: the segment of a single fragment observed 5 s into the
    session starts at 4 s. *)
Lemma start_is_estimated :
  ~ aggregates V2 oElapsed 0 [ (fragment "Alice" "Hello everyone", 5000%Z) ] "Alice".
Proof.
  intros H.
  destruct (H eq_refl (mkObservation "Alice" "Hello everyone" 5000)
              (mkObservation "Alice" "Hello everyone" 5000) eq_refl eq_refl)
    as (seg & Hf & _ & Hs & _).
  vm_compute in Hf. injection Hf as <-. vm_compute in Hs. discriminate Hs.
Qed.

End AgentProps.

(* ===================================================================== *)
(** ** Properties of the orchestrator *)
(* ===================================================================== *)

Module BotProps.
Import JS Types Bot BotSpec.

Create HintDb keeps.

Section Keeps.
Context {X : Type} (f : MeetBot -> X).

Lemma keeps_ret {A} (x : A) : keeps f (ret x).
Proof. intros b. reflexivity. Qed.

Lemma keeps_bind {A B} (a : Act A) (k : A -> Act B) :
  keeps f a -> (forall x, keeps f (k x)) -> keeps f (bind a k).
Proof.
  intros Ha Hk b. unfold after, bind.
  specialize (Ha b). unfold after in Ha.
  destruct (a b) as [[x b1] e1]. specialize (Hk x b1). unfold after in Hk.
  destruct (k x b1) as [[y b2] e2]. cbn in *. congruence.
Qed.

Lemma keeps_get : keeps f get.
Proof. intros b. reflexivity. Qed.

Lemma keeps_effect e : keeps f (effect e).
Proof. intros b. reflexivity. Qed.

Lemma keeps_emit e : keeps f (emit e).
Proof. intros b. reflexivity. Qed.

Lemma keeps_modify (g : MeetBot -> MeetBot) :
  (forall b, f (g b) = f b) -> keeps f (modify g).
Proof. intros H b. apply H. Qed.

Lemma keeps_when {c : bool} (a : Act unit) : keeps f a -> keeps f (when c a).
Proof. intros H. destruct c; [exact H | apply keeps_ret]. Qed.

Lemma keeps_if {A} (c : bool) (a1 a2 : Act A) :
  keeps f a1 -> keeps f a2 -> keeps f (if c then a1 else a2).
Proof. destruct c; auto. Qed.

End Keeps.

#[export] Instance segments_stable : Stable segments.
Proof. split; reflexivity. Qed.

#[export] Instance ids_stable : Stable ids.
Proof.
  split; try reflexivity.
  intros s b H1 H2. unfold ids. cbn. rewrite H1, H2. reflexivity.
Qed.

Ltac keep :=
  repeat first
    [ apply keeps_ret | apply keeps_get | apply keeps_effect | apply keeps_emit
    | apply keeps_when
    | apply keeps_bind; [| intros ?]
    | apply keeps_modify; intros ?;
      first [ reflexivity | apply stable_session; reflexivity | apply stable_browser
            | apply stable_isLeaving | apply stable_timers | apply stable_joinPc
            | apply stable_leaves ]
    | match goal with
      | |- keeps _ (if ?c then _ else _) => destruct c
      | |- keeps _ (match ?x with _ => _ end) => destruct x
      end ].

Section Methods.
Context {X : Type} (f : MeetBot -> X) `{!Stable f}.

Lemma keeps_setStatus st message : keeps f (setStatus st message).
Proof. unfold setStatus. keep. Qed.

Lemma keeps_cleanup_begin : keeps f cleanup_begin.
Proof. unfold cleanup_begin. keep. Qed.

Lemma keeps_cleanup_end : keeps f cleanup_end.
Proof. unfold cleanup_end. keep. Qed.

Hint Resolve keeps_setStatus keeps_cleanup_begin keeps_cleanup_end : keeps.

Lemma keeps_join_catch message : keeps f (join_catch message).
Proof. unfold join_catch. keep; auto with keeps. Qed.

Hint Resolve keeps_join_catch : keeps.

Lemma keeps_join path ext : keeps f (join path ext).
Proof. unfold join. keep; auto with keeps. Qed.

Lemma keeps_join_resume joined now : keeps f (join_resume joined now).
Proof. unfold join_resume. keep; auto with keeps. Qed.

Hint Resolve keeps_join_resume : keeps.

Lemma keeps_checkStatus since timeout now : keeps f (checkStatus since timeout now).
Proof. unfold checkStatus. keep; auto with keeps. Qed.

Hint Resolve keeps_checkStatus : keeps.

Lemma keeps_enter_wait now : keeps f (enter_wait now).
Proof. unfold enter_wait. keep; auto with keeps. Qed.

Lemma keeps_flushSegments now : keeps f (flushSegments now).
Proof. unfold flushSegments. keep. Qed.

Lemma keeps_leave_finish now : keeps f (leave_finish now).
Proof. unfold leave_finish. keep; auto with keeps. Qed.

Hint Resolve keeps_enter_wait keeps_flushSegments keeps_leave_finish : keeps.

Lemma keeps_leave_flush reason now : keeps f (leave_flush reason now).
Proof. unfold leave_flush. keep; auto with keeps. Qed.

Hint Resolve keeps_leave_flush : keeps.

Lemma keeps_leave reason now : keeps f (leave reason now).
Proof. unfold leave. keep; auto with keeps. Qed.

Hint Resolve keeps_leave : keeps.

Lemma keeps_handleMeetingEnd now : keeps f (handleMeetingEnd now).
Proof. unfold handleMeetingEnd. keep; auto with keeps. Qed.

End Methods.


#[export] Hint Resolve keeps_setStatus keeps_cleanup_begin keeps_cleanup_end
  keeps_join_catch keeps_join keeps_join_resume keeps_checkStatus keeps_enter_wait
  keeps_flushSegments keeps_leave_finish keeps_leave_flush keeps_leave
  keeps_handleMeetingEnd : keeps.

Lemma exec_after (a : Act unit) (b : MeetBot) : fst (exec a b) = after a b.
Proof. unfold exec, after. destruct (a b) as [[x b'] es]. reflexivity. Qed.

Lemma after_bind {A B} (a : Act A) (k : A -> Act B) (b : MeetBot) :
  after (bind a k) b = after (k (fst (fst (a b)))) (after a b).
Proof.
  unfold after, bind. destruct (a b) as [[x b1] e1]. cbn.
  destruct (k x b1) as [[y b2] e2]. reflexivity.
Qed.

(** [handleCaption] appends one segment whose start is its end. *)
Lemma handleCaption_segments data b :
  segments (after (handleCaption data) b)
  = segments b ++ [mkSegment (cSpeaker data) (cText data) (cTimestamp data) (cTimestamp data)].
Proof. reflexivity. Qed.

(** [handleCompletion] replaces the list when the payload has segments. *)
Lemma handleCompletion_segments data now b :
  segments (after (handleCompletion data now) b)
  = match dSegments data with
    | Some (s :: rest) =>
        map (fun s => mkSegment (speaker s) (text s) (start s) (end_ s)) (s :: rest)
    | _ => segments b
    end.
Proof.
  unfold handleCompletion. rewrite after_bind.
  assert (keeps segments
            (b0 <- get;;
             emit (CompletedEvent (meetingId (session b0)) (dReason data) (segments b0)
                     (dDuration data));;
             leave (dReason data) now)) as K by (keep; auto with keeps).
  rewrite K. destruct (dSegments data) as [[|s rest]|]; reflexivity.
Qed.

(** The status part of [parseExtensionLog] leaves the list alone; the caption
    part appends when the line matches. *)
Lemma parseExtensionLog_segments txt now b :
  match captionMatch txt with
  | Some (g1, g2) =>
      exists ts, segments (after (parseExtensionLog txt now) b)
                 = segments b ++ [mkSegment (trim g1) (trim g2) ts ts]
  | None => segments (after (parseExtensionLog txt now) b) = segments b
  end.
Proof.
  unfold parseExtensionLog. rewrite after_bind.
  match goal with
  | |- context [after ?chain b] =>
      assert (keeps segments chain) as K by (keep; auto with keeps);
      pose proof (K b) as Kb; set (b1 := after chain b) in *
  end.
  destruct (captionMatch txt) as [[g1 g2]|].
  - eexists. rewrite after_bind. cbn [get fst]. unfold after at 2. cbn [get fst snd].
    rewrite handleCaption_segments. cbn [cSpeaker cText cTimestamp]. rewrite Kb. reflexivity.
  - exact Kb.
Qed.

Lemma quiet_keeps_segments i : quiet i = true -> keeps segments (step i).
Proof.
  destruct i as [r | r | now | r now | now | | txt now | m now | now | now | reason now | k now];
    cbn [quiet]; intros Q; try discriminate Q;
    try (destruct m; try discriminate Q);
    unfold step; keep; unfold handleExtensionMessage; keep; auto with keeps.
Qed.

(** C10.  The orchestrator neither merges nor deduplicates captions.  A
    structured caption message, and a console line of the extension in which
    the caption pattern matches, each append one segment whose start equals
    its end to [segments]; a completion payload with a non-empty segment list
    replaces the list by that payload, any other completion keeps it; every
    other input leaves the list as it is. *)
Theorem orchestrator_appends_unconditionally i b :
  let b' := fst (exec (step i) b) in
  match i with
  | Message (XCaption d) _ =>
      segments b' = segments b
                    ++ [mkSegment (cSpeaker d) (cText d) (cTimestamp d) (cTimestamp d)]
  | Console txt _ =>
      if listening b && includes txt "[Notu.AI Bot]" then
        match captionMatch txt with
        | Some (g1, g2) =>
            exists ts, segments b' = segments b ++ [mkSegment (trim g1) (trim g2) ts ts]
        | None => segments b' = segments b
        end
      else segments b' = segments b
  | Message (XCompleted d) _ =>
      segments b' = match dSegments d with
                    | Some (s :: rest) =>
                        map (fun s => mkSegment (speaker s) (text s) (start s) (end_ s))
                            (s :: rest)
                    | _ => segments b
                    end
  | _ => segments b' = segments b
  end.
Proof.
  cbn zeta. rewrite exec_after.
  destruct (quiet i) eqn:Q.
  { pose proof (quiet_keeps_segments i Q b) as K.
    destruct i as [| | | | | | | m ? | | | |]; try discriminate Q; try exact K.
    destruct m; try discriminate Q; exact K. }
  destruct i as [| | | | | | txt now | m now | | | |]; try discriminate Q.
  - unfold step. rewrite after_bind. cbn [get fst]. change (after get b) with b.
    replace (match joinPc b with
             | _ => when (listening b && includes txt "[Notu.AI Bot]")
                      (parseExtensionLog txt now)
             end)
      with (when (listening b && includes txt "[Notu.AI Bot]") (parseExtensionLog txt now))
      by (destruct (joinPc b); reflexivity).
    destruct (listening b && includes txt "[Notu.AI Bot]"); [|reflexivity].
    apply parseExtensionLog_segments.
  - destruct m; try discriminate Q; unfold step; rewrite after_bind;
      cbn [get fst]; change (after get b) with b.
    + replace (match joinPc b with | _ => handleExtensionMessage (XCaption data) now end)
        with (handleExtensionMessage (XCaption data) now)
        by (destruct (joinPc b); reflexivity).
      reflexivity.
    + replace (match joinPc b with | _ => handleExtensionMessage (XCompleted data) now end)
        with (handleExtensionMessage (XCompleted data) now)
        by (destruct (joinPc b); reflexivity).
      apply handleCompletion_segments.
Qed.

(** No input changes the ids of a bot. *)
Lemma step_keeps_ids i : keeps ids (step i).
Proof.
  destruct i as [r | r | now | r now | now | | txt now | m now | now | now | reason now | k now];
    try destruct m; unfold step; keep;
    unfold handleExtensionMessage, parseExtensionLog, handleCompletion, handleCaption;
    keep; auto with keeps.
Qed.

Lemma run_fst_snoc inputs i b :
  fst (run (inputs ++ [i]) b) = fst (exec (step i) (fst (run inputs b))).
Proof.
  unfold run. rewrite fold_left_app. cbn [fold_left].
  destruct (fold_left _ inputs (b, [])) as [b1 es1]. cbn [fst].
  destruct (exec (step i) b1) as [b2 es2]. reflexivity.
Qed.

Lemma run_keeps_ids inputs b : ids (fst (run inputs b)) = ids b.
Proof.
  induction inputs as [|i inputs IH] using rev_ind; [reflexivity|].
  rewrite run_fst_snoc, exec_after, step_keeps_ids. exact IH.
Qed.

(** The admission wait runs out: the poll that finds the timeout elapsed, with
    the status still unresolved, fails the join with the fixed message; no
    completion is emitted. *)
Lemma poll_timeout b since timeout now :
  joinPc b = Waiting since timeout ->
  hasJoined (status (session b)) = false ->
  isFailed (status (session b)) = false ->
  (timeout <= now - since)%Z ->
  let '(b', es) := exec (step (Poll now)) b in
  status (session b') = failed
  /\ error (session b') = Some joinFailure
  /\ (joinPc b' = Failing joinFailure
      \/ joinPc b' = Rejected joinFailure)
  /\ segments b' = segments b /\ ids b' = ids b
  /\ es = Emit (StatusEvent failed (Some joinFailure)) (getSession b')
          :: (if context b then [CloseContext] else []).
Proof.
  intros Hpc Hj Hf Ht. apply Z.leb_le in Ht.
  destruct b as [ctx pg lst [sid mid u st segs sa ca err] segs' lv fl tm pc ls].
  cbn in Hpc, Hj, Hf. subst pc.
  unfold exec, step, bind, get. cbn [joinPc]. unfold checkStatus, bind, get.
  cbn [session status]. rewrite Hj, Hf, Ht.
  destruct ctx; cbn; repeat split; auto.
Qed.

(** A poll before the timeout, with the status unresolved, changes nothing. *)
Lemma poll_early b since timeout now :
  joinPc b = Waiting since timeout ->
  hasJoined (status (session b)) = false ->
  isFailed (status (session b)) = false ->
  (now - since < timeout)%Z ->
  exec (step (Poll now)) b = (b, []).
Proof.
  intros Hpc Hj Hf Ht. apply Z.leb_gt in Ht.
  destruct b as [ctx pg lst [sid mid u st segs sa ca err] segs' lv fl tm pc ls].
  cbn in Hpc, Hj, Hf. subst pc.
  unfold exec, step, bind, get. cbn [joinPc]. unfold checkStatus, bind, get.
  cbn [session status]. rewrite Hj, Hf, Ht. reflexivity.
Qed.

(** Once the join has failed, polls find nothing to do. *)
Lemma poll_over b now :
  match joinPc b with Waiting _ _ => False | _ => True end ->
  exec (step (Poll now)) b = (b, []).
Proof.
  destruct b as [ctx pg lst s segs' lv fl tm pc ls]. cbn.
  destruct pc; intros H; try contradiction; reflexivity.
Qed.

End BotProps.

(* ===================================================================== *)
(** ** Properties of the session registry *)
(* ===================================================================== *)

Module RegistryProps.
Import JS Types Registry RegistrySpec.

Lemma emitToBackend_fields e m :
  posts (emitToBackend e m) = posts m
  /\ finalizedMeetings (emitToBackend e m) = finalizedMeetings m
  /\ completions (emitToBackend e m) = completions m
  /\ sessions (emitToBackend e m) = sessions m
  /\ bots (emitToBackend e m) = bots m
  /\ browsers (emitToBackend e m) = browsers m
  /\ calls (emitToBackend e m) = calls m
  /\ results (emitToBackend e m) = results m.
Proof. unfold emitToBackend. destruct (socketConnected m); repeat split; reflexivity. Qed.

Lemma finalizeCalls_post meeting p m :
  finalizeCalls meeting (post p m)
  = finalizeCalls meeting m + (if isFinalizeOf meeting p then 1 else 0).
Proof.
  unfold finalizeCalls, post. cbn [posts]. rewrite List.filter_app, length_app.
  cbn [List.filter]. destruct (isFinalizeOf meeting p); reflexivity.
Qed.

(** The 'completed' listener for a meeting that is not in the set: the
    meeting enters the set and one finalize POST is issued. *)
Lemma onCompleted_first meeting snap reason segs now m :
  meeting ∉ finalizedMeetings m ->
  let m' := onCompleted meeting snap reason segs now m in
  finalizeCalls meeting m' = S (finalizeCalls meeting m)
  /\ finalizedMeetings m' = {[meeting]} ∪ finalizedMeetings m
  /\ completions m' = completions m ++ [(meeting, true)].
Proof.
  intros Hnot. unfold onCompleted, finalizeMeeting.
  destruct (emitToBackend_fields (bot_meeting_ended meeting snap reason) m)
    as (Hp & Hf & Hc & _).
  set (m1 := emitToBackend _ m) in *.
  destruct (decide (meeting ∈ finalizedMeetings m1)) as [Hin | _].
  { rewrite Hf in Hin. contradiction. }
  cbn zeta. unfold set_completions, finalizeCalls, post, set_finalized.
  cbn [completions finalizedMeetings posts].
  rewrite List.filter_app, length_app. cbn [List.filter isFinalizeOf].
  rewrite String.eqb_refl. cbn [length]. rewrite Hp, Hf, Hc.
  split; [lia|]. split; reflexivity.
Qed.

(** The listener for a meeting that is in the set: no POST. *)
Lemma onCompleted_again meeting snap reason segs now m :
  meeting ∈ finalizedMeetings m ->
  let m' := onCompleted meeting snap reason segs now m in
  finalizeCalls meeting m' = finalizeCalls meeting m
  /\ finalizedMeetings m' = finalizedMeetings m
  /\ completions m' = completions m ++ [(meeting, false)].
Proof.
  intros Hin. unfold onCompleted, finalizeMeeting.
  destruct (emitToBackend_fields (bot_meeting_ended meeting snap reason) m)
    as (Hp & Hf & Hc & _).
  set (m1 := emitToBackend _ m) in *.
  destruct (decide (meeting ∈ finalizedMeetings m1)) as [_ | Hnot].
  2:{ rewrite Hf in Hnot. contradiction. }
  cbn zeta. unfold set_completions, finalizeCalls. cbn [completions finalizedMeetings posts].
  rewrite Hp, Hf, Hc. repeat split; reflexivity.
Qed.

(** The rest of a suspended listener. *)
Lemma resumeCompleted_spec i ok meeting inflight m :
  completions m !! i = Some (meeting, inflight) ->
  let m' := resumeCompleted i ok m in
  posts m' = posts m
  /\ finalizedMeetings m'
     = (if inflight && negb ok
        then finalizedMeetings m ∖ {[meeting]}
        else finalizedMeetings m)
  /\ completions m' = delete i (completions m).
Proof.
  intros Hi. unfold resumeCompleted. rewrite Hi. cbn zeta.
  set (m1 := set_completions (delete i (completions m)) m).
  set (m2 := if inflight then finalizeSettled meeting ok m1 else m1).
  destruct (emitToBackend_fields
              (bot_status_change meeting completed (Some "Meeting completed successfully")) m2)
    as (Hp & Hf & Hc & _).
  unfold set_sessions. cbn [posts finalizedMeetings completions].
  rewrite Hp, Hf, Hc. subst m2 m1.
  destruct inflight, ok; repeat split; reflexivity.
Qed.

Lemma finalizeCalls_posts meeting m m' :
  posts m' = posts m -> finalizeCalls meeting m' = finalizeCalls meeting m.
Proof. unfold finalizeCalls. intros ->. reflexivity. Qed.

(** C3.  For a meeting that is not yet finalized, two deliveries of a
    completed event make one finalize POST, whether the duplicate arrives
    after the first POST succeeded or while it is in flight; when the first
    POST fails the meeting leaves the finalized set, and a later duplicate
    makes a second POST. *)
Theorem completed_twice_finalizes_once m meeting
    snap1 reason1 segs1 duration1 now1 snap2 reason2 segs2 duration2 now2 :
  meeting ∉ finalizedMeetings m ->
  let once := listen meeting now1
                (Bot.Emit (Bot.CompletedEvent meeting reason1 segs1 duration1) snap1) in
  let again := listen meeting now2
                 (Bot.Emit (Bot.CompletedEvent meeting reason2 segs2 duration2) snap2) in
  let i := length (completions m) in
  (finalizeCalls meeting (again (resumeCompleted i true (once m)))
   = S (finalizeCalls meeting m))
  /\ (finalizeCalls meeting (resumeCompleted i true (again (once m)))
      = S (finalizeCalls meeting m))
  /\ (meeting ∉ finalizedMeetings (resumeCompleted i false (once m)))
  /\ (finalizeCalls meeting (again (resumeCompleted i false (once m)))
      = S (S (finalizeCalls meeting m))).
Proof.
  intros Hnot. cbn zeta. cbn [listen].
  destruct (onCompleted_first meeting snap1 reason1 segs1 now1 m Hnot) as (Hn1 & Hf1 & Hc1).
  set (m1 := onCompleted meeting snap1 reason1 segs1 now1 m) in *.
  assert (completions m1 !! length (completions m) = Some (meeting, true)) as Hi.
  { rewrite Hc1. rewrite lookup_app_r by lia. rewrite Nat.sub_diag. reflexivity. }
  assert (meeting ∈ finalizedMeetings m1) as Hin1.
  { rewrite Hf1. apply elem_of_union. left. apply elem_of_singleton. reflexivity. }
  assert (meeting ∉ finalizedMeetings m1 ∖ {[meeting]}) as Hout.
  { intros H. apply elem_of_difference in H as [_ H]. apply H.
    apply elem_of_singleton. reflexivity. }
  split; [|split; [|split]].
  - destruct (resumeCompleted_spec _ true _ _ m1 Hi) as (Hp & Hf & _). cbn in Hf.
    set (m2 := resumeCompleted _ true m1) in *.
    destruct (onCompleted_again meeting snap2 reason2 segs2 now2 m2) as (Hn2 & _).
    { rewrite Hf. exact Hin1. }
    rewrite Hn2, (finalizeCalls_posts _ _ _ Hp). exact Hn1.
  - destruct (onCompleted_again meeting snap2 reason2 segs2 now2 m1 Hin1) as (Hn2 & Hf2 & Hc2).
    set (m2 := onCompleted meeting snap2 reason2 segs2 now2 m1) in *.
    assert (completions m2 !! length (completions m) = Some (meeting, true)) as Hi2.
    { rewrite Hc2. rewrite lookup_app_l by (rewrite Hc1, length_app; cbn; lia). exact Hi. }
    destruct (resumeCompleted_spec _ true _ _ m2 Hi2) as (Hp & _).
    rewrite (finalizeCalls_posts _ _ _ Hp), Hn2. exact Hn1.
  - destruct (resumeCompleted_spec _ false _ _ m1 Hi) as (_ & Hf & _). cbn in Hf.
    rewrite Hf. exact Hout.
  - destruct (resumeCompleted_spec _ false _ _ m1 Hi) as (Hp & Hf & _). cbn in Hf.
    set (m2 := resumeCompleted _ false m1) in *.
    destruct (onCompleted_first meeting snap2 reason2 segs2 now2 m2) as (Hn2 & _).
    { rewrite Hf. exact Hout. }
    rewrite Hn2, (finalizeCalls_posts _ _ _ Hp), Hn1. reflexivity.
Qed.

(** *** Starting a session *)

Lemma listenAll_app meeting now es1 es2 m :
  listenAll meeting now (es1 ++ es2) m
  = listenAll meeting now es2 (listenAll meeting now es1 m).
Proof. unfold listenAll. apply fold_left_app. Qed.

(** C4.  With a session registered for a meeting id, [startSession] returns
    the session of the registered bot and leaves the registry as it is: no
    bot is created, no browser launched.  Whatever happens to the bot
    meanwhile, the session id it reports stays the same.  And the first call
    for a meeting registers its bot before it awaits the join, so a second
    call made before the join completes finds it. *)
Theorem startSession_is_idempotent m meeting r existing target sid path ext now :
  sessions m !! meeting = Some r ->
  bots m !! r = Some existing ->
  startSession meeting target sid path ext now m = (Returns (Bot.getSession existing), m)
  /\ (forall inputs,
        sessionId (Bot.getSession (fst (Bot.run inputs existing)))
        = sessionId (Bot.getSession existing))
  /\ (forall m0 target0 sid0 path0 now0,
        sessions m0 !! meeting = None ->
        let r0 := length (bots m0) in
        let m1 := snd (startSession meeting target0 sid0 path0 true now0 m0) in
        fst (startSession meeting target0 sid0 path0 true now0 m0) = Awaits r0
        /\ sessions m1 !! meeting = Some r0
        /\ (exists b, bots m1 !! r0 = Some b /\ sessionId (Bot.session b) = sid0)
        /\ length (bots m1) = S (length (bots m0))
        /\ browsers m1 = S (browsers m0)).
Proof.
  intros Hs Hb. split; [|split].
  - unfold startSession. rewrite Hs, Hb. reflexivity.
  - intros inputs. pose proof (BotProps.run_keeps_ids inputs existing) as H.
    unfold BotSpec.ids in H. injection H as H _. exact H.
  - intros m0 target0 sid0 path0 now0 Hnone. cbn zeta.
    unfold startSession. rewrite Hnone.
    unfold Bot.exec, Bot.join, Bot.bind, Bot.setStatus, Bot.modify, Bot.emit, Bot.effect.
    cbn -[insert lookup emitToBackend]. unfold listenAll.
    cbn -[insert lookup emitToBackend].
    match goal with
    | |- context [emitToBackend ?e ?x] =>
        destruct (emitToBackend_fields e x) as (_ & _ & _ & Hse & Hbo & Hbr & _);
        set (m2 := emitToBackend e x) in *
    end.
    cbn -[insert lookup] in Hse, Hbo, Hbr.
    split; [reflexivity|].
    split; [rewrite Hse; apply lookup_insert_eq|].
    split; [|split; [rewrite Hbo, length_insert, length_app; cbn; lia
                    | rewrite Hbr; reflexivity]].
    eexists. split.
    { rewrite Hbo. rewrite list_lookup_insert_eq by (rewrite length_app; cbn; lia).
      reflexivity. }
    reflexivity.
Qed.

(** *** The admission wait *)

Lemma forget_sessions_fields (l : list (string * nat)) : forall m,
  let m' := fold_left (fun acc c => set_sessions (delete (fst c) (sessions acc)) acc) l m in
  bots m' = bots m /\ posts m' = posts m
  /\ finalizedMeetings m' = finalizedMeetings m /\ completions m' = completions m.
Proof.
  induction l as [|c l IH]; intros m; cbn zeta; cbn [fold_left]; [auto|].
  destruct (IH (set_sessions (delete (fst c) (sessions m)) m)) as (H1 & H2 & H3 & H4).
  rewrite H1, H2, H3, H4. auto.
Qed.

Lemma settleCalls_fields r b m :
  let m' := settleCalls r b m in
  bots m' = bots m /\ posts m' = posts m
  /\ finalizedMeetings m' = finalizedMeetings m /\ completions m' = completions m.
Proof.
  unfold settleCalls. destruct (Bot.joinPc b); cbn zeta; auto.
  unfold set_calls. cbn [bots posts finalizedMeetings completions].
  apply forget_sessions_fields.
Qed.

(** A poll that leaves the bot as it is leaves the registry's bot, POSTs,
    finalized set and suspended listeners as they are. *)
Lemma deliver_idle r i now b m :
  bots m !! r = Some b -> Bot.exec (Bot.step i) b = (b, []) ->
  let m' := deliver r i now m in
  bots m' !! r = Some b /\ posts m' = posts m
  /\ finalizedMeetings m' = finalizedMeetings m /\ completions m' = completions m.
Proof.
  intros Hb Hex. unfold deliver. rewrite Hb, Hex. cbn [listenAll fold_left].
  destruct (settleCalls_fields r b (set_bots (<[r:=b]> (bots m)) m)) as (H1 & H2 & H3 & H4).
  cbn zeta in *. rewrite H1, H2, H3, H4. cbn [set_bots bots posts finalizedMeetings completions].
  rewrite list_insert_id by exact Hb. auto.
Qed.

Lemma pollAll_over r polls : forall m b,
  bots m !! r = Some b ->
  match Bot.joinPc b with Bot.Waiting _ _ => False | _ => True end ->
  let m' := pollAll r polls m in
  bots m' !! r = Some b /\ posts m' = posts m
  /\ finalizedMeetings m' = finalizedMeetings m /\ completions m' = completions m.
Proof.
  induction polls as [|t polls IH]; intros m b Hb Hpc; cbn zeta; [auto|].
  cbn [pollAll fold_left]. fold (pollAll r polls (deliver r (Bot.Poll t) t m)).
  destruct (deliver_idle r (Bot.Poll t) t b m Hb (BotProps.poll_over b t Hpc))
    as (H1 & H2 & H3 & H4).
  destruct (IH _ b H1 Hpc) as (K1 & K2 & K3 & K4).
  rewrite K2, K3, K4. auto.
Qed.

(** The poll that finds the timeout elapsed. *)
Lemma deliver_timeout r t b since timeout m :
  bots m !! r = Some b ->
  Bot.joinPc b = Bot.Waiting since timeout ->
  Bot.hasJoined (status (Bot.session b)) = false ->
  Bot.isFailed (status (Bot.session b)) = false ->
  (timeout <= t - since)%Z ->
  let m' := deliver r (Bot.Poll t) t m in
  exists b', bots m' !! r = Some b'
    /\ status (Bot.session b') = failed
    /\ error (Bot.session b') = Some BotSpec.joinFailure
    /\ match Bot.joinPc b' with Bot.Waiting _ _ => False | _ => True end
    /\ posts m' = posts m
    /\ finalizedMeetings m' = finalizedMeetings m
    /\ completions m' = completions m.
Proof.
  intros Hb Hpc Hj Hf Ht. unfold deliver. rewrite Hb.
  pose proof (BotProps.poll_timeout b since timeout t Hpc Hj Hf Ht) as P.
  destruct (Bot.exec (Bot.step (Bot.Poll t)) b) as [b' es].
  destruct P as (Hst & Herr & Hpc' & _ & _ & Hes).
  set (m1 := set_bots (<[r:=b']> (bots m)) m).
  assert (let m2 := listenAll (meetingId (Bot.session b)) t es m1 in
          bots m2 = bots m1 /\ posts m2 = posts m1
          /\ finalizedMeetings m2 = finalizedMeetings m1
          /\ completions m2 = completions m1) as L.
  { rewrite Hes. cbn zeta. cbn [listenAll fold_left listen].
    match goal with
    | |- context [emitToBackend ?e m1] =>
        destruct (emitToBackend_fields e m1) as (E1 & E2 & E3 & _ & E5 & _);
        set (m2 := emitToBackend e m1) in *
    end.
    destruct (Bot.context b); cbn [fold_left listen]; auto. }
  cbn zeta in L. destruct L as (L1 & L2 & L3 & L4).
  destruct (settleCalls_fields r b' (listenAll (meetingId (Bot.session b)) t es m1))
    as (H1 & H2 & H3 & H4).
  cbn zeta in *. exists b'. rewrite H1, H2, H3, H4, L1, L2, L3, L4.
  subst m1. cbn [set_bots bots posts finalizedMeetings completions].
  split; [apply list_lookup_insert_eq; apply lookup_lt_is_Some; eauto|].
  split; [exact Hst|]. split; [exact Herr|].
  split; [destruct Hpc' as [-> | ->]; exact I|]. auto.
Qed.

(** C5.  While a bot waits for admission with its status
    unresolved, polls that reach one at or past the timeout leave it failed
    with the fixed reason "Extension failed to join meeting" and no longer
    waiting; no POST is issued, the finalized set and the suspended
    completion listeners stay as they were. *)
Theorem join_timeout_fails polls : forall m r b since timeout,
  bots m !! r = Some b ->
  Bot.joinPc b = Bot.Waiting since timeout ->
  Bot.hasJoined (status (Bot.session b)) = false ->
  Bot.isFailed (status (Bot.session b)) = false ->
  Exists (fun t => (timeout <= t - since)%Z) polls ->
  let m' := pollAll r polls m in
  exists b', bots m' !! r = Some b'
    /\ status (Bot.session b') = failed
    /\ error (Bot.session b') = Some "Extension failed to join meeting"
    /\ match Bot.joinPc b' with Bot.Waiting _ _ => False | _ => True end
    /\ posts m' = posts m
    /\ finalizedMeetings m' = finalizedMeetings m
    /\ completions m' = completions m.
Proof.
  induction polls as [|t polls IH]; intros m r b since timeout Hb Hpc Hj Hf Hex; cbn zeta.
  { inversion Hex. }
  cbn [pollAll fold_left]. fold (pollAll r polls (deliver r (Bot.Poll t) t m)).
  destruct (Z.le_gt_cases timeout (t - since)) as [Hle | Hgt].
  - destruct (deliver_timeout r t b since timeout m Hb Hpc Hj Hf Hle)
      as (b' & Hb' & Hst & Herr & Hover & H2 & H3 & H4).
    destruct (pollAll_over r polls _ b' Hb' Hover) as (K1 & K2 & K3 & K4).
    exists b'. rewrite K2, K3, K4. auto 10.
  - apply Exists_cons in Hex as [Hnow | Hlater]; [lia|].
    assert (Bot.exec (Bot.step (Bot.Poll t)) b = (b, [])) as Hidle
      by (apply (BotProps.poll_early b since timeout); assumption || lia).
    destruct (deliver_idle r (Bot.Poll t) t b m Hb Hidle) as (H1 & H2 & H3 & H4).
    destruct (IH _ r b since timeout H1 Hpc Hj Hf Hlater)
      as (b' & Hb' & Hst & Herr & Hover & K2 & K3 & K4).
    exists b'. rewrite K2, K3, K4. auto 10.
Qed.

Lemma completed_twice_finalizes_once_witness :
  ("m1" ∉ finalizedMeetings connected)
  /\ finalizeCalls "m1"
       (listen "m1" 2000 sampleCompleted
          (resumeCompleted 0 true (listen "m1" 1000 sampleCompleted connected)))
     = 1.
Proof.
  split; [apply not_elem_of_empty|].
  exact (proj1 (completed_twice_finalizes_once connected "m1"
                  sampleSession "meeting_ended" [] 60000 1000
                  sampleSession "meeting_ended" [] 60000 2000
                  (not_elem_of_empty "m1"))).
Defined.

Lemma startSession_is_idempotent_witness :
  (sessions waitingRegistry !! "m1" = Some 0
   /\ bots waitingRegistry !! 0 = Some waitingBot)
  /\ startSession "m1" "https://meet.google.com/abc-defg-hij" "bot_2"
       "/opt/extension" true 5000 waitingRegistry
     = (Returns (Bot.getSession waitingBot), waitingRegistry)
  /\ sessionId (Bot.getSession waitingBot) = "bot_1".
Proof.
  split; [split; [apply lookup_singleton_eq | reflexivity]|].
  split; [|reflexivity].
  exact (proj1 (startSession_is_idempotent waitingRegistry "m1" 0 waitingBot
                  "https://meet.google.com/abc-defg-hij" "bot_2" "/opt/extension"
                  true 5000 (lookup_singleton_eq "m1" 0) eq_refl)).
Defined.

Lemma join_timeout_fails_witness :
  (bots waitingRegistry !! 0 = Some waitingBot
   /\ Bot.joinPc waitingBot = Bot.Waiting 0 120000
   /\ Exists (fun t => (120000 <= t - 0)%Z) [1000%Z; 60000%Z; 120000%Z])
  /\ exists b',
       bots (pollAll 0 [1000%Z; 60000%Z; 120000%Z] waitingRegistry) !! 0 = Some b'
       /\ status (Bot.session b') = failed
       /\ error (Bot.session b') = Some "Extension failed to join meeting"
       /\ posts (pollAll 0 [1000%Z; 60000%Z; 120000%Z] waitingRegistry) = [].
Proof.
  assert (Exists (fun t => (120000 <= t - 0)%Z) [1000%Z; 60000%Z; 120000%Z]) as Hex.
  { apply Exists_cons. right. apply Exists_cons. right. apply Exists_cons. left. lia. }
  split; [split; [reflexivity | split; [reflexivity | exact Hex]]|].
  destruct (join_timeout_fails [1000%Z; 60000%Z; 120000%Z] waitingRegistry 0
              waitingBot 0%Z 120000%Z eq_refl eq_refl eq_refl eq_refl Hex)
    as (b' & Hb & Hst & Herr & _ & Hp & _).
  exists b'. split; [exact Hb|]. split; [exact Hst|]. split; [exact Herr | exact Hp].
Defined.

(** C5, with a reason that mentions the timeout, fails: the bot whose
    admission wait ran into the timeout is failed, and its reason does not
    speak of a timeout. *)
Lemma timeout_reason_is_generic :
  ~ BotSpec.failedOnTimeout (fst (Bot.exec (Bot.step (Bot.Poll 120000)) waitingBot)).
Proof.
  intros [_ (reason & Herr & Hm)].
  vm_compute in Herr. injection Herr as <-. vm_compute in Hm. discriminate Hm.
Qed.

End RegistryProps.

(* ===================================================================== *)
(** ** Further properties of the segment manager *)
(* ===================================================================== *)

Module ScraperFacts.
Import JS Store Types Scraper ScraperSpec ScraperNotions StoreProps ScraperProps.

Lemma map_get_delete_eq {V : Type} (k : string) (m : list (string * V)) :
  map_get k (map_delete k m) = None.
Proof.
  induction m as [|[k' a] m IH]; simpl; [reflexivity|].
  destruct (String.eqb k k') eqn:E; simpl; [exact IH|]. rewrite E. exact IH.
Qed.

Lemma map_get_delete_ne {V : Type} (k k' : string) (m : list (string * V)) :
  k' <> k -> map_get k' (map_delete k m) = map_get k' m.
Proof.
  intros Hne. induction m as [|[k0 a] m IH]; simpl; [reflexivity|].
  destruct (String.eqb k k0) eqn:E; simpl.
  - apply String.eqb_eq in E. subst k0. apply String.eqb_neq in Hne. rewrite Hne. exact IH.
  - rewrite IH. reflexivity.
Qed.

Lemma map_delete_length_eq {V : Type} (k : string) (a : V) (m : list (string * V)) :
  NoDup (map fst m) -> map_get k m = Some a -> S (length (map_delete k m)) = length m.
Proof.
  induction m as [|[k' b] m IH]; simpl; [intros _ H; discriminate H|].
  intros Hnd Hget. apply NoDup_cons in Hnd as [Hk Hnd].
  destruct (String.eqb k k') eqn:E; simpl.
  - apply String.eqb_eq in E. subst k'. rewrite map_delete_absent by exact Hk. reflexivity.
  - rewrite (IH Hnd Hget). reflexivity.
Qed.

Lemma map_set_length_eq {V : Type} (k : string) (x : V) (m : list (string * V)) :
  length (map_set k x m)
  = length m + match map_get k m with Some _ => 0 | None => 1 end.
Proof.
  induction m as [|[k' b] m IH]; simpl; [reflexivity|].
  destruct (String.eqb k k'); simpl; [lia|]. rewrite IH. lia.
Qed.

Lemma map_set_absent {V : Type} (k : string) (x : V) (m : list (string * V)) :
  map_get k m = None -> map_set k x m = m ++ [(k, x)].
Proof.
  induction m as [|[k' b] m IH]; simpl; [reflexivity|].
  destruct (String.eqb k k'); [intros H; discriminate H|].
  intros H. rewrite (IH H). reflexivity.
Qed.

Lemma readActive_delete {A} (h : list A) (k : string) (act : list (string * nat)) :
  readActive h (map_delete k act) = map_delete k (readActive h act).
Proof.
  induction act as [|[k' r] act IH]; [reflexivity|].
  cbn [map_delete]. rewrite (readActive_cons h k' r act).
  destruct (String.eqb k k') eqn:E.
  - destruct (h !! r); [|exact IH]. cbn [map_delete]. rewrite E. exact IH.
  - rewrite readActive_cons. destruct (h !! r); [|exact IH].
    cbn [map_delete]. rewrite E, IH. reflexivity.
Qed.

Lemma pushAll_length rs : forall m,
  Forall (fun r => r < length (heap m)) rs ->
  length (segments (fold_left (fun acc r => pushCopy r acc) rs m))
  = length (segments m) + length rs.
Proof.
  induction rs as [|r rs IH]; intros m Hall; cbn [fold_left length]; [lia|].
  apply Forall_cons in Hall as [Hr Hall].
  destruct (lookup_lt_is_Some_2 _ _ Hr) as [e He].
  rewrite IH.
  - rewrite (pushCopy_spec r m e He). cbn [segments]. rewrite length_app. cbn [length]. lia.
  - rewrite (pushCopy_spec r m e He). cbn [heap]. rewrite length_app.
    eapply Forall_impl; [exact Hall|]. intros c Hc. cbn beta in *. lia.
Qed.

Lemma startTime_apply o m : startTime (apply o m) = startTime m.
Proof.
  destruct o as [spk txt now | spk | | ]; cbn [apply].
  - unfold addCaption. destruct (map_get spk (activeSegments m)); reflexivity.
  - unfold finalizeSegment. destruct (map_get spk (activeSegments m)) as [r|]; [|reflexivity].
    cbn [snd startTime]. unfold pushCopy. destruct (heap m !! r); reflexivity.
  - reflexivity.
  - unfold markFlushed. cbn [startTime].
    destruct (pushAll_fields (map_values (activeSegments m)) m) as (_ & _ & H). exact H.
Qed.

Lemma startTime_applyAll os : forall m, startTime (applyAll os m) = startTime m.
Proof.
  induction os as [|o os IH]; intros m; [reflexivity|].
  cbn [applyAll fold_left]. fold (applyAll os (apply o m)).
  rewrite IH. apply startTime_apply.
Qed.

(** [finalizeSegment] by value. *)
Lemma finalizeSegment_view spk m :
  wf m ->
  view (snd (finalizeSegment spk m))
  = (fst (view m) ++ optList (map_get spk (snd (view m))),
     map_delete spk (snd (view m))).
Proof.
  intros ((Hsegs & Hact & Hnd & Hsep) & Hkeys & Hfc).
  unfold view, finalizeSegment. cbn [fst snd].
  rewrite map_get_readActive by assumption.
  destruct (map_get spk (activeSegments m)) as [r|] eqn:E; cbn [snd].
  - pose proof (map_get_elem _ _ _ E) as Hin.
    assert (r < length (heap m)) as Hr by (rewrite Forall_forall in Hact; auto).
    destruct (lookup_lt_is_Some_2 _ _ Hr) as [e He]. rewrite He.
    rewrite (pushCopy_spec r m e He). cbn [heap segments activeSegments optList].
    rewrite readActive_delete. rewrite readActive_grow by assumption.
    rewrite readAll_app, readAll_grow by assumption.
    rewrite readAll_cons. rewrite lookup_app_r by lia. rewrite Nat.sub_diag.
    reflexivity.
  - cbn [optList]. rewrite app_nil_r.
    rewrite (map_delete_absent spk (readActive (heap m) (activeSegments m))); [reflexivity|].
    apply map_get_None_keys. rewrite map_get_readActive by assumption. rewrite E. reflexivity.
Qed.

(** X1.  [getCount()] is the length of [getAllSegments()] in every state a
    manager can reach; [finalizeSegment] and [markFlushed] leave it as it is,
    and [addCaption] raises it by one exactly when the speaker has no active
    segment. *)
Theorem getCount_is_conserved created history spk txt now :
  let m := applyAll history (create created) in
  getCount m = length (getAllSegments m)
  /\ getCount (snd (finalizeSegment spk m)) = getCount m
  /\ getCount (markFlushed m) = getCount m
  /\ getCount (addCaption spk txt now m)
     = getCount m + match map_get spk (activeSegments m) with Some _ => 0 | None => 1 end.
Proof.
  cbn zeta. pose proof (wf_applyAll history _ (wf_create created)) as Hwf.
  set (m := applyAll history (create created)) in *.
  destruct Hwf as ((Hsegs & Hact & Hnd & Hsep) & Hkeys & Hfc).
  split; [|split; [|split]].
  - unfold getCount, getAllSegments, map_values. rewrite length_app, length_map. reflexivity.
  - unfold getCount, finalizeSegment.
    destruct (map_get spk (activeSegments m)) as [r|] eqn:E; cbn [snd]; [|reflexivity].
    pose proof (map_get_elem _ _ _ E) as Hin.
    assert (r < length (heap m)) as Hr by (rewrite Forall_forall in Hact; auto).
    destruct (lookup_lt_is_Some_2 _ _ Hr) as [e He].
    rewrite (pushCopy_spec r m e He). cbn [segments activeSegments].
    rewrite length_app. cbn [length].
    pose proof (map_delete_length_eq spk r (activeSegments m) Hkeys E). lia.
  - unfold getCount, markFlushed. cbn [segments activeSegments length].
    rewrite pushAll_length by exact Hact. unfold map_values. rewrite length_map. lia.
  - unfold getCount, addCaption.
    destruct (map_get spk (activeSegments m)) as [r|] eqn:E; cbn [segments activeSegments]; [lia|].
    rewrite map_set_length_eq, E. lia.
Qed.

(** X2.  [finalizeSegment(speaker)] moves the speaker's active segment,
    unchanged, to the end of the finalized list and returns it; all other
    segments stay where they are.  A second call for the same speaker returns
    null and changes nothing. *)
Theorem finalizeSegment_moves_one_segment created history spk :
  let m := applyAll history (create created) in
  let m' := snd (finalizeSegment spk m) in
  view m' = (fst (view m) ++ optList (map_get spk (snd (view m))),
             map_delete spk (snd (view m)))
  /\ match fst (finalizeSegment spk m) with
     | Some r => heap m' !! r
     | None => None
     end = map_get spk (snd (view m))
  /\ finalizeSegment spk m' = (None, m').
Proof.
  cbn zeta. pose proof (wf_applyAll history _ (wf_create created)) as Hwf.
  set (m := applyAll history (create created)) in *.
  split; [apply finalizeSegment_view; exact Hwf|].
  destruct Hwf as ((Hsegs & Hact & Hnd & Hsep) & Hkeys & Hfc).
  split.
  - unfold view. cbn [snd]. rewrite map_get_readActive by assumption.
    unfold finalizeSegment.
    destruct (map_get spk (activeSegments m)) as [r|] eqn:E; cbn [fst snd]; [|reflexivity].
    pose proof (map_get_elem _ _ _ E) as Hin.
    assert (r < length (heap m)) as Hr by (rewrite Forall_forall in Hact; auto).
    destruct (lookup_lt_is_Some_2 _ _ Hr) as [e He].
    rewrite (pushCopy_spec r m e He). cbn [heap].
    apply lookup_app_l. exact Hr.
  - unfold finalizeSegment at 1.
    assert (map_get spk (activeSegments (snd (finalizeSegment spk m))) = None) as ->; [|reflexivity].
    unfold finalizeSegment.
    destruct (map_get spk (activeSegments m)) as [r|] eqn:E; cbn [snd activeSegments]; [|exact E].
    apply map_get_delete_eq.
Qed.

(** X3.  After [finalizeSegment(speaker)], the next [addCaption] for that
    speaker does not extend the finalized segment: it opens a new active
    segment that starts and ends at the elapsed time of the call. *)
Theorem addCaption_after_finalize_opens_new created history spk txt now :
  let m := applyAll history (create created) in
  let m' := addCaption spk txt now (snd (finalizeSegment spk m)) in
  let t := (now - created)%Z in
  view m' = (fst (view m) ++ optList (map_get spk (snd (view m))),
             map_delete spk (snd (view m)) ++ [(spk, mkSegment spk txt t t)]).
Proof.
  cbn zeta. pose proof (wf_applyAll history _ (wf_create created)) as Hwf.
  pose proof (startTime_applyAll history (create created)) as Hst. cbn [startTime create] in Hst.
  set (m := applyAll history (create created)) in *.
  rewrite addCaption_view by (apply wf_finalizeSegment; exact Hwf).
  rewrite finalizeSegment_view by exact Hwf. cbn [fst snd].
  f_equal. unfold addCaptionV. rewrite map_get_delete_eq.
  rewrite map_set_absent by apply map_get_delete_eq.
  assert (startTime (snd (finalizeSegment spk m)) = created) as ->; [|reflexivity].
  rewrite <- Hst. apply (startTime_apply (FinalizeSegment spk) m).
Qed.

(** X4.  [markFlushed()] drops no segment and changes none (finalized
    first, then the active ones in their order), and calling it twice is the
    same as calling it once. *)
Theorem markFlushed_keeps_every_segment created history :
  let m := applyAll history (create created) in
  allValues (markFlushed m) = allValues m
  /\ markFlushed (markFlushed m) = markFlushed m.
Proof.
  cbn zeta. pose proof (wf_applyAll history _ (wf_create created)) as Hwf.
  set (m := applyAll history (create created)) in *.
  split.
  - rewrite !allValues_view, markFlushed_view by exact Hwf. cbn [fst snd map].
    rewrite app_nil_r. reflexivity.
  - reflexivity.
Qed.

(** Every object in the store is well timed and ends by the reading [t]. *)
Lemma timed_apply o m t t' :
  (startTime m <= t <= t')%Z ->
  match o with AddCaption _ _ now => now = t' | _ => True end ->
  Forall (fun s => wellTimed s /\ (end_ s <= t - startTime m)%Z) (heap m) ->
  Forall (fun s => wellTimed s /\ (end_ s <= t' - startTime m)%Z) (heap (apply o m)).
Proof.
  intros Ht Ho Hall.
  assert (Forall (fun s => wellTimed s /\ (end_ s <= t' - startTime m)%Z) (heap m)) as Hall'.
  { eapply Forall_impl; [exact Hall|]. intros s [Hs He]. split; [exact Hs | lia]. }
  clear Hall. destruct o as [spk txt now | spk | | ]; cbn [apply].
  - subst now. unfold addCaption.
    destruct (map_get spk (activeSegments m)) as [r|]; cbn [heap].
    + apply Forall_alter; [exact Hall'|]. intros s _ [[H0 Hs] He].
      unfold wellTimed. cbn [start end_]. split; [lia|lia].
    + apply Forall_app. split; [exact Hall'|]. apply Forall_singleton.
      unfold wellTimed. cbn [start end_]. lia.
  - unfold finalizeSegment. destruct (map_get spk (activeSegments m)) as [r|]; [|exact Hall'].
    cbn [snd heap]. unfold pushCopy. destruct (heap m !! r) as [e|] eqn:He; [|exact Hall'].
    cbn [heap]. apply Forall_app. split; [exact Hall'|]. apply Forall_singleton.
    rewrite Forall_forall in Hall'. apply Hall'. apply list_elem_of_lookup. eauto.
  - exact Hall'.
  - unfold markFlushed. cbn [heap].
    generalize (map_values (activeSegments m)). intros rs.
    assert (forall m0, startTime m0 = startTime m ->
              Forall (fun s => wellTimed s /\ (end_ s <= t' - startTime m)%Z) (heap m0) ->
              Forall (fun s => wellTimed s /\ (end_ s <= t' - startTime m)%Z)
                     (heap (fold_left (fun acc r => pushCopy r acc) rs m0))) as K.
    { induction rs as [|r rs IH]; intros m0 Hst H0; cbn [fold_left]; [exact H0|].
      apply IH.
      - unfold pushCopy. destruct (heap m0 !! r); exact Hst.
      - unfold pushCopy. destruct (heap m0 !! r) as [e|] eqn:He; [|exact H0].
        cbn [heap]. apply Forall_app. split; [exact H0|]. apply Forall_singleton.
        rewrite Forall_forall in H0. apply H0. apply list_elem_of_lookup. eauto. }
    apply K; [reflexivity | exact Hall'].
Qed.

Lemma timed_applyAll os : forall m t,
  inOrder t os = true -> (startTime m <= t)%Z ->
  Forall (fun s => wellTimed s /\ (end_ s <= t - startTime m)%Z) (heap m) ->
  Forall wellTimed (heap (applyAll os m)).
Proof.
  induction os as [|o os IH]; intros m t Hord Ht Hall.
  { eapply Forall_impl; [exact Hall|]. intros s [Hs _]. exact Hs. }
  cbn [applyAll fold_left]. fold (applyAll os (apply o m)).
  destruct o as [spk txt now | spk | | ]; cbn [inOrder] in Hord.
  - apply andb_true_iff in Hord as [Hle Hord]. apply Z.leb_le in Hle.
    apply (IH _ now Hord).
    + rewrite startTime_apply. lia.
    + rewrite startTime_apply. apply (timed_apply _ m t now); [lia | reflexivity | exact Hall].
  - apply (IH _ t Hord); rewrite startTime_apply; [exact Ht|].
    apply (timed_apply _ m t t); [lia | exact I | exact Hall].
  - apply (IH _ t Hord); [exact Ht | exact Hall].
  - apply (IH _ t Hord); rewrite startTime_apply; [exact Ht|].
    apply (timed_apply _ m t t); [lia | exact I | exact Hall].
Qed.

Lemma readAll_Forall {A} (P : A -> Prop) (h : list A) (rs : list nat) :
  Forall P h -> Forall P (readAll h rs).
Proof.
  intros H. apply Forall_forall. intros s Hs. unfold readAll in Hs.
  apply list_elem_of_omap in Hs as (r & _ & Hr).
  rewrite Forall_forall in H. apply H. apply list_elem_of_lookup. eauto.
Qed.

(** X5.  When the clock readings of the [addCaption] calls never go back,
    from the creation of the manager on, every segment of the manager,
    finalized or active, has 0 <= start <= end. *)
Theorem segments_start_before_they_end created ops :
  inOrder created ops = true ->
  Forall wellTimed (allValues (applyAll ops (create created))).
Proof.
  intros Hord. apply readAll_Forall.
  apply (timed_applyAll ops (create created) created Hord).
  - cbn. lia.
  - apply Forall_nil_2.
Qed.

Lemma segments_start_before_they_end_witness :
  let ops := [AddCaption "Alice" "Hello" 1500; AddCaption "Bob" "Hi" 2000;
              FinalizeSegment "Alice"; AddCaption "Bob" "Hi all" 2600; MarkFlushed]%Z in
  inOrder 1000 ops = true
  /\ Forall wellTimed (allValues (applyAll ops (create 1000))).
Proof.
  split; [reflexivity|]. apply segments_start_before_they_end. reflexivity.
Defined.

End ScraperFacts.

(* ===================================================================== *)
(** ** Further properties of the agent *)
(* ===================================================================== *)

Module AgentFacts.
Import JS Store Agent AgentSpec AgentNotions StoreProps AgentProps.

(** *** The steps that capture nothing *)

Lemma capture_leaveMeeting reason p : capture (leaveMeeting reason p) = capture p.
Proof. reflexivity. Qed.

Lemma capture_resumeLeave now found p : capture (resumeLeave now found p) = capture p.
Proof. unfold resumeLeave. destruct (suspended p) as [|[reason final] rest]; reflexivity. Qed.

Lemma agent_run_snoc v es e p : run v (es ++ [e]) p = step v e (run v es p).
Proof. unfold run. rewrite fold_left_app. reflexivity. Qed.

(** The two outcomes of the segment management. *)
Lemma mergeOrCreate_cases v seg b h :
  let bh := mergeOrCreate v seg b h in
  (exists r e, map_get (speaker seg) (activeSegments b) = Some r /\ h !! r = Some e
     /\ snd bh = <[r := merged v e seg]> h
     /\ segments (fst bh) = segments b
     /\ activeSegments (fst bh) = activeSegments b)
  \/ (snd bh = h ++ [seg]
      /\ segments (fst bh)
         = segments b ++ match map_get (speaker seg) (activeSegments b) with
                         | Some r => match h !! r with Some _ => [r] | None => [] end
                         | None => []
                         end
      /\ activeSegments (fst bh) = map_set (speaker seg) (length h) (activeSegments b)).
Proof.
  cbn zeta. unfold mergeOrCreate, deref.
  destruct (map_get (speaker seg) (activeSegments b)) as [r|] eqn:G.
  - destruct (h !! r) as [e|] eqn:He.
    + destruct (startsWith (text seg) (substring0 20 (text e))).
      * left. exists r, e. repeat split; try reflexivity. exact He.
      * right. repeat split; reflexivity.
    + right. repeat split; reflexivity.
  - right. repeat split; reflexivity.
Qed.

(** *** Numbering of the captions *)

Lemma captionIndexes_app l1 l2 :
  captionIndexes (l1 ++ l2) = captionIndexes l1 ++ captionIndexes l2.
Proof. apply omap_app. Qed.

Lemma numbered_processCaption v n now p :
  numbered p -> numbered (processCaption v n now p).
Proof.
  unfold numbered, processCaption.
  destruct (getSpeaker v n (lastSpeaker p)) as [spk last].
  cbn [with_lastSpeaker botState lastCaption outbox].
  destruct (rejected v spk (getText n) (lastCaption (botState p))); [auto|].
  destruct (isExitPhrase v (getText n)).
  { intros H. cbn. rewrite captionIndexes_app, H. cbn. apply app_nil_r. }
  intros H.
  match goal with
  | |- context [mergeOrCreate ?a ?s ?b ?h] =>
      pose proof (mergeOrCreate_fields a s b h) as F;
      destruct (mergeOrCreate a s b h) as [b2 h2]
  end.
  cbn [fst] in F. destruct F as (_ & F & _).
  cbn [sendMessage outbox botState]. rewrite captionIndexes_app, H, F.
  cbn [segmentCount captionIndexes omap list_omap index]. 
  rewrite seq_S. reflexivity.
Qed.

Lemma numbered_observerCallback v batch : forall p,
  numbered p -> numbered (observerCallback v batch p).
Proof.
  induction batch as [|[n now] batch IH]; intros p H; [exact H|].
  cbn [observerCallback]. apply IH. apply numbered_processCaption. exact H.
Qed.

Lemma numbered_frame p q :
  segmentCount (botState q) = segmentCount (botState p) ->
  captionIndexes (outbox q) = captionIndexes (outbox p) ->
  numbered p -> numbered q.
Proof. unfold numbered. intros -> ->. auto. Qed.

Lemma numbered_leaveMeeting reason p : numbered p -> numbered (leaveMeeting reason p).
Proof.
  apply numbered_frame; [reflexivity|]. cbn. rewrite captionIndexes_app. cbn. apply app_nil_r.
Qed.

Lemma numbered_step v e p : numbered p -> numbered (step v e p).
Proof.
  intros H. destruct e as [batch | now found | | ended | | now]; cbn [step].
  - destruct (captionObserver (botState p)) as [[|]|]; [|exact H|exact H].
    apply numbered_observerCallback. exact H.
  - unfold resumeLeave. destruct (suspended p) as [|[reason final] rest]; [exact H|].
    revert H. apply numbered_frame; [reflexivity|]. cbn. rewrite captionIndexes_app. cbn.
    apply app_nil_r.
  - destruct (isActive (botState p)); [|exact H]. apply numbered_leaveMeeting. exact H.
  - destruct (checkEnd p && ended); [|exact H]. apply numbered_leaveMeeting. exact H.
  - destruct (maxDurationTimer p); [|exact H]. apply numbered_leaveMeeting. exact H.
  - destruct (flushTimer (botState p)) as [[|]|]; [|exact H|exact H].
    destruct (readAll (heap p) (map_values (activeSegments (botState p)))); [exact H|].
    revert H. apply numbered_frame; [reflexivity|]. cbn. rewrite captionIndexes_app. cbn.
    apply app_nil_r.
Qed.

(** X6.  The caption messages an agent sends carry the indexes 1, 2, 3, ... in
    the order they are sent, and [segmentCount] is their number. *)
Theorem captions_are_numbered v started es :
  let p := run v es (recording v started) in
  captionIndexes (outbox p) = seq 1 (segmentCount (botState p)).
Proof.
  cbn zeta. induction es as [|e es IH] using rev_ind; [reflexivity|].
  rewrite agent_run_snoc. apply numbered_step. exact IH.
Qed.

(** *** After a leave *)

Lemma stopped_leaveMeeting reason p : stopped (leaveMeeting reason p).
Proof.
  unfold stopped, leaveMeeting. cbn.
  destruct (captionObserver (botState p)), (flushTimer (botState p)); split; congruence.
Qed.

Lemma stopped_keeps_leaveMeeting reason p : stopped p -> stopped (leaveMeeting reason p).
Proof. intros _. apply stopped_leaveMeeting. Qed.

Lemma data_leaveMeeting reason p :
  List.filter isData (outbox (leaveMeeting reason p)) = List.filter isData (outbox p).
Proof. cbn. rewrite List.filter_app. cbn. apply app_nil_r. Qed.

Lemma stopped_step v e p :
  stopped p ->
  stopped (step v e p)
  /\ capture (step v e p) = capture p
  /\ List.filter isData (outbox (step v e p)) = List.filter isData (outbox p).
Proof.
  intros H. pose proof H as [Ho Hf].
  assert (stopped p /\ capture p = capture p
          /\ List.filter isData (outbox p) = List.filter isData (outbox p)) as Same
    by (split; [exact H | split; reflexivity]).
  destruct e as [batch | now found | | ended | | now]; cbn [step].
  - destruct (captionObserver (botState p)) as [[|]|] eqn:E; [congruence | exact Same | exact Same].
  - unfold resumeLeave. destruct (suspended p) as [|[reason final] rest]; [exact Same|].
    split; [exact H|]. split; [reflexivity|].
    cbn. rewrite List.filter_app. cbn. apply app_nil_r.
  - destruct (isActive (botState p)); [|exact Same].
    split; [apply stopped_leaveMeeting|]. split; [reflexivity | apply data_leaveMeeting].
  - destruct (checkEnd p && ended); [|exact Same].
    split; [apply stopped_leaveMeeting|]. split; [reflexivity|].
    exact (data_leaveMeeting "meeting_ended" (with_timers false (maxDurationTimer p) p)).
  - destruct (maxDurationTimer p); [|exact Same].
    split; [apply stopped_leaveMeeting|]. split; [reflexivity|].
    exact (data_leaveMeeting "max_duration" (with_timers (checkEnd p) false p)).
  - destruct (flushTimer (botState p)) as [[|]|] eqn:E; [congruence | exact Same | exact Same].
Qed.

Lemma stopped_run v es : forall p,
  stopped p ->
  capture (run v es p) = capture p
  /\ List.filter isData (outbox (run v es p)) = List.filter isData (outbox p).
Proof.
  induction es as [|e es IH]; intros p H; [split; reflexivity|].
  cbn [run fold_left]. fold (run v es (step v e p)).
  destruct (stopped_step v e p H) as (S1 & C1 & D1).
  destruct (IH _ S1) as (C2 & D2). rewrite C2, D2, C1, D1. split; reflexivity.
Qed.

Lemma stopped_processCaption v n now p :
  stopped p -> stopped (processCaption v n now p).
Proof.
  unfold stopped, processCaption.
  destruct (getSpeaker v n (lastSpeaker p)) as [spk last].
  cbn [with_lastSpeaker botState lastCaption].
  destruct (rejected v spk (getText n) (lastCaption (botState p))); [auto|].
  destruct (isExitPhrase v (getText n)).
  { intros _. exact (stopped_leaveMeeting "exit_phrase" (with_lastSpeaker last p)). }
  match goal with
  | |- context [mergeOrCreate ?a ?s ?b ?h] =>
      pose proof (mergeOrCreate_fields a s b h) as F;
      destruct (mergeOrCreate a s b h) as [b2 h2]
  end.
  cbn [fst] in F. destruct F as (_ & _ & _ & F1 & F2 & _).
  cbn [sendMessage botState]. rewrite F1, F2. cbn [captionObserver flushTimer]. auto.
Qed.

Lemma stopped_observerCallback v batch : forall p,
  stopped p -> stopped (observerCallback v batch p).
Proof.
  induction batch as [|[n now] batch IH]; intros p H; [exact H|].
  cbn [observerCallback]. apply IH, stopped_processCaption, H.
Qed.

Lemma stopped_run_stays v es : forall p, stopped p -> stopped (run v es p).
Proof.
  induction es as [|e es IH]; intros p H; [exact H|].
  cbn [run fold_left]. fold (run v es (step v e p)).
  apply IH. exact (proj1 (stopped_step v e p H)).
Qed.

(** X7.  Once the caption observer is disconnected and the flush interval
    cleared, no event of the running session (observer batches, flush ticks,
    the meeting-end check, the max-duration timer, stop commands, the rest of
    [leaveMeeting] calls) creates or changes a segment or sends a caption or
    flush message, and the page stays that way.  A start command is not among
    these events: the page answers it with another [runBot].  Every
    [leaveMeeting] call leaves the page in that state.  The observer callback
    that made the call still goes through the rest of its batch, which can
    create segments; it leaves the observer disconnected and the interval
    cleared. *)
Theorem nothing_is_captured_once_stopped v p es :
  stopped p ->
  (capture (run v es p) = capture p
   /\ List.filter isData (outbox (run v es p)) = List.filter isData (outbox p)
   /\ stopped (run v es p))
  /\ (forall batch, stopped (observerCallback v batch p))
  /\ (forall reason p0, stopped (leaveMeeting reason p0)).
Proof.
  intros H. destruct (stopped_run v es p H) as [C D].
  split; [split; [exact C | split; [exact D | apply stopped_run_stays, H]]|].
  split; [intros batch; apply stopped_observerCallback, H|].
  intros reason p0. apply stopped_leaveMeeting.
Qed.

Lemma nothing_is_captured_once_stopped_witness :
  let p := leaveMeeting "user_requested"
             (observerCallback V2 growingBatch (recording V2 0)) in
  let es := [Mutations [(fragment "Bob" "Something else entirely", 9000%Z)];
             FlushTick 10000; CheckEndTick true; ResumeLeave 11000 true] in
  stopped p /\ capture (run V2 es p) = capture p.
Proof.
  cbn zeta.
  assert (stopped (leaveMeeting "user_requested"
                     (observerCallback V2 growingBatch (recording V2 0)))) as H
    by apply stopped_leaveMeeting.
  split; [exact H|].
  exact (proj1 (proj1 (nothing_is_captured_once_stopped V2 _
                         [Mutations [(fragment "Bob" "Something else entirely", 9000%Z)];
                          FlushTick 10000; CheckEndTick true; ResumeLeave 11000 true] H))).
Defined.

(** *** Every segment object is delivered *)

Lemma map_set_values_present {V : Type} (k : string) (x r : V) (m : list (string * V)) :
  map_get k m = Some r ->
  exists l1 l2, map_values m = l1 ++ r :: l2 /\ map_values (map_set k x m) = l1 ++ x :: l2.
Proof.
  unfold map_values. induction m as [|[k' a] m IH]; simpl; [intros H; discriminate H|].
  destruct (String.eqb k k'); intros H.
  - injection H as ->. exists [], (map snd m). split; reflexivity.
  - destruct (IH H) as (l1 & l2 & H1 & H2). exists (a :: l1), l2.
    simpl. rewrite H1, H2. split; reflexivity.
Qed.

Lemma map_set_values_absent {V : Type} (k : string) (x : V) (m : list (string * V)) :
  map_get k m = None -> map_values (map_set k x m) = map_values m ++ [x].
Proof.
  unfold map_values. induction m as [|[k' a] m IH]; simpl; [reflexivity|].
  destruct (String.eqb k k'); [intros H; discriminate H|].
  intros H. simpl. rewrite (IH H). reflexivity.
Qed.

Lemma complete_mergeOrCreate v seg b h :
  wfRefs h (segments b) (activeSegments b) ->
  finalSegments b ≡ₚ seq 0 (length h) ->
  let bh := mergeOrCreate v seg b h in
  finalSegments (fst bh) ≡ₚ seq 0 (length (snd bh)).
Proof.
  intros (Hsegs & Hact & Hnd & Hsep) Hperm. cbn zeta.
  destruct (mergeOrCreate_cases v seg b h) as [(r & e & G & He & Hh & Hs & Ha) | (Hh & Hs & Ha)].
  - unfold finalSegments. rewrite Hh, Hs, Ha, length_insert. exact Hperm.
  - unfold finalSegments in *. rewrite Hh, Hs, Ha, length_app. cbn [length].
    rewrite Nat.add_1_r, seq_S. cbn [Nat.add].
    destruct (map_get (speaker seg) (activeSegments b)) as [r|] eqn:G.
    + pose proof (map_get_elem _ _ _ G) as Hin.
      assert (r < length h) as Hr by (rewrite Forall_forall in Hact; auto).
      destruct (lookup_lt_is_Some_2 _ _ Hr) as [e He]. rewrite He.
      destruct (map_set_values_present (speaker seg) (length h) r _ G) as (l1 & l2 & H1 & H2).
      rewrite H2. rewrite H1 in Hperm. rewrite <- Hperm.
      rewrite <- !app_assoc. apply Permutation_app_head. cbn [app].
      rewrite <- (Permutation_middle l1 (l2 ++ [length h]) r).
      apply Permutation_skip. apply Permutation_app_head. apply Permutation_cons_append.
    + rewrite app_nil_r, (map_set_values_absent _ _ _ G), app_assoc.
      apply Permutation_app_tail. exact Hperm.
Qed.

Lemma complete_processCaption v n now p :
  wf p -> complete p -> complete (processCaption v n now p).
Proof.
  unfold complete, wf, processCaption.
  destruct (getSpeaker v n (lastSpeaker p)) as [spk last].
  cbn [with_lastSpeaker botState lastCaption heap].
  destruct (rejected v spk (getText n) (lastCaption (botState p))); [auto|].
  destruct (isExitPhrase v (getText n)); [auto|].
  intros Hwf Hc.
  match goal with
  | |- context [mergeOrCreate ?a ?s ?b ?h] =>
      pose proof (complete_mergeOrCreate a s b h Hwf Hc) as F;
      destruct (mergeOrCreate a s b h) as [b2 h2]
  end.
  exact F.
Qed.

Lemma complete_observerCallback v batch : forall p,
  wf p -> complete p ->
  wf (observerCallback v batch p) /\ complete (observerCallback v batch p).
Proof.
  induction batch as [|[n now] batch IH]; intros p Hwf Hc; [split; assumption|].
  cbn [observerCallback]. apply IH.
  - exact (proj1 (processCaption_view v n now p Hwf)).
  - apply complete_processCaption; assumption.
Qed.

Lemma complete_step v e p :
  wf p -> complete p -> wf (step v e p) /\ complete (step v e p).
Proof.
  intros Hwf Hc. destruct e as [batch | now found | | ended | | now]; cbn [step].
  - destruct (captionObserver (botState p)) as [[|]|]; [|split; assumption|split; assumption].
    apply complete_observerCallback; assumption.
  - unfold resumeLeave. destruct (suspended p) as [|[reason final] rest]; split; assumption.
  - destruct (isActive (botState p)); split; assumption.
  - destruct (checkEnd p && ended); split; assumption.
  - destruct (maxDurationTimer p); split; assumption.
  - destruct (flushTimer (botState p)) as [[|]|]; [|split; assumption|split; assumption].
    destruct (readAll (heap p) (map_values (activeSegments (botState p)))); split; assumption.
Qed.

Lemma readAll_seq {A} (h : list A) : readAll h (seq 0 (length h)) = h.
Proof.
  induction h as [|x h IH] using rev_ind; [reflexivity|].
  rewrite length_app. cbn [length]. rewrite Nat.add_1_r, seq_S, readAll_app. cbn [Nat.add].
  rewrite readAll_grow.
  - rewrite IH, readAll_cons. rewrite lookup_app_r by lia. rewrite Nat.sub_diag. reflexivity.
  - apply Forall_forall. intros r Hr. apply elem_of_seq in Hr. lia.
Qed.

Lemma reachable_complete v started es :
  wf (run v es (recording v started)) /\ complete (run v es (recording v started)).
Proof.
  induction es as [|e es IH] using rev_ind.
  - split; [apply wf_recording | unfold complete; cbn; reflexivity].
  - rewrite agent_run_snoc. destruct IH as [W C]. apply complete_step; assumption.
Qed.

Lemma complete_values p : complete p -> finalValues p ≡ₚ heap p.
Proof.
  unfold complete, finalValues, readAll. intros Hc. rewrite Hc.
  apply Permutation_refl'. apply readAll_seq.
Qed.

(** The call of [leaveMeeting] an event makes from outside the observer
    callback. *)
Lemma leaveCall_step v e p :
  leaveCall e = true -> suspended p = [] -> suspended (step v e p) <> [] ->
  exists reason,
    suspended (step v e p) = [(reason, finalSegments (botState p))]
    /\ heap (step v e p) = heap p
    /\ stopped (step v e p).
Proof.
  intros He Hs Hcall.
  destruct e as [batch | now found | | ended | | now]; try discriminate He; cbn [step] in *.
  - destruct (isActive (botState p)); [|congruence].
    exists "user_requested". split; [|split; [reflexivity | apply stopped_leaveMeeting]].
    cbn. rewrite Hs. reflexivity.
  - destruct (checkEnd p && ended); [|congruence].
    exists "meeting_ended". split; [|split; [reflexivity | apply stopped_leaveMeeting]].
    cbn. rewrite Hs. reflexivity.
  - destruct (maxDurationTimer p); [|congruence].
    exists "max_duration". split; [|split; [reflexivity | apply stopped_leaveMeeting]].
    cbn. rewrite Hs. reflexivity.
Qed.

(** While the page is stopped and no suspended call goes on, the suspended
    calls stay in their order; later calls queue up behind them. *)
Lemma suspended_run_stopped v es : forall p,
  stopped p -> forallb (fun e => negb (isResume e)) es = true ->
  exists more, suspended (run v es p) = suspended p ++ more.
Proof.
  induction es as [|e es IH]; intros p H Hes; [exists []; symmetry; apply app_nil_r|].
  cbn [forallb] in Hes. apply andb_true_iff in Hes as [He Hes].
  cbn [run fold_left]. fold (run v es (step v e p)).
  destruct (IH (step v e p) (proj1 (stopped_step v e p H)) Hes) as [more Hm].
  assert (exists one, suspended (step v e p) = suspended p ++ one) as [one Ho].
  { pose proof H as [Ho Hf].
    destruct e as [batch | now found | | ended | | now]; try discriminate He; cbn [step].
    - destruct (captionObserver (botState p)) as [[|]|]; [congruence| |];
        exists []; symmetry; apply app_nil_r.
    - destruct (isActive (botState p)); [eexists; reflexivity|].
      exists []; symmetry; apply app_nil_r.
    - destruct (checkEnd p && ended); [eexists; reflexivity|].
      exists []; symmetry; apply app_nil_r.
    - destruct (maxDurationTimer p); [eexists; reflexivity|].
      exists []; symmetry; apply app_nil_r.
    - destruct (flushTimer (botState p)) as [[|]|]; [congruence| |];
        exists []; symmetry; apply app_nil_r. }
  exists (one ++ more). rewrite Hm, Ho, app_assoc. reflexivity.
Qed.

(** X8.  A [leaveMeeting] that is called from outside the observer callback (by
    the stop command, the meeting-end check or the max-duration timer) while
    no other leave is pending sends, in its [completed] message, every
    segment object the capture loop has created, each exactly once, whatever
    else happens before the call goes on. *)
Theorem outside_leave_delivers_every_segment v started es e es2 now found :
  let p := run v es (recording v started) in
  let q := run v es2 (step v e p) in
  leaveCall e = true -> suspended p = [] -> suspended (step v e p) <> [] ->
  forallb (fun x => negb (isResume x)) es2 = true ->
  exists reason segs duration,
    outbox (resumeLeave now found q)
    = outbox q ++ [MsgCompleted reason segs (length segs) duration]
    /\ segs ≡ₚ heap p
    /\ heap (resumeLeave now found q) = heap p.
Proof.
  cbn zeta. intros He Hs Hcall Hes.
  destruct (reachable_complete v started es) as [Hwf Hc].
  set (p := run v es (recording v started)) in *.
  destruct (leaveCall_step v e p He Hs Hcall) as (reason & Hsus & Hheap & Hst).
  destruct (stopped_run v es2 _ Hst) as [Hcap _].
  destruct (suspended_run_stopped v es2 _ Hst Hes) as [more Hmore].
  set (q := run v es2 (step v e p)) in *.
  assert (heap q = heap p) as Hq.
  { unfold capture in Hcap. injection Hcap as Hh _. rewrite <- Hheap. exact Hh. }
  rewrite Hsus in Hmore. cbn [app] in Hmore.
  unfold resumeLeave. rewrite Hmore. cbn [outbox heap].
  exists reason, (readAll (heap q) (finalSegments (botState p))),
         (elapsed (botState q) now).
  split; [reflexivity|]. split; [|exact Hq].
  rewrite Hq. exact (complete_values p Hc).
Qed.

Lemma outside_leave_delivers_every_segment_witness :
  let p := run V2 [Mutations growingBatch] (recording V2 0) in
  let q := run V2 [FlushTick 9000; CheckEndTick true] (step V2 StopCommand p) in
  (leaveCall StopCommand = true /\ suspended p = []
   /\ suspended (step V2 StopCommand p) <> [])
  /\ exists reason segs duration,
       outbox (resumeLeave 10000 true q)
       = outbox q ++ [MsgCompleted reason segs (length segs) duration]
       /\ segs ≡ₚ heap p.
Proof.
  cbn zeta.
  assert (suspended (step V2 StopCommand
                       (run V2 [Mutations growingBatch] (recording V2 0))) <> []) as Hcall
    by (vm_compute; discriminate).
  split; [split; [reflexivity | split; [reflexivity | exact Hcall]]|].
  destruct (outside_leave_delivers_every_segment V2 0 [Mutations growingBatch] StopCommand
              [FlushTick 9000; CheckEndTick true] 10000 true
              eq_refl eq_refl Hcall eq_refl)
    as (reason & segs & duration & H1 & H2 & _).
  exists reason, segs, duration. split; [exact H1 | exact H2].
Defined.


(** *** Timing of the segments *)

Lemma timedUpTo_later started t t' p :
  (t <= t')%Z -> timedUpTo started t p -> timedUpTo started t' p.
Proof.
  intros Ht (Hs & Hle & Hall). split; [exact Hs|]. split; [lia|].
  eapply Forall_impl; [exact Hall|]. intros s [Hw He]. split; [exact Hw | lia].
Qed.

Lemma timedUpTo_frame started t p q :
  startTime (botState q) = startTime (botState p) -> heap q = heap p ->
  timedUpTo started t p -> timedUpTo started t q.
Proof. unfold timedUpTo. intros -> ->. auto. Qed.

Lemma timedUpTo_processCaption v n now started t p :
  (t <= now)%Z -> timedUpTo started t p -> timedUpTo started now (processCaption v n now p).
Proof.
  intros Ht H. apply (timedUpTo_later started t now p Ht) in H.
  destruct H as (Hs & Hle & Hall). unfold processCaption.
  destruct (getSpeaker v n (lastSpeaker p)) as [spk last].
  cbn [with_lastSpeaker botState lastCaption heap].
  destruct (rejected v spk (getText n) (lastCaption (botState p)));
    [split; [exact Hs | split; [exact Hle | exact Hall]]|].
  destruct (isExitPhrase v (getText n));
    [split; [exact Hs | split; [exact Hle | exact Hall]]|].
  match goal with
  | |- context [mergeOrCreate ?a ?s ?b ?h] =>
      pose proof (mergeOrCreate_fields a s b h) as F;
      pose proof (mergeOrCreate_cases a s b h) as C;
      destruct (mergeOrCreate a s b h) as [b2 h2]
  end.
  cbn [fst snd] in F, C. destruct F as (_ & _ & F & _).
  cbn [startTime] in F.
  unfold timedUpTo. cbn [sendMessage botState heap]. rewrite F.
  split; [exact Hs|]. split; [exact Hle|].
  assert (elapsed (mkBotState (isActive (botState p)) (isInMeeting (botState p))
                     (captionObserver (botState p)) (getText n)
                     (S (segmentCount (botState p))) (startTime (botState p))
                     (flushTimer (botState p)) (segments (botState p))
                     (activeSegments (botState p))) now = (now - started)%Z) as El
    by (unfold elapsed; cbn [startTime]; rewrite Hs; reflexivity).
  rewrite El in C.
  destruct C as [(r & e & _ & He & -> & _) | (-> & _)].
  - apply Forall_insert; [exact Hall|].
    assert (wellTimed e /\ (end_ e <= now - started)%Z) as [[H0 H1] H2].
    { rewrite Forall_forall in Hall. apply Hall. apply list_elem_of_lookup. eauto. }
    unfold wellTimed, merged. cbn [start end_]. lia.
  - apply Forall_app. split; [exact Hall|]. apply Forall_singleton.
    unfold wellTimed. cbn [start end_]. unfold segmentStart, estimatedDuration.
    destruct v; lia.
Qed.

Lemma last_cons_default {A} (x t : A) (l : list A) :
  List.last (x :: l) t = List.last l x.
Proof.
  revert x t. induction l as [|y l IH]; intros x t; [reflexivity|].
  change (List.last (x :: y :: l) t) with (List.last (y :: l) t).
  rewrite !IH. reflexivity.
Qed.

Lemma timedUpTo_observerCallback v started batch : forall t p,
  ascending t (map snd batch) = true -> timedUpTo started t p ->
  timedUpTo started (List.last (map snd batch) t) (observerCallback v batch p).
Proof.
  induction batch as [|[n now] batch IH]; intros t p Hasc H; [exact H|].
  cbn [map snd ascending] in Hasc. apply andb_true_iff in Hasc as [Hle Hasc].
  apply Z.leb_le in Hle. cbn [observerCallback].
  replace (List.last (map snd ((n, now) :: batch)) t) with (List.last (map snd batch) now).
  - apply IH; [exact Hasc|]. apply (timedUpTo_processCaption v n now started t); assumption.
  - cbn [map snd]. symmetry. apply last_cons_default.
Qed.

Lemma ascending_app t l1 l2 :
  ascending t (l1 ++ l2) = ascending t l1 && ascending (List.last l1 t) l2.
Proof.
  revert t. induction l1 as [|x l1 IH]; intros t; [reflexivity|].
  cbn [app ascending]. rewrite IH, andb_assoc, last_cons_default. reflexivity.
Qed.

Lemma ascending_last t l : ascending t l = true -> (t <= List.last l t)%Z.
Proof.
  revert t. induction l as [|x l IH]; intros t H; [cbn; lia|].
  cbn [ascending] in H. apply andb_true_iff in H as [Hle H]. apply Z.leb_le in Hle.
  specialize (IH x H).
  rewrite last_cons_default. lia.
Qed.

Lemma timedUpTo_run v started es : forall t p,
  ascending t (stamps es) = true -> timedUpTo started t p ->
  exists t', timedUpTo started t' (run v es p).
Proof.
  induction es as [|e es IH]; intros t p Hasc H; [exists t; exact H|].
  cbn [run fold_left]. fold (run v es (step v e p)).
  destruct e as [batch | now found | | ended | | now]; cbn [stamps] in Hasc; cbn [step].
  - rewrite ascending_app in Hasc. apply andb_true_iff in Hasc as [Hb Hrest].
    destruct (captionObserver (botState p)) as [[|]|].
    + apply (IH _ _ Hrest). apply timedUpTo_observerCallback; assumption.
    + apply (IH _ _ Hrest). apply (timedUpTo_later started t); [|exact H].
      apply ascending_last. exact Hb.
    + apply (IH _ _ Hrest). apply (timedUpTo_later started t); [|exact H].
      apply ascending_last. exact Hb.
  - apply (IH _ _ Hasc). unfold resumeLeave.
    destruct (suspended p) as [|[reason final] rest]; [exact H|].
    revert H. apply timedUpTo_frame; reflexivity.
  - apply (IH _ _ Hasc). destruct (isActive (botState p)); [|exact H].
    revert H. apply timedUpTo_frame; reflexivity.
  - apply (IH _ _ Hasc). destruct (checkEnd p && ended); [|exact H].
    revert H. apply timedUpTo_frame; reflexivity.
  - apply (IH _ _ Hasc). destruct (maxDurationTimer p); [|exact H].
    revert H. apply timedUpTo_frame; reflexivity.
  - apply (IH _ _ Hasc). destruct (flushTimer (botState p)) as [[|]|]; [|exact H|exact H].
    destruct (readAll (heap p) (map_values (activeSegments (botState p)))); [exact H|].
    revert H. apply timedUpTo_frame; reflexivity.
Qed.

(** X9.  When the clock readings of the observed nodes never go back, from the
    start of the session on, every segment starts at or after the start of
    the session and does not end before it starts. *)
Theorem agent_segments_start_before_they_end v started es :
  ascending started (stamps es) = true ->
  Forall wellTimed (heap (run v es (recording v started)))
  /\ Forall wellTimed (finalValues (run v es (recording v started))).
Proof.
  intros Hasc.
  destruct (timedUpTo_run v started es started (recording v started) Hasc)
    as (t' & _ & _ & Hall).
  { split; [reflexivity|]. split; [lia | apply Forall_nil_2]. }
  assert (Forall wellTimed (heap (run v es (recording v started)))) as Hh
    by (eapply Forall_impl; [exact Hall|]; intros s [Hw _]; exact Hw).
  split; [exact Hh|].
  apply Forall_forall. intros s Hs. unfold finalValues, readAll in Hs.
  apply list_elem_of_omap in Hs as (r & _ & Hr).
  rewrite Forall_forall in Hh. apply Hh. apply list_elem_of_lookup. eauto.
Qed.

Lemma agent_segments_start_before_they_end_witness :
  let es := [Mutations growingBatch; FlushTick 8000;
             Mutations [(fragment "Bob" "Something else entirely", 9000%Z)]] in
  ascending 0 (stamps es) = true
  /\ Forall wellTimed (finalValues (run V2 es (recording V2 0))).
Proof.
  split; [reflexivity|].
  apply (agent_segments_start_before_they_end V2 0). reflexivity.
Defined.

(** *** The filter for unresolved speakers *)

Lemma validName_known h : validName h = true -> snd h <> "Unknown Speaker".
Proof.
  unfold validName. intros H. apply andb_true_iff in H as [H _].
  apply andb_true_iff in H as [_ H]. apply negb_true_iff, String.eqb_neq in H. exact H.
Qed.

Lemma getSpeaker_known n last :
  last <> "Unknown Speaker" ->
  fst (getSpeaker V2 n last) <> "Unknown Speaker"
  /\ snd (getSpeaker V2 n last) <> "Unknown Speaker".
Proof.
  intros H. cbn [getSpeaker].
  destruct (find validName (nameHits n)) as [[fl name]|] eqn:F.
  - apply find_some in F as [_ F]. apply validName_known in F. cbn in *. auto.
  - cbn [fst snd]. split; [|exact H].
    destruct (String.eqb last ""); [discriminate | exact H].
Qed.

Lemma known_processCaption n now p :
  namesNoUnknown p -> namesNoUnknown (processCaption V2 n now p).
Proof.
  unfold namesNoUnknown, processCaption. intros H.
  destruct (getSpeaker_known n (lastSpeaker p) H) as [H1 H2].
  destruct (getSpeaker V2 n (lastSpeaker p)) as [spk last]. cbn [fst snd] in H1, H2.
  cbn [with_lastSpeaker botState lastCaption lastSpeaker].
  destruct (rejected V2 spk (getText n) (lastCaption (botState p))); [exact H2|].
  destruct (isExitPhrase V2 (getText n)); [exact H2|].
  match goal with
  | |- context [mergeOrCreate ?a ?s ?b ?h] => destruct (mergeOrCreate a s b h) as [b2 h2]
  end.
  exact H1.
Qed.

Lemma known_observerCallback batch : forall p,
  namesNoUnknown p -> namesNoUnknown (observerCallback V2 batch p).
Proof.
  induction batch as [|[n now] batch IH]; intros p H; [exact H|].
  cbn [observerCallback]. apply IH, known_processCaption, H.
Qed.

Lemma known_step e p : namesNoUnknown p -> namesNoUnknown (step V2 e p).
Proof.
  intros H. destruct e as [batch | now found | | ended | | now]; cbn [step].
  - destruct (captionObserver (botState p)) as [[|]|]; [|exact H|exact H].
    apply known_observerCallback, H.
  - unfold resumeLeave. destruct (suspended p) as [|[reason final] rest]; exact H.
  - destruct (isActive (botState p)); exact H.
  - destruct (checkEnd p && ended); exact H.
  - destruct (maxDurationTimer p); exact H.
  - destruct (flushTimer (botState p)) as [[|]|]; [|exact H|exact H].
    destruct (readAll (heap p) (map_values (activeSegments (botState p)))); exact H.
Qed.

Lemma known_run started es : namesNoUnknown (run V2 es (recording V2 started)).
Proof.
  induction es as [|e es IH] using rev_ind; [discriminate|].
  rewrite agent_run_snoc. apply known_step, IH.
Qed.

(** C9.  In the second script the filter for short fragments of an
    unresolved speaker never fires: [getSpeaker] falls back to the last
    speaker or to "Speaker" and never yields "Unknown Speaker", whatever the
    page has delivered.  So a fragment of four characters whose node names no
    speaker is accepted there, with a segment for "Speaker" and a caption
    message, where the first script drops the same fragment. *)
Theorem unresolved_speaker_filter_is_dead started now :
  (forall es n, speakerOf V2 n (run V2 es (recording V2 started)) <> "Unknown Speaker")
  /\ speakerOf V2 unnamedNode (recording V2 started) = "Speaker"
  /\ String.length (getText unnamedNode) < minUnknownLength V2
  /\ (let p := run V2 [Mutations [(unnamedNode, now)]] (recording V2 started) in
      segmentCount (botState p) = 1
      /\ map speakerText (heap p) = [("Speaker", "Okay")]
      /\ captionTexts (outbox p) = [("Speaker", "Okay")])
  /\ (let p := run V1 [Mutations [(unnamedNode, now)]] (recording V1 started) in
      speakerOf V1 unnamedNode (recording V1 started) = "Unknown Speaker"
      /\ captured p = captured (recording V1 started)).
Proof.
  split.
  { intros es n. unfold speakerOf.
    exact (proj1 (getSpeaker_known n _ (known_run started es))). }
  split; [reflexivity|]. split; [vm_compute; lia|].
  split; [repeat split; reflexivity|]. split; reflexivity.
Qed.

End AgentFacts.

(* ===================================================================== *)
(** ** Further properties of the orchestrator *)
(* ===================================================================== *)

Module BotFacts.
Import JS Types Bot BotSpec BotNotions BotProps.

Lemma completedCount_app es1 es2 :
  completedCount (es1 ++ es2) = completedCount es1 + completedCount es2.
Proof. unfold completedCount. rewrite List.filter_app, length_app. reflexivity. Qed.

Lemma calm_ret {A} (x : A) : calm (ret x).
Proof. intros b. split; reflexivity. Qed.

Lemma calm_get : calm get.
Proof. intros b. split; reflexivity. Qed.

Lemma calm_effect e : isCompletedEmit e = false -> calm (effect e).
Proof. intros H b. unfold completedCount, effects, effect. cbn. rewrite H. split; reflexivity. Qed.

Lemma calm_emit e :
  match e with CompletedEvent _ _ _ _ => False | _ => True end -> calm (emit e).
Proof. intros H b. destruct e; try contradiction; split; reflexivity. Qed.

Lemma calm_modify (g : MeetBot -> MeetBot) :
  (forall b, isLeaving (g b) = isLeaving b) -> calm (modify g).
Proof. intros H b. split; [reflexivity | apply H]. Qed.

Lemma calm_bind {A B} (a : Act A) (k : A -> Act B) :
  calm a -> (forall x, calm (k x)) -> calm (bind a k).
Proof.
  intros Ha Hk b. unfold effects, after, bind.
  specialize (Ha b). unfold effects, after in Ha.
  destruct (a b) as [[x b1] e1]. specialize (Hk x b1). unfold effects, after in Hk.
  destruct (k x b1) as [[y b2] e2]. cbn [fst snd] in *.
  rewrite completedCount_app. destruct Ha as [-> <-], Hk as [-> <-]. split; reflexivity.
Qed.

Lemma calm_when (c : bool) (a : Act unit) : calm a -> calm (when c a).
Proof. intros H. destruct c; [exact H | apply calm_ret]. Qed.

Ltac calm :=
  repeat first
    [ apply calm_ret | apply calm_get
    | apply calm_effect; reflexivity
    | apply calm_emit; exact I
    | apply calm_when
    | apply calm_bind; [| intros ?]
    | apply calm_modify; intros ?; reflexivity
    | match goal with
      | |- calm (if ?c then _ else _) => destruct c
      | |- calm (match ?x with _ => _ end) => destruct x
      end ].

Create HintDb calm.

Lemma calm_setStatus st message : calm (setStatus st message).
Proof. unfold setStatus. calm. Qed.

Lemma calm_cleanup_begin : calm cleanup_begin.
Proof. unfold cleanup_begin. calm. Qed.

Lemma calm_cleanup_end : calm cleanup_end.
Proof. unfold cleanup_end. calm. Qed.

#[export] Hint Resolve calm_setStatus calm_cleanup_begin calm_cleanup_end : calm.

Lemma calm_join_catch message : calm (join_catch message).
Proof. unfold join_catch. calm; auto with calm. Qed.

#[export] Hint Resolve calm_join_catch : calm.

Lemma calm_join path ext : calm (join path ext).
Proof. unfold join. calm; auto with calm. Qed.

Lemma calm_join_resume joined now : calm (join_resume joined now).
Proof. unfold join_resume. calm; auto with calm. Qed.

#[export] Hint Resolve calm_join calm_join_resume : calm.

Lemma calm_checkStatus since timeout now : calm (checkStatus since timeout now).
Proof. unfold checkStatus. calm; auto with calm. Qed.

#[export] Hint Resolve calm_checkStatus : calm.

Lemma calm_enter_wait now : calm (enter_wait now).
Proof. unfold enter_wait. calm; auto with calm. Qed.

Lemma calm_flushSegments now : calm (flushSegments now).
Proof. unfold flushSegments. calm. Qed.

Lemma calm_leave_finish now : calm (leave_finish now).
Proof. unfold leave_finish. calm; auto with calm. Qed.

#[export] Hint Resolve calm_enter_wait calm_flushSegments calm_leave_finish : calm.

Lemma calm_leave_flush reason now : calm (leave_flush reason now).
Proof. unfold leave_flush. calm; auto with calm. Qed.

#[export] Hint Resolve calm_leave_flush : calm.

Lemma calm_leave reason now : calm (leave reason now).
Proof. unfold leave. calm; auto with calm. Qed.

Lemma calm_handleCaption data : calm (handleCaption data).
Proof. unfold handleCaption. calm. Qed.

#[export] Hint Resolve calm_leave calm_handleCaption : calm.

Lemma calm_budgeted {A} (a : Act A) n : calm a -> budgeted n a.
Proof. intros H b. destruct (H b) as [-> E]. unfold mayEnd. rewrite E. lia. Qed.

Lemma budgeted_bind {A B} (a : Act A) (k : A -> Act B) n1 n2 :
  budgeted n1 a -> (forall x, budgeted n2 (k x)) -> budgeted (n1 + n2) (bind a k).
Proof.
  intros Ha Hk b. unfold effects, after, bind.
  specialize (Ha b). unfold effects, after in Ha.
  destruct (a b) as [[x b1] e1]. specialize (Hk x b1). unfold effects, after in Hk.
  destruct (k x b1) as [[y b2] e2]. cbn [fst snd] in *.
  rewrite completedCount_app. lia.
Qed.

(** [handleMeetingEnd] emits 'completed' only when it passes its guard, and
    closes the guard. *)
Lemma budgeted_handleMeetingEnd now : budgeted 0 (handleMeetingEnd now).
Proof.
  intros b. unfold handleMeetingEnd, effects, after, bind, get. cbn [fst snd].
  destruct (isLeaving b) eqn:E.
  - cbn. unfold mayEnd. rewrite E. lia.
  - unfold modify, emit. cbn [fst snd].
    destruct (calm_leave "meeting_ended" now (set_isLeaving true b)) as [Hc Hl].
    unfold effects, after in Hc, Hl.
    destruct (leave "meeting_ended" now (set_isLeaving true b)) as [[u b2] e2].
    cbn [fst snd app] in *.
    change (completedCount (?e :: e2)) with (S (completedCount e2)).
    unfold mayEnd. rewrite Hl, E, Hc. cbn. lia.
Qed.

Lemma budgeted_handleCompletion data now : budgeted 1 (handleCompletion data now).
Proof.
  unfold handleCompletion.
  apply (budgeted_bind _ _ 0 1); [apply calm_budgeted; calm|]. intros _.
  intros b. unfold effects, after, bind, get, emit. cbn [fst snd].
  destruct (calm_leave (dReason data) now b) as [Hc Hl].
  unfold effects, after in Hc, Hl.
  destruct (leave (dReason data) now b) as [[u b2] e2].
  cbn [fst snd app] in *.
  change (completedCount (?e :: e2)) with (S (completedCount e2)).
  unfold mayEnd. rewrite Hl, Hc. lia.
Qed.

Lemma budgeted_parseExtensionLog txt now : budgeted 0 (parseExtensionLog txt now).
Proof.
  unfold parseExtensionLog.
  apply (budgeted_bind _ _ 0 0).
  - repeat match goal with
           | |- budgeted _ (if ?c then _ else _) => destruct c
           end;
      try solve [apply calm_budgeted; calm; auto with calm].
    apply budgeted_handleMeetingEnd.
  - intros _. apply calm_budgeted. calm; auto with calm.
Qed.

Lemma budgeted_step i : budgeted (if isCompletion i then 1 else 0) (step i).
Proof.
  unfold step.
  destruct i as [r | r | now | r now | now | | txt now | m now | now | now | reason now | k now];
    cbn [isCompletion].
  7:{ apply (budgeted_bind _ _ 0 0); [apply calm_budgeted; calm|]. intros b.
      replace (match joinPc b with
               | _ => when (listening b && includes txt "[Notu.AI Bot]")
                        (parseExtensionLog txt now)
               end)
        with (when (listening b && includes txt "[Notu.AI Bot]") (parseExtensionLog txt now))
        by (destruct (joinPc b); reflexivity).
      destruct (listening b && includes txt "[Notu.AI Bot]"); cbn [when].
      - apply budgeted_parseExtensionLog.
      - apply calm_budgeted. calm. }
  7:{ destruct m as [st message err reason | data | n | data | | ty]; cbn [isCompletion].
      4:{ apply (budgeted_bind _ _ 0 1); [apply calm_budgeted; calm|]. intros b.
          replace (match joinPc b with | _ => handleExtensionMessage (XCompleted data) now end)
            with (handleExtensionMessage (XCompleted data) now)
            by (destruct (joinPc b); reflexivity).
          apply budgeted_handleCompletion. }
      all: apply calm_budgeted; calm; unfold handleExtensionMessage; calm; auto with calm. }
  all: apply calm_budgeted; calm; auto with calm.
Qed.

Lemma bot_run_snoc inputs i b :
  run (inputs ++ [i]) b
  = (fst (exec (step i) (fst (run inputs b))),
     snd (run inputs b) ++ snd (exec (step i) (fst (run inputs b)))).
Proof.
  unfold run. rewrite fold_left_app. cbn [fold_left].
  destruct (fold_left _ inputs (b, [])) as [b1 es1]. cbn [fst snd].
  destruct (exec (step i) b1) as [b2 es2]. reflexivity.
Qed.

Lemma exec_effects (a : Act unit) (b : MeetBot) : snd (exec a b) = effects a b.
Proof. unfold exec, effects. destruct (a b) as [[x b'] es]. reflexivity. Qed.

(** X10.  Whatever happens to a bot, it emits 'completed' at most once on its own
    account, through the guard of [handleMeetingEnd], and not at all when it
    is already leaving; every other 'completed' answers a structured
    'completed' message of the extension, one for one. *)
Theorem completed_is_emitted_at_most_once inputs b :
  completedCount (snd (run inputs b))
  <= (if isLeaving b then 0 else 1) + length (List.filter isCompletion inputs).
Proof.
  enough (completedCount (snd (run inputs b)) + mayEnd (fst (run inputs b))
          <= mayEnd b + length (List.filter isCompletion inputs)) as H
    by (unfold mayEnd in H at 2; lia).
  induction inputs as [|i inputs IH] using rev_ind; [cbn; lia|].
  rewrite bot_run_snoc. cbn [fst snd].
  rewrite completedCount_app, List.filter_app, length_app.
  pose proof (budgeted_step i (fst (run inputs b))) as S.
  rewrite exec_effects, exec_after.
  cbn [List.filter]. destruct (isCompletion i); cbn [length] in *; lia.
Qed.

Lemma after_step_Leave reason now b :
  after (step (Leave reason now)) b = after (leave reason now) b.
Proof.
  unfold after, step, bind, get. cbn [fst snd].
  destruct (joinPc b); destruct (leave reason now b) as [[x b1] e1]; reflexivity.
Qed.

Lemma after_step_LeaveAdvance k now b :
  after (step (LeaveAdvance k now)) b
  = match leaves b !! k with
    | Some (reason, StopPosted) =>
        after (leave_flush reason now) (set_leaves (delete k (leaves b)) b)
    | Some (reason, Closing) =>
        after (leave_finish now) (after cleanup_end (set_leaves (delete k (leaves b)) b))
    | None => b
    end.
Proof.
  unfold after, step, bind, get, modify. cbn [fst snd].
  destruct (joinPc b); destruct (leaves b !! k) as [[reason [|]]|]; cbn [fst snd];
    try reflexivity;
    try (destruct (leave_flush reason now (set_leaves (delete k (leaves b)) b))
           as [[x b1] e1]; reflexivity);
    try (destruct (cleanup_end (set_leaves (delete k (leaves b)) b)) as [[x b1] e1];
         cbn [fst snd]; destruct (leave_finish now b1) as [[y b2] e2]; reflexivity).
Qed.

Lemma lookup_snoc_length {A} (l : list A) (x : A) : (l ++ [x]) !! length l = Some x.
Proof. apply list_lookup_middle. reflexivity. Qed.

Lemma delete_snoc_length {A} (l : list A) (x : A) : delete (length l) (l ++ [x]) = l.
Proof. rewrite delete_middle. apply app_nil_r. Qed.

Lemma lookup_length {A} (l : list A) : l !! length l = None.
Proof. apply lookup_ge_None_2. lia. Qed.

Lemma after_leave_finish now b :
  after (leave_finish now) b
  = set_session (mkBotSession (sessionId (session b)) (meetingId (session b))
                   (url (session b)) completed (segments b) (startedAt (session b))
                   (Some now) (error (session b))) b.
Proof. destruct b as [ctx pg lst [sid mid u st ssegs sa ca err] segs lv fl tm pc ls]. reflexivity. Qed.

Lemma after_flushSegments now b : after (flushSegments now) b = b.
Proof.
  unfold after, flushSegments, bind, get. cbn [fst snd]. destruct (segments b); reflexivity.
Qed.

Lemma after_leave_flush reason now b :
  after (leave_flush reason now) b
  = if context b
    then set_leaves (leaves b ++ [(reason, Closing)]) (set_timers false false b)
    else after (leave_finish now)
           (set_browser false false (listening b) (set_timers false false b)).
Proof.
  unfold leave_flush. rewrite after_bind, after_flushSegments.
  destruct b as [ctx pg lst s segs lv fl tm pc ls].
  destruct ctx.
  - unfold after, bind, flushSegments, get. cbn [fst snd segments].
    destruct segs; reflexivity.
  - unfold after, bind, flushSegments, get. cbn [fst snd segments].
    destruct segs; cbn -[leave_finish];
      match goal with |- context [leave_finish now ?x] =>
        destruct (leave_finish now x) as [[y b2] e2] end; reflexivity.
Qed.

Lemma after_leave reason now b :
  after (leave reason now) b
  = if page b
    then set_leaves (leaves b ++ [(reason, StopPosted)]) (withStatus leaving b)
    else after (leave_flush reason now) (withStatus leaving b).
Proof.
  destruct b as [ctx pg lst s segs lv fl tm pc ls].
  destruct pg.
  - reflexivity.
  - unfold after, leave, bind, get, setStatus, modify, emit, withStatus.
    cbn -[leave_flush].
    match goal with |- context [leave_flush reason now ?x] =>
      destruct (leave_flush reason now x) as [[y b2] e2] end. reflexivity.
Qed.

Lemma after_cleanup_end b :
  after cleanup_end b = set_browser false false (listening b) b.
Proof. reflexivity. Qed.

Lemma leave_left reason t1 t2 t3 b :
  fst (run [Leave reason t1; LeaveAdvance (length (leaves b)) t2;
            LeaveAdvance (length (leaves b)) t3] b)
  = leftBot (if page b then (if context b then t3 else t2)
             else (if context b then t2 else t1)) b.
Proof.
  change [Leave reason t1; LeaveAdvance (length (leaves b)) t2;
          LeaveAdvance (length (leaves b)) t3]
    with ((([] ++ [Leave reason t1]) ++ [LeaveAdvance (length (leaves b)) t2])
          ++ [LeaveAdvance (length (leaves b)) t3]).
  rewrite !run_fst_snoc, !exec_after. change (fst (run [] b)) with b.
  rewrite after_step_Leave, after_leave.
  destruct b as [ctx pg lst [sid mid u st ssegs sa ca err] segs lv fl tm pc ls].
  cbn [page context leaves].
  destruct pg.
  - rewrite (after_step_LeaveAdvance _ t2).
    cbn [leaves set_leaves]. rewrite lookup_snoc_length, delete_snoc_length.
    rewrite after_leave_flush. cbn [context set_leaves withStatus set_session].
    destruct ctx.
    + rewrite (after_step_LeaveAdvance _ t3).
      cbn [leaves set_leaves set_timers]. rewrite lookup_snoc_length, delete_snoc_length.
      rewrite after_cleanup_end, after_leave_finish. reflexivity.
    + rewrite after_leave_finish.
      rewrite (after_step_LeaveAdvance _ t3).
      cbn [leaves set_leaves set_timers set_browser set_session]. rewrite lookup_length.
      reflexivity.
  - rewrite after_leave_flush. cbn [context withStatus set_session].
    destruct ctx.
    + rewrite (after_step_LeaveAdvance _ t2).
      cbn [leaves set_leaves set_timers]. rewrite lookup_snoc_length, delete_snoc_length.
      rewrite after_cleanup_end, after_leave_finish.
      rewrite (after_step_LeaveAdvance _ t3).
      cbn [leaves set_leaves set_timers set_browser set_session]. rewrite lookup_length.
      reflexivity.
    + rewrite after_leave_finish.
      rewrite (after_step_LeaveAdvance _ t2).
      cbn [leaves set_leaves set_timers set_browser set_session]. rewrite lookup_length.
      rewrite (after_step_LeaveAdvance _ t3).
      cbn [leaves set_leaves set_timers set_browser set_session]. rewrite lookup_length.
      reflexivity.
Qed.

(** [leave(reason)] run to its end: the call, the stop command posted, the
    context closed. *)
Lemma leave_runs reason t1 t2 t3 b :
  let k := length (leaves b) in
  let b' := fst (run [Leave reason t1; LeaveAdvance k t2; LeaveAdvance k t3] b) in
  status (session b') = completed
  /\ context b' = false /\ page b' = false
  /\ flushInterval b' = false /\ timeoutTimer b' = false
  /\ segments b' = segments b
  /\ Types.segments (session b') = segments b
  /\ completedAt (session b')
     = Some (if page b then (if context b then t3 else t2)
             else (if context b then t2 else t1))
  /\ error (session b') = error (session b)
  /\ leaves b' = leaves b.
Proof. cbn zeta. rewrite leave_left. repeat split; reflexivity. Qed.

Lemma leave_keeps_startedAt reason t1 t2 t3 b :
  let k := length (leaves b) in
  let b' := fst (run [Leave reason t1; LeaveAdvance k t2; LeaveAdvance k t3] b) in
  startedAt (session b') = startedAt (session b).
Proof. cbn zeta. rewrite leave_left. reflexivity. Qed.

Lemma calm_step_Leave reason now : calm (step (Leave reason now)).
Proof. unfold step. calm; auto with calm. Qed.

Lemma calm_step_LeaveAdvance k now : calm (step (LeaveAdvance k now)).
Proof. unfold step. calm; auto with calm. Qed.

Lemma calm_step_FlushTimer now : calm (step (FlushTimer now)).
Proof. unfold step. calm; auto with calm. Qed.

(** X11.  Whatever state a bot is in, [leave(reason)] run to its end (the call,
    the stop command posted, the context closed) leaves it with status
    'completed', [completedAt] set, the segments copied into the session, the
    timers cleared and the browser released; the segments and the error of
    the session are untouched, and no 'completed' event is emitted. *)
Theorem leave_always_completes reason t1 t2 t3 b :
  let k := length (leaves b) in
  let inputs := [Leave reason t1; LeaveAdvance k t2; LeaveAdvance k t3] in
  let b' := fst (run inputs b) in
  status (session b') = completed
  /\ context b' = false /\ page b' = false
  /\ flushInterval b' = false /\ timeoutTimer b' = false
  /\ segments b' = segments b
  /\ Types.segments (session b') = segments b
  /\ completedAt (session b')
     = Some (if page b then (if context b then t3 else t2)
             else (if context b then t2 else t1))
  /\ error (session b') = error (session b)
  /\ leaves b' = leaves b
  /\ completedCount (snd (run inputs b)) = 0.
Proof.
  cbn zeta. pose proof (leave_runs reason t1 t2 t3 b) as H. cbn zeta in H.
  destruct H as (H1 & H2 & H3 & H4 & H5 & H6 & H7 & H8 & H9 & H10).
  repeat (split; [assumption|]).
  change [Leave reason t1; LeaveAdvance (length (leaves b)) t2;
          LeaveAdvance (length (leaves b)) t3]
    with ((([] ++ [Leave reason t1]) ++ [LeaveAdvance (length (leaves b)) t2])
          ++ [LeaveAdvance (length (leaves b)) t3]).
  rewrite !bot_run_snoc. cbn [fst snd]. rewrite !completedCount_app, !exec_effects.
  rewrite (proj1 (calm_step_Leave reason t1 _)).
  rewrite (proj1 (calm_step_LeaveAdvance _ t2 _)).
  rewrite (proj1 (calm_step_LeaveAdvance _ t3 _)). reflexivity.
Qed.

Lemma keeps_joinPc_leave_flush reason now : keeps joinPc (leave_flush reason now).
Proof.
  unfold leave_flush, leave_finish, cleanup_begin, flushSegments, setStatus. keep.
Qed.

Lemma keeps_joinPc_leave reason now : keeps joinPc (leave reason now).
Proof.
  unfold leave, setStatus. keep; try apply keeps_joinPc_leave_flush.
Qed.

Lemma keeps_joinPc_step_Leave reason now : keeps joinPc (step (Leave reason now)).
Proof. unfold step. keep; try apply keeps_joinPc_leave. Qed.

Lemma keeps_joinPc_step_LeaveAdvance k now : keeps joinPc (step (LeaveAdvance k now)).
Proof.
  unfold step. keep; try apply keeps_joinPc_leave_flush;
    unfold cleanup_end, leave_finish, setStatus; keep.
Qed.

End BotFacts.

(* ===================================================================== *)
(** ** Properties of the caption line *)
(* ===================================================================== *)

Module LogFacts.
Import JS Types Bot BotSpec AgentLog BotProps.

#[local] Arguments String.append !s1 s2 : simpl nomatch.

Lemma lineTerminator_whiteSpace c : isLineTerminator c = true -> isWhiteSpace c = true.
Proof.
  unfold isLineTerminator, isWhiteSpace. intros H.
  apply orb_true_iff in H as [H | H]; apply Nat.eqb_eq in H; rewrite H; reflexivity.
Qed.

Lemma takeLine_oneLine s : oneLine s = true -> takeLine s = s.
Proof.
  induction s as [|c s IH]; [reflexivity|].
  unfold oneLine. cbn [allChars takeLine]. intros H.
  apply andb_true_iff in H as [Hc Hs]. apply negb_true_iff in Hc. rewrite Hc.
  f_equal. apply IH. exact Hs.
Qed.

Lemma oneLine_app s t : oneLine (s ++ t) = oneLine s && oneLine t.
Proof.
  unfold oneLine. induction s as [|c s IH]; [reflexivity|].
  cbn [String.append allChars]. rewrite IH, andb_assoc. reflexivity.
Qed.

(** The text group: optional blanks, then the rest of the line. *)
Lemma afterColon_text c t :
  isWhiteSpace c = false -> oneLine (String c t) = true ->
  afterColon (String " " (String c t)) = Some (String c t).
Proof.
  intros Hc Hl. cbn [afterColon]. change (isWhiteSpace " ") with true. cbn iota.
  rewrite Hc. rewrite takeLine_oneLine by exact Hl. reflexivity.
Qed.

(** The name group stops at the first colon that is followed by a text. *)
Lemma nameAndText_colon a c t :
  noColon a = true -> oneLine a = true ->
  isWhiteSpace c = false -> oneLine (String c t) = true ->
  nameAndText (a ++ String ":" (String " " (String c t))) = Some (a, String c t).
Proof.
  intros Hn Ha Hc Hl. induction a as [|d a IH].
  - cbn [String.append nameAndText]. change (Ascii.eqb ":" ":") with true. cbn iota.
    rewrite afterColon_text by assumption. reflexivity.
  - unfold noColon, oneLine in Hn, Ha. cbn [allChars] in Hn, Ha.
    apply andb_true_iff in Hn as [Hd Hn]. apply andb_true_iff in Ha as [Hd' Ha].
    apply negb_true_iff in Hd, Hd'.
    cbn [String.append nameAndText]. rewrite Hd, Hd'. rewrite (IH Hn Ha). reflexivity.
Qed.

Lemma captionMatch_line spk rest c t d a :
  spk = String d a -> isWhiteSpace d = false ->
  noColon spk = true -> oneLine spk = true ->
  isWhiteSpace c = false -> oneLine (String c t) = true ->
  rest = String c t ->
  captionMatch (log ("🎤 [Caption] " ++ spk ++ ": " ++ rest)) = Some (spk, rest).
Proof.
  intros -> Hd Hn Ha Hc Hl ->.
  unfold noColon, oneLine in Hn, Ha. cbn [allChars] in Hn, Ha.
  apply andb_true_iff in Hn as [Hd1 Hn]. apply andb_true_iff in Ha as [Hd2 Ha].
  apply negb_true_iff in Hd1, Hd2.
  unfold log. cbn -[nameAndText isWhiteSpace isLineTerminator].
  rewrite Hd, Hd2.
  rewrite (nameAndText_colon a c t Hn Ha Hc Hl). reflexivity.
Qed.

Lemma length_trimStart s : String.length (trimStart s) <= String.length s.
Proof.
  induction s as [|c s IH]; [reflexivity|]. cbn [trimStart].
  destruct (isWhiteSpace c); cbn [String.length]; lia.
Qed.

Lemma length_trimEnd s : String.length (trimEnd s) <= String.length s.
Proof.
  induction s as [|c s IH]; [reflexivity|]. cbn [trimEnd].
  destruct (trimEnd s) as [|d t]; [destruct (isWhiteSpace c)|];
    cbn [String.length] in *; lia.
Qed.

(** A trimmed, non-empty string starts with a character that is not blank. *)
Lemma trimmed_starts s :
  trim s = s -> s <> "" -> exists c t, s = String c t /\ isWhiteSpace c = false.
Proof.
  destruct s as [|c t]; [congruence|]. intros Ht _. exists c, t. split; [reflexivity|].
  destruct (isWhiteSpace c) eqn:E; [|reflexivity]. exfalso.
  unfold trim in Ht. cbn [trimStart] in Ht. rewrite E in Ht.
  pose proof (length_trimEnd (trimStart t)) as H1.
  pose proof (length_trimStart t) as H2.
  rewrite Ht in H1. cbn [String.length] in H1. lia.
Qed.

Lemma append_nonempty (x y : string) : y <> "" -> (x ++ y)%string <> "".
Proof. destruct x; [auto | discriminate]. Qed.

Lemma trimEnd_app (x y : string) :
  y <> "" -> trimEnd y = y -> trimEnd (x ++ y) = (x ++ y)%string.
Proof.
  intros Hy Ht. induction x as [|c x IH]; [exact Ht|].
  cbn [String.append trimEnd]. rewrite IH.
  pose proof (append_nonempty x y Hy) as Hne.
  destruct (x ++ y)%string; [congruence | reflexivity].
Qed.

Lemma append_empty_r (s : string) : (s ++ "")%string = s.
Proof. induction s as [|c s IH]; [reflexivity|]. cbn [String.append]. rewrite IH. reflexivity. Qed.

(** The logged text is trimmed as well. *)
Lemma trim_logged v txt words seconds :
  trim txt = txt -> txt <> "" ->
  trim (txt ++ details v words seconds) = (txt ++ details v words seconds)%string.
Proof.
  intros Ht Hne. destruct v; cbn [details]; [rewrite append_empty_r; exact Ht|].
  destruct (trimmed_starts txt Ht Hne) as (c & t & -> & Hc).
  unfold trim.
  assert (trimStart (String c t ++ " (" ++ words ++ " words, ~" ++ seconds ++ "s)")
          = (String c t ++ " (" ++ words ++ " words, ~" ++ seconds ++ "s)")%string) as ->
    by (cbn [String.append trimStart]; rewrite Hc; reflexivity).
  apply (trimEnd_app (String c t) (" (" ++ words ++ " words, ~" ++ seconds ++ "s)"));
    [discriminate|].
  apply (trimEnd_app " (" (words ++ " words, ~" ++ seconds ++ "s)"));
    [apply append_nonempty; discriminate|].
  apply (trimEnd_app words (" words, ~" ++ seconds ++ "s)")); [discriminate|].
  apply (trimEnd_app " words, ~" (seconds ++ "s)")); [apply append_nonempty; discriminate|].
  apply (trimEnd_app seconds "s)"); [discriminate | reflexivity].
Qed.

(** X12.  The line [processCaption] logs for an accepted fragment (speaker
    and text trimmed, non-empty and on one line, no colon in the speaker)
    passes the console filter of the orchestrator, and [parseExtensionLog]
    turns it into one new segment with that speaker.  Its text is the text of
    the fragment for the first script; for the second script it is the text
    followed by the word count and duration that the script appends to the
    line. *)
Theorem caption_line_is_parsed_back v spk txt words seconds now b :
  spk <> "" -> trim spk = spk -> oneLine spk = true -> noColon spk = true ->
  txt <> "" -> trim txt = txt -> oneLine txt = true ->
  oneLine words = true -> oneLine seconds = true ->
  includes (captionLine v spk txt words seconds) "[Notu.AI Bot]" = true
  /\ exists ts,
       segments (after (parseExtensionLog (captionLine v spk txt words seconds) now) b)
       = segments b ++ [mkSegment spk (txt ++ details v words seconds) ts ts].
Proof.
  intros Hs Hst Hsl Hsc Ht Htt Htl Hw Hsec. split; [reflexivity|].
  destruct (trimmed_starts spk Hst Hs) as (d & a & Espk & Hd).
  destruct (trimmed_starts txt Htt Ht) as (c & t & Etxt & Hc).
  assert (oneLine (txt ++ details v words seconds) = true) as Hl.
  { rewrite oneLine_app, Htl. destruct v; [reflexivity|]. cbn [details andb].
    rewrite !oneLine_app, Hw, Hsec. reflexivity. }
  pose proof (parseExtensionLog_segments (captionLine v spk txt words seconds) now b) as P.
  unfold captionLine in P at 1.
  rewrite (captionMatch_line spk (txt ++ details v words seconds) c
             (t ++ details v words seconds) d a Espk Hd Hsc Hsl Hc) in P.
  - destruct P as [ts P]. exists ts. rewrite P, Hst, trim_logged by assumption. reflexivity.
  - rewrite Etxt in Hl. exact Hl.
  - rewrite Etxt. reflexivity.
Qed.

Lemma caption_line_is_parsed_back_witness :
  (trim "Alice" = "Alice" /\ oneLine "Alice" = true /\ noColon "Alice" = true
   /\ trim "Hello everyone" = "Hello everyone" /\ oneLine "Hello everyone" = true
   /\ oneLine "2" = true /\ oneLine "1.0" = true)
  /\ exists ts,
       segments (after (parseExtensionLog
                          (captionLine Agent.V2 "Alice" "Hello everyone" "2" "1.0")
                          5000)
                   (create "bot_1" "m1" "https://meet.google.com/abc-defg-hij"))
       = [mkSegment "Alice" "Hello everyone (2 words, ~1.0s)" ts ts].
Proof.
  split; [repeat split; reflexivity|].
  refine (proj2 (caption_line_is_parsed_back Agent.V2 "Alice" "Hello everyone" "2" "1.0"
                   5000 (create "bot_1" "m1" "https://meet.google.com/abc-defg-hij")
                   _ _ _ _ _ _ _ _ _));
    (discriminate || reflexivity).
Defined.

(** *** The groups of the caption pattern *)

Lemma oneLine_takeLine s : oneLine (takeLine s) = true.
Proof.
  unfold oneLine. induction s as [|c s IH]; [reflexivity|]. cbn [takeLine].
  destruct (isLineTerminator c) eqn:E; [reflexivity|].
  cbn [allChars]. rewrite E, IH. reflexivity.
Qed.

Lemma takeLine_nonempty c s :
  isLineTerminator c = false -> takeLine (String c s) <> "".
Proof. intros H. cbn [takeLine]. rewrite H. discriminate. Qed.

Lemma afterColon_group q g :
  afterColon q = Some g -> g <> "" /\ oneLine g = true.
Proof.
  revert g. induction q as [|c q IH]; intros g; cbn [afterColon]; [intros H; discriminate H|].
  destruct (isWhiteSpace c) eqn:W.
  - destruct (afterColon q) as [g'|].
    + intros H. injection H as <-. apply IH. reflexivity.
    + destruct (isLineTerminator c) eqn:L; [intros H; discriminate H|].
      intros H. injection H as <-.
      split; [exact (takeLine_nonempty c q L) | exact (oneLine_takeLine (String c q))].
  - intros H. injection H as <-.
    assert (isLineTerminator c = false) as L.
    { destruct (isLineTerminator c) eqn:L; [|reflexivity].
      apply lineTerminator_whiteSpace in L. congruence. }
    split; [exact (takeLine_nonempty c q L) | exact (oneLine_takeLine (String c q))].
Qed.

Lemma nameAndText_groups r g1 g2 :
  nameAndText r = Some (g1, g2) -> oneLine g1 = true /\ g2 <> "" /\ oneLine g2 = true.
Proof.
  revert g1 g2. induction r as [|c r IH]; intros g1 g2; cbn [nameAndText];
    [intros H; discriminate H|].
  assert (forall x,
            (if isLineTerminator c then None
             else match nameAndText r with
                  | Some (h1, h2) => Some (String c h1, h2)
                  | None => None
                  end) = Some x ->
            oneLine (fst x) = true /\ snd x <> "" /\ oneLine (snd x) = true) as Longer.
  { intros x. destruct (isLineTerminator c) eqn:L; [intros H; discriminate H|].
    destruct (nameAndText r) as [[h1 h2]|]; [|intros H; discriminate H].
    intros H. injection H as <-. destruct (IH h1 h2 eq_refl) as (H1 & H2 & H3).
    cbn [fst snd]. split; [|split; assumption].
    unfold oneLine in *. cbn [allChars]. rewrite L, H1. reflexivity. }
  destruct (Ascii.eqb c ":").
  - destruct (afterColon r) as [h2|] eqn:A.
    + intros H. injection H as <- <-. destruct (afterColon_group r h2 A) as [H2 H3].
      split; [reflexivity | split; assumption].
    + intros H. exact (Longer _ H).
  - intros H. exact (Longer _ H).
Qed.

Lemma startName_groups r g1 g2 :
  startName r = Some (g1, g2) ->
  g1 <> "" /\ oneLine g1 = true /\ g2 <> "" /\ oneLine g2 = true.
Proof.
  destruct r as [|c r]; cbn [startName]; [intros H; discriminate H|].
  destruct (isLineTerminator c) eqn:L; [intros H; discriminate H|].
  destruct (nameAndText r) as [[h1 h2]|] eqn:N; [|intros H; discriminate H].
  intros H. injection H as <- <-. destruct (nameAndText_groups r h1 h2 N) as (H1 & H2 & H3).
  split; [discriminate|]. split; [|split; assumption].
  unfold oneLine in *. cbn [allChars]. rewrite L, H1. reflexivity.
Qed.

Lemma afterTag_groups r g1 g2 :
  afterTag r = Some (g1, g2) ->
  g1 <> "" /\ oneLine g1 = true /\ g2 <> "" /\ oneLine g2 = true.
Proof.
  revert g1 g2. induction r as [|c r IH]; intros g1 g2; [intros H; discriminate H|].
  change (afterTag (String c r))
    with (if isWhiteSpace c
          then match afterTag r with
               | Some x => Some x
               | None => startName (String c r)
               end
          else startName (String c r)).
  destruct (isWhiteSpace c); [|apply startName_groups].
  destruct (afterTag r) as [[h1 h2]|]; [|apply startName_groups].
  intros H. injection H as <- <-. apply IH. reflexivity.
Qed.

Lemma includes_here (s p : string) : startsWith s p = true -> includes s p = true.
Proof. intros H. destruct s; cbn [includes]; rewrite H; reflexivity. Qed.

Lemma includes_later c (s p : string) : includes s p = true -> includes (String c s) p = true.
Proof. intros H. cbn [includes]. rewrite H. apply orb_true_r. Qed.

(** X13.  When the caption pattern of [parseExtensionLog] matches, the line holds
    the tag [[Caption]], and both groups are non-empty and free of line
    terminators: a line without the tag yields no caption. *)
Theorem caption_pattern_needs_the_tag s :
  match captionMatch s with
  | Some (g1, g2) =>
      includes s "[Caption]" = true
      /\ g1 <> "" /\ oneLine g1 = true /\ g2 <> "" /\ oneLine g2 = true
  | None => True
  end.
Proof.
  induction s as [|c s IH].
  - reflexivity || exact I.
  - change (captionMatch (String c s))
      with (match (if startsWith (String c s) "[Caption]"
                   then afterTag (dropChars 9 (String c s)) else None) with
            | Some x => Some x
            | None => captionMatch s
            end).
    destruct (startsWith (String c s) "[Caption]") eqn:Hs.
    + destruct (afterTag (dropChars 9 (String c s))) as [[g1 g2]|] eqn:A.
      * split; [apply includes_here; exact Hs|]. exact (afterTag_groups _ _ _ A).
      * destruct (captionMatch s) as [[g1 g2]|]; [|exact I].
        destruct IH as [Hi Hg]. split; [apply includes_later; exact Hi | exact Hg].
    + destruct (captionMatch s) as [[g1 g2]|]; [|exact I].
      destruct IH as [Hi Hg]. split; [apply includes_later; exact Hi | exact Hg].
Qed.

End LogFacts.

(* ===================================================================== *)
(** ** Further properties of the registry *)
(* ===================================================================== *)

Module RegistryFacts.
Import JS Types Registry RegistrySpec Sessions RegistryNotions RegistryProps.
Import BotNotions BotFacts AgentLog.

(** *** The socket *)

Lemma listen_disconnected meeting now e m :
  socketConnected m = false ->
  let m' := listen meeting now e m in
  socketConnected m' = false /\ emitted m' = emitted m
  /\ List.filter isSegmentsPost (posts m')
     = List.filter isSegmentsPost (posts m) ++ flushPosts meeting [e].
Proof.
  intros Hs. cbn zeta.
  assert (forall ev, emitToBackend ev m = m) as Hdrop
    by (intros ev; unfold emitToBackend; rewrite Hs; reflexivity).
  destruct e as [ev snap | | target | ty | ]; cbn [listen flushPosts omap list_omap];
    try (rewrite app_nil_r; auto).
  destruct ev as [st message | mid segment | mid segs n d | mid reason segs d];
    rewrite ?Hdrop; cbn [flushPosts omap list_omap]; try (rewrite app_nil_r; auto).
  - unfold post. cbn [socketConnected emitted posts]. rewrite List.filter_app. auto.
  - unfold onCompleted. rewrite Hdrop. unfold finalizeMeeting.
    destruct (decide (meeting ∈ finalizedMeetings m)); cbn [socketConnected emitted posts set_completions];
      [auto|].
    unfold post, set_finalized. cbn [socketConnected emitted posts].
    rewrite List.filter_app. cbn [List.filter isSegmentsPost]. rewrite ?app_nil_r. auto.
Qed.

Lemma flushPosts_cons meeting e es :
  flushPosts meeting (e :: es) = flushPosts meeting [e] ++ flushPosts meeting es.
Proof. unfold flushPosts. cbn [omap list_omap]. destruct e as [[| | |]| | | |]; reflexivity. Qed.

(** X14.  While the socket is not connected, what the listeners would emit to the
    backend is dropped, not queued; the flush listener still POSTs the
    segments of every flush. *)
Theorem events_are_dropped_while_disconnected meeting now es : forall m,
  socketConnected m = false ->
  let m' := listenAll meeting now es m in
  socketConnected m' = false /\ emitted m' = emitted m
  /\ List.filter isSegmentsPost (posts m')
     = List.filter isSegmentsPost (posts m) ++ flushPosts meeting es.
Proof.
  induction es as [|e es IH]; intros m Hs; cbn zeta.
  { cbn. rewrite app_nil_r. auto. }
  cbn [listenAll fold_left]. fold (listenAll meeting now es (listen meeting now e m)).
  destruct (listen_disconnected meeting now e m Hs) as (H1 & H2 & H3).
  destruct (IH _ H1) as (K1 & K2 & K3).
  rewrite K2, K3, H2, H3, (flushPosts_cons meeting e es), app_assoc. auto.
Qed.

Lemma events_are_dropped_while_disconnected_witness :
  socketConnected empty = false
  /\ emitted (listenAll "m1" 1000 [sampleCompleted; sampleFlush] empty) = []
  /\ List.filter isSegmentsPost
       (posts (listenAll "m1" 1000 [sampleCompleted; sampleFlush] empty))
     = [PostSegments "m1" [mkSegment "Alice" "Hello" 0 0]].
Proof.
  split; [reflexivity|].
  exact (proj2 (events_are_dropped_while_disconnected "m1" 1000
                  [sampleCompleted; sampleFlush] empty eq_refl)).
Defined.

(** *** What the listeners leave alone *)

Lemma listen_frame meeting now e m :
  let m' := listen meeting now e m in
  bots m' = bots m /\ sessions m' = sessions m
  /\ calls m' = calls m /\ results m' = results m
  /\ socketConnected m' = socketConnected m.
Proof.
  cbn zeta.
  assert (forall ev x, bots (emitToBackend ev x) = bots x /\ sessions (emitToBackend ev x) = sessions x
            /\ calls (emitToBackend ev x) = calls x /\ results (emitToBackend ev x) = results x
            /\ socketConnected (emitToBackend ev x) = socketConnected x) as E.
  { intros ev x. unfold emitToBackend. destruct (socketConnected x) eqn:S; cbn; auto. }
  destruct e as [ev snap | | target | ty | ]; cbn [listen]; auto.
  destruct ev as [st message | mid segment | mid segs n d | mid reason segs d]; auto.
  unfold onCompleted, finalizeMeeting.
  destruct (E (bot_meeting_ended meeting snap reason) m) as (E1 & E2 & E3 & E4 & E5).
  destruct (decide (meeting ∈ finalizedMeetings (emitToBackend (bot_meeting_ended meeting snap reason) m)));
    cbn; auto.
Qed.

(** An effect that is no 'completed' event makes no finalize POST. *)
Lemma listen_calm meeting now e m :
  Bot.isCompletedEmit e = false ->
  let m' := listen meeting now e m in
  (forall id, finalizeCalls id m' = finalizeCalls id m)
  /\ finalizedMeetings m' = finalizedMeetings m
  /\ completions m' = completions m.
Proof.
  intros He. cbn zeta.
  destruct e as [ev snap | | target | ty | ]; cbn [listen]; auto.
  destruct ev as [st message | mid segment | mid segs n d | mid reason segs d];
    [| | |discriminate He].
  - destruct (emitToBackend_fields (bot_status_change meeting st message) m)
      as (H1 & H2 & H3 & _).
    split; [intros id; apply finalizeCalls_posts; exact H1 | auto].
  - destruct (emitToBackend_fields (caption_added mid segment) m) as (H1 & H2 & H3 & _).
    split; [intros id; apply finalizeCalls_posts; exact H1 | auto].
  - split; [|auto]. intros id. rewrite finalizeCalls_post. cbn. lia.
Qed.

Lemma listenAll_frame meeting now es : forall m,
  let m' := listenAll meeting now es m in
  bots m' = bots m /\ sessions m' = sessions m
  /\ calls m' = calls m /\ results m' = results m
  /\ socketConnected m' = socketConnected m.
Proof.
  induction es as [|e es IH]; intros m; cbn zeta; [auto|].
  cbn [listenAll fold_left]. fold (listenAll meeting now es (listen meeting now e m)).
  destruct (listen_frame meeting now e m) as (H1 & H2 & H3 & H4 & H5).
  destruct (IH (listen meeting now e m)) as (K1 & K2 & K3 & K4 & K5).
  cbn zeta in *. rewrite K1, K2, K3, K4, K5. auto.
Qed.

Lemma listenAll_calm meeting now es : forall m,
  completedCount es = 0 ->
  let m' := listenAll meeting now es m in
  (forall id, finalizeCalls id m' = finalizeCalls id m)
  /\ finalizedMeetings m' = finalizedMeetings m
  /\ completions m' = completions m.
Proof.
  induction es as [|e es IH]; intros m Hc; cbn zeta; [auto|].
  cbn [listenAll fold_left]. fold (listenAll meeting now es (listen meeting now e m)).
  unfold completedCount in Hc. cbn [List.filter] in Hc.
  destruct (Bot.isCompletedEmit e) eqn:He; [discriminate Hc|].
  destruct (listen_calm meeting now e m He) as (H1 & H2 & H3).
  destruct (IH (listen meeting now e m) Hc) as (K1 & K2 & K3).
  cbn zeta in *. rewrite K2, K3. split; [|auto]. intros id. rewrite K1. apply H1.
Qed.

(** Something happens to a bot that makes it emit no 'completed' event: no
    finalize POST, and a bot that has joined stays registered. *)
Lemma deliver_calm r i now b m :
  bots m !! r = Some b -> calm (Bot.step i) ->
  let m' := deliver r i now m in
  bots m' !! r = Some (BotSpec.after (Bot.step i) b)
  /\ (forall id, finalizeCalls id m' = finalizeCalls id m)
  /\ finalizedMeetings m' = finalizedMeetings m
  /\ completions m' = completions m
  /\ socketConnected m' = socketConnected m
  /\ (Bot.joinPc (BotSpec.after (Bot.step i) b) = Bot.Joined -> sessions m' = sessions m).
Proof.
  intros Hb Hcalm. cbn zeta. unfold deliver. rewrite Hb.
  pose proof (proj1 (Hcalm b)) as Hc. unfold effects in Hc.
  pose proof (BotProps.exec_after (Bot.step i) b) as Ha.
  pose proof (exec_effects (Bot.step i) b) as He. unfold effects in He.
  destruct (Bot.exec (Bot.step i) b) as [b' es]. cbn [fst snd] in Ha, He. subst b'.
  rewrite <- He in Hc. clear He.
  set (m1 := set_bots (<[r:=BotSpec.after (Bot.step i) b]> (bots m)) m).
  destruct (listenAll_frame (meetingId (Bot.session b)) now es m1) as (F1 & F2 & F3 & F4 & F5).
  destruct (listenAll_calm (meetingId (Bot.session b)) now es m1 Hc) as (C1 & C2 & C3).
  cbn zeta in *. set (m2 := listenAll (meetingId (Bot.session b)) now es m1) in *.
  destruct (settleCalls_fields r (BotSpec.after (Bot.step i) b) m2) as (S1 & S2 & S3 & S4).
  cbn zeta in *.
  split; [rewrite S1, F1; subst m1; cbn [set_bots bots];
          apply list_lookup_insert_eq; apply lookup_lt_is_Some; eauto|].
  split; [intros id; rewrite (finalizeCalls_posts id _ _ S2); apply C1|].
  split; [rewrite S3; exact C2|]. split; [rewrite S4; exact C3|].
  split.
  - unfold settleCalls. destruct (Bot.joinPc (BotSpec.after (Bot.step i) b)); try exact F5.
    unfold set_calls. cbn [socketConnected].
    generalize (List.filter (fun c : string * nat => Nat.eqb (snd c) r) (calls m2)).
    intros l. assert (forall x, socketConnected
               (fold_left (fun acc c => set_sessions (delete (fst c) (sessions acc)) acc) l x)
               = socketConnected x) as K
      by (induction l as [|c l IH]; intros x; cbn [fold_left]; [reflexivity | rewrite IH; reflexivity]).
    rewrite K. exact F5.
  - intros Hpc. unfold settleCalls. rewrite Hpc. unfold set_calls. cbn [sessions]. exact F2.
Qed.

Lemma settleCalls_emitted r b m : emitted (settleCalls r b m) = emitted m.
Proof.
  unfold settleCalls. destruct (Bot.joinPc b); try reflexivity.
  unfold set_calls. cbn [emitted].
  generalize (List.filter (fun c : string * nat => Nat.eqb (snd c) r) (calls m)).
  intros l. revert m. induction l as [|c l IH]; intros m; cbn [fold_left]; [reflexivity|].
  rewrite IH. reflexivity.
Qed.

(** [leave()] of a joined bot run to its end inside the registry. *)
Lemma stop_runs reason t1 t2 t3 m r b :
  bots m !! r = Some b -> Bot.joinPc b = Bot.Joined ->
  let k := length (Bot.leaves b) in
  let m3 := deliver r (Bot.LeaveAdvance k t3) t3
              (deliver r (Bot.LeaveAdvance k t2) t2
                 (deliver r (Bot.Leave reason t1) t1 m)) in
  bots m3 !! r
  = Some (fst (Bot.run [Bot.Leave reason t1; Bot.LeaveAdvance k t2;
                        Bot.LeaveAdvance k t3] b))
  /\ (forall id, finalizeCalls id m3 = finalizeCalls id m)
  /\ finalizedMeetings m3 = finalizedMeetings m
  /\ socketConnected m3 = socketConnected m
  /\ sessions m3 = sessions m.
Proof.
  intros Hb Hpc. cbn zeta.
  set (k := length (Bot.leaves b)).
  pose proof (keeps_joinPc_step_Leave reason t1 b) as P1.
  pose proof (keeps_joinPc_step_LeaveAdvance k t2 (BotSpec.after (Bot.step (Bot.Leave reason t1)) b)) as P2.
  pose proof (keeps_joinPc_step_LeaveAdvance k t3
                (BotSpec.after (Bot.step (Bot.LeaveAdvance k t2))
                   (BotSpec.after (Bot.step (Bot.Leave reason t1)) b))) as P3.
  set (b1 := BotSpec.after (Bot.step (Bot.Leave reason t1)) b) in *.
  set (b2 := BotSpec.after (Bot.step (Bot.LeaveAdvance k t2)) b1) in *.
  set (b3 := BotSpec.after (Bot.step (Bot.LeaveAdvance k t3)) b2) in *.
  rewrite Hpc in P1. rewrite P1 in P2. rewrite P2 in P3.
  destruct (deliver_calm r (Bot.Leave reason t1) t1 b m Hb (calm_step_Leave reason t1))
    as (B1 & F1 & G1 & _ & S1 & K1).
  cbn zeta in *. fold b1 in B1, K1. specialize (K1 P1).
  set (m1 := deliver r (Bot.Leave reason t1) t1 m) in *.
  destruct (deliver_calm r (Bot.LeaveAdvance k t2) t2 b1 m1 B1 (calm_step_LeaveAdvance k t2))
    as (B2 & F2 & G2 & _ & S2 & K2).
  cbn zeta in *. fold b2 in B2, K2. specialize (K2 P2).
  set (m2 := deliver r (Bot.LeaveAdvance k t2) t2 m1) in *.
  destruct (deliver_calm r (Bot.LeaveAdvance k t3) t3 b2 m2 B2 (calm_step_LeaveAdvance k t3))
    as (B3 & F3 & G3 & _ & S3 & K3).
  cbn zeta in *. fold b3 in B3, K3. specialize (K3 P3).
  set (m3 := deliver r (Bot.LeaveAdvance k t3) t3 m2) in *.
  assert (b3 = fst (Bot.run [Bot.Leave reason t1; Bot.LeaveAdvance k t2;
                             Bot.LeaveAdvance k t3] b)) as Hrun.
  { change [Bot.Leave reason t1; Bot.LeaveAdvance k t2; Bot.LeaveAdvance k t3]
      with ((([] ++ [Bot.Leave reason t1]) ++ [Bot.LeaveAdvance k t2])
            ++ [Bot.LeaveAdvance k t3]).
    rewrite !BotProps.run_fst_snoc, !BotProps.exec_after. reflexivity. }
  rewrite <- Hrun.
  split; [exact B3|].
  split; [intros id; rewrite F3, F2, F1; reflexivity|].
  split; [rewrite G3, G2, G1; reflexivity|].
  split; [rewrite S3, S2, S1; reflexivity|].
  rewrite K3, K2, K1. reflexivity.
Qed.

(** *** A stop, and the line the extension prints for it *)

Lemma keeps_posture_step_Leave reason now : BotSpec.keeps posture (Bot.step (Bot.Leave reason now)).
Proof.
  unfold Bot.step, Bot.leave, Bot.leave_flush, Bot.leave_finish, Bot.flushSegments,
    Bot.cleanup_begin, Bot.setStatus.
  BotProps.keep.
Qed.

Lemma keeps_posture_step_LeaveAdvance k now :
  BotSpec.keeps posture (Bot.step (Bot.LeaveAdvance k now)).
Proof.
  unfold Bot.step, Bot.leave_flush, Bot.leave_finish, Bot.flushSegments,
    Bot.cleanup_begin, Bot.cleanup_end, Bot.setStatus.
  BotProps.keep.
Qed.

Lemma deliver_length r i now m : length (bots (deliver r i now m)) = length (bots m).
Proof.
  unfold deliver. destruct (bots m !! r) as [b|]; [|reflexivity].
  destruct (Bot.exec (Bot.step i) b) as [b' es].
  destruct (settleCalls_fields r b'
              (listenAll (meetingId (Bot.session b)) now es
                 (set_bots (<[r:=b']> (bots m)) m))) as (S1 & _).
  destruct (listenAll_frame (meetingId (Bot.session b)) now es
              (set_bots (<[r:=b']> (bots m)) m)) as (F1 & _).
  cbn zeta in S1, F1. rewrite S1, F1. cbn [bots set_bots]. apply length_insert.
Qed.

(** While a [leave()] goes on, the bot keeps its posture and stays
    registered, and no finalize POST is made. *)
Lemma leaveGoesOn_calm r k ts : forall m b,
  bots m !! r = Some b -> Bot.joinPc b = Bot.Joined ->
  let m' := leaveGoesOn r k ts m in
  exists b', bots m' !! r = Some b' /\ posture b' = posture b
    /\ (forall id, finalizeCalls id m' = finalizeCalls id m)
    /\ finalizedMeetings m' = finalizedMeetings m
    /\ completions m' = completions m
    /\ socketConnected m' = socketConnected m
    /\ sessions m' = sessions m
    /\ length (bots m') = length (bots m).
Proof.
  induction ts as [|t ts IH]; intros m b Hb Hpc; cbn zeta.
  { exists b. cbn. repeat split; auto. }
  unfold leaveGoesOn. cbn [fold_left]. fold (leaveGoesOn r k ts (deliver r (Bot.LeaveAdvance k t) t m)).
  destruct (deliver_calm r (Bot.LeaveAdvance k t) t b m Hb (calm_step_LeaveAdvance k t))
    as (B & F & G & C & S & K).
  cbn zeta in B, F, G, C, S, K.
  pose proof (keeps_posture_step_LeaveAdvance k t b) as P.
  set (b1 := BotSpec.after (Bot.step (Bot.LeaveAdvance k t)) b) in *.
  assert (Bot.joinPc b1 = Bot.Joined) as Hpc1.
  { unfold posture in P. injection P as _ _ P _ _ _. rewrite P. exact Hpc. }
  specialize (K Hpc1).
  pose proof (deliver_length r (Bot.LeaveAdvance k t) t m) as L.
  set (m1 := deliver r (Bot.LeaveAdvance k t) t m) in *.
  destruct (IH m1 b1 B Hpc1) as (b' & B' & P' & F' & G' & C' & S' & K' & L').
  cbn zeta in B', P', F', G', C', S', K', L'.
  exists b'. split; [exact B'|]. split; [rewrite P'; exact P|].
  split; [intros id; rewrite F'; apply F|].
  split; [rewrite G'; exact G|]. split; [rewrite C'; exact C|].
  split; [rewrite S'; exact S|]. split; [rewrite K'; exact K | rewrite L'; exact L].
Qed.

(** What a listener adds to the POSTs and to the events sent to the
    backend. *)
Lemma listen_grows meeting now e m :
  exists p w, posts (listen meeting now e m) = posts m ++ p
              /\ emitted (listen meeting now e m) = emitted m ++ w.
Proof.
  assert (forall ev x, exists w, posts (emitToBackend ev x) = posts x
                                 /\ emitted (emitToBackend ev x) = emitted x ++ w) as E.
  { intros ev x. unfold emitToBackend. destruct (socketConnected x).
    - exists [ev]. split; reflexivity.
    - exists []. rewrite app_nil_r. split; reflexivity. }
  assert (exists p w, posts m = posts m ++ p /\ emitted m = emitted m ++ w) as Same
    by (exists [], []; rewrite !app_nil_r; split; reflexivity).
  destruct e as [ev snap | | target | ty | ]; cbn [listen]; try exact Same.
  destruct ev as [st message | mid segment | mid segs n d | mid reason segs d].
  - destruct (E (bot_status_change meeting st message) m) as (w & H1 & H2).
    exists [], w. rewrite app_nil_r. auto.
  - destruct (E (caption_added mid segment) m) as (w & H1 & H2).
    exists [], w. rewrite app_nil_r. auto.
  - exists [PostSegments meeting segs], []. rewrite app_nil_r. split; reflexivity.
  - unfold onCompleted, finalizeMeeting.
    destruct (E (bot_meeting_ended meeting snap reason) m) as (w & H1 & H2).
    destruct (decide (meeting ∈ finalizedMeetings
                                  (emitToBackend (bot_meeting_ended meeting snap reason) m))).
    + exists [], w. cbn [posts emitted set_completions]. rewrite app_nil_r. auto.
    + eexists _, w. cbn [posts emitted set_completions post set_finalized].
      rewrite H1, H2. split; reflexivity.
Qed.

Lemma listenAll_grows meeting now es : forall m,
  exists p w, posts (listenAll meeting now es m) = posts m ++ p
              /\ emitted (listenAll meeting now es m) = emitted m ++ w.
Proof.
  induction es as [|e es IH]; intros m.
  { exists [], []. cbn. rewrite !app_nil_r. split; reflexivity. }
  cbn [listenAll fold_left]. fold (listenAll meeting now es (listen meeting now e m)).
  destruct (listen_grows meeting now e m) as (p1 & w1 & H1 & H2).
  destruct (IH (listen meeting now e m)) as (p2 & w2 & K1 & K2).
  exists (p1 ++ p2), (w1 ++ w2). rewrite K1, K2, H1, H2, !app_assoc. split; reflexivity.
Qed.

(** What the 'completed' listener sends for a meeting that is not in the
    set. *)
Lemma onCompleted_sends meeting snap reason segs now m :
  meeting ∉ finalizedMeetings m ->
  let m' := onCompleted meeting snap reason segs now m in
  posts m'
  = posts m ++ [PostFinalize meeting (sessionId snap) segs
                  (match startedAt snap with Some a => (now - a)%Z | None => 0%Z end)]
  /\ emitted m'
     = emitted m ++ (if socketConnected m
                     then [bot_meeting_ended meeting snap reason] else []).
Proof.
  intros Hnot. cbn zeta. unfold onCompleted, finalizeMeeting.
  destruct (emitToBackend_fields (bot_meeting_ended meeting snap reason) m)
    as (Hp & Hf & _).
  assert (emitted (emitToBackend (bot_meeting_ended meeting snap reason) m)
          = emitted m ++ (if socketConnected m
                          then [bot_meeting_ended meeting snap reason] else [])) as He.
  { unfold emitToBackend. destruct (socketConnected m); [reflexivity|].
    rewrite app_nil_r. reflexivity. }
  set (m1 := emitToBackend _ m) in *.
  destruct (decide (meeting ∈ finalizedMeetings m1)) as [Hin | _].
  { rewrite Hf in Hin. contradiction. }
  cbn [posts emitted set_completions post set_finalized]. rewrite Hp, He.
  split; [|reflexivity]. unfold sessionDuration. cbn [startedAt completedAt sessionId Types.segments].
  destruct (startedAt snap); reflexivity.
Qed.

(** The line the extension prints when it leaves on a stop command, as the
    console handler of the bot reads it. *)
Lemma leavingLine_tag : includes (leavingLine "user_requested") "[Notu.AI Bot]" = true.
Proof. vm_compute. reflexivity. Qed.

Lemma parse_leavingLine now :
  Bot.parseExtensionLog (leavingLine "user_requested") now
  = Bot.bind (Bot.handleMeetingEnd now) (fun _ => Bot.ret tt).
Proof.
  unfold Bot.parseExtensionLog.
  assert (includes (leavingLine "user_requested") "IN_MEETING status sent" = false) as ->
    by (vm_compute; reflexivity).
  assert (includes (leavingLine "user_requested") "Successfully joined meeting" = false) as ->
    by (vm_compute; reflexivity).
  assert (includes (leavingLine "user_requested") "Bot is now recording" = false) as ->
    by (vm_compute; reflexivity).
  assert (includes (leavingLine "user_requested") "Captions enabled" = false) as ->
    by (vm_compute; reflexivity).
  assert (includes (leavingLine "user_requested") "Meeting ended detected" = false) as ->
    by (vm_compute; reflexivity).
  assert (includes (leavingLine "user_requested") "Leaving meeting" = true) as ->
    by (vm_compute; reflexivity).
  assert (Bot.captionMatch (leavingLine "user_requested") = None) as ->
    by (vm_compute; reflexivity).
  reflexivity.
Qed.

(** The bot's reaction to that line: unless it is already leaving, it emits
    'completed' with the reason 'meeting_ended' and its segments, and
    then leaves. *)
Lemma exec_leavingLine now b :
  Bot.listening b = true -> Bot.isLeaving b = false ->
  Bot.exec (Bot.step (Bot.Console (leavingLine "user_requested") now)) b
  = (BotSpec.after (Bot.leave "meeting_ended" now) (Bot.set_isLeaving true b),
     Bot.Emit (Bot.CompletedEvent (meetingId (Bot.session b)) "meeting_ended"
                 (Bot.segments b) (runningTime b now))
       (Bot.getSession b)
     :: effects (Bot.leave "meeting_ended" now) (Bot.set_isLeaving true b)).
Proof.
  intros Hl Hlv.
  unfold Bot.exec, Bot.step, Bot.bind at 1, Bot.get. cbn [fst snd].
  rewrite Hl, leavingLine_tag, parse_leavingLine. cbn [andb Bot.when].
  unfold Bot.handleMeetingEnd, Bot.bind, Bot.get, Bot.modify, Bot.emit, Bot.ret.
  rewrite Hlv. unfold BotSpec.after, effects, runningTime.
  destruct b as [ctx pg lst s segs lv fl tm pc ls].
  cbn [Bot.set_isLeaving Bot.session Bot.segments Bot.context Bot.page Bot.listening
       Bot.isLeaving Bot.flushInterval Bot.timeoutTimer Bot.joinPc Bot.leaves].
  destruct (Bot.leave "meeting_ended" now _) as [[x b1] e1].
  cbn [fst snd app]. rewrite !app_nil_r. reflexivity.
Qed.

(** The registry when that line reaches a joined bot whose meeting is not
    finalized: the 'completed' listener makes the finalize POST. *)
Lemma leavingLine_finalizes r now b m :
  bots m !! r = Some b -> Bot.listening b = true -> Bot.isLeaving b = false ->
  Bot.joinPc b = Bot.Joined ->
  meetingId (Bot.session b) ∉ finalizedMeetings m ->
  let meeting := meetingId (Bot.session b) in
  let m' := deliver r (Bot.Console (leavingLine "user_requested") now) now m in
  finalizeCalls meeting m' = S (finalizeCalls meeting m)
  /\ completions m' = completions m ++ [(meeting, true)]
  /\ sessions m' = sessions m
  /\ length (bots m') = length (bots m)
  /\ PostFinalize meeting (sessionId (Bot.session b)) (Bot.segments b) (runningTime b now)
       ∈ posts m'
  /\ (socketConnected m = true ->
      bot_meeting_ended meeting (Bot.getSession b) "meeting_ended" ∈ emitted m').
Proof.
  intros Hb Hl Hlv Hpc Hnot. cbn zeta.
  pose proof (deliver_length r (Bot.Console (leavingLine "user_requested") now) now m) as Hlen.
  unfold deliver in *. rewrite Hb in *. rewrite (exec_leavingLine now b Hl Hlv) in *.
  set (b' := BotSpec.after (Bot.leave "meeting_ended" now) (Bot.set_isLeaving true b)) in *.
  set (es := effects (Bot.leave "meeting_ended" now) (Bot.set_isLeaving true b)) in *.
  assert (completedCount es = 0) as Hes
    by exact (proj1 (calm_leave "meeting_ended" now (Bot.set_isLeaving true b))).
  assert (Bot.joinPc b' = Bot.Joined) as Hpc'.
  { subst b'. rewrite (keeps_joinPc_leave "meeting_ended" now). exact Hpc. }
  set (meeting := meetingId (Bot.session b)) in *.
  cbn [listenAll fold_left listen] in *.
  set (m0 := set_bots (<[r:=b']> (bots m)) m) in *.
  assert (meeting ∉ finalizedMeetings m0) as Hnot0 by exact Hnot.
  destruct (onCompleted_first meeting (Bot.getSession b) "meeting_ended" (Bot.segments b)
              now m0 Hnot0) as (O1 & O2 & O3).
  destruct (onCompleted_sends meeting (Bot.getSession b) "meeting_ended" (Bot.segments b)
              now m0 Hnot0) as (O4 & O5).
  destruct (listen_frame meeting now
              (Bot.Emit (Bot.CompletedEvent meeting "meeting_ended" (Bot.segments b)
                           (runningTime b now)) (Bot.getSession b)) m0)
    as (_ & O6 & _).
  cbn zeta in O1, O2, O3, O4, O5, O6. cbn [listen] in O6.
  set (m1 := onCompleted meeting (Bot.getSession b) "meeting_ended" (Bot.segments b) now m0) in *.
  fold (listenAll meeting now es m1) in *.
  destruct (listenAll_frame meeting now es m1) as (_ & F2 & _).
  destruct (listenAll_calm meeting now es m1 Hes) as (C1 & _ & C3).
  destruct (listenAll_grows meeting now es m1) as (p & w & G1 & G2).
  cbn zeta in F2, C1, C3.
  set (m2 := listenAll meeting now es m1) in *.
  destruct (settleCalls_fields r b' m2) as (_ & S2 & _ & S4).
  cbn zeta in S2, S4.
  split; [rewrite (finalizeCalls_posts meeting _ _ S2), C1; exact O1|].
  split; [rewrite S4, C3; exact O3|].
  split.
  { unfold settleCalls. rewrite Hpc'. unfold set_calls. cbn [sessions].
    rewrite F2, O6. reflexivity. }
  split; [exact Hlen|].
  split.
  { rewrite S2, G1, O4. apply elem_of_app. left. apply elem_of_app. right.
    apply list_elem_of_here. }
  intros Hsock. rewrite settleCalls_emitted, G2, O5.
  change (socketConnected m0) with (socketConnected m). rewrite Hsock.
  apply elem_of_app. left. apply elem_of_app. right. apply list_elem_of_here.
Qed.

(** A stop of a joined bot, the progress of its [leave()], the line the
    extension prints on the stop command, and the end of the 'completed'
    listener. *)
Lemma stop_through_the_line meeting reason t1 ts t3 ok m r b :
  sessions m !! meeting = Some r -> bots m !! r = Some b ->
  Bot.joinPc b = Bot.Joined -> Bot.listening b = true -> Bot.isLeaving b = false ->
  meetingId (Bot.session b) = meeting -> meeting ∉ finalizedMeetings m ->
  let m1 := snd (stopSession meeting reason t1 m) in
  let m2 := leaveGoesOn r (length (Bot.leaves b)) ts m1 in
  let m3 := deliver r (Bot.Console (leavingLine "user_requested") t3) t3 m2 in
  let m4 := resumeCompleted (length (completions m)) ok m3 in
  (forall id, finalizeCalls id m2 = finalizeCalls id m)
  /\ finalizeCalls meeting m3 = S (finalizeCalls meeting m)
  /\ PostFinalize meeting (sessionId (Bot.session b)) (Bot.segments b) (runningTime b t3)
       ∈ posts m3
  /\ (socketConnected m = true ->
      exists snap, bot_meeting_ended meeting snap "meeting_ended" ∈ emitted m3)
  /\ sessions m3 = sessions m
  /\ sessions m4 !! meeting = None
  /\ posts m4 = posts m3
  /\ length (bots m4) = length (bots m).
Proof.
  intros Hs Hb Hpc Hl Hlv Hid Hnot. cbn zeta.
  unfold stopSession. rewrite Hs. cbn [snd].
  destruct (deliver_calm r (Bot.Leave reason t1) t1 b m Hb (calm_step_Leave reason t1))
    as (B1 & F1 & G1 & C1 & S1 & K1).
  cbn zeta in B1, F1, G1, C1, S1, K1.
  pose proof (keeps_posture_step_Leave reason t1 b) as P1.
  pose proof (deliver_length r (Bot.Leave reason t1) t1 m) as L1.
  set (b1 := BotSpec.after (Bot.step (Bot.Leave reason t1)) b) in *.
  set (m1 := deliver r (Bot.Leave reason t1) t1 m) in *.
  assert (Bot.joinPc b1 = Bot.Joined) as Hpc1.
  { unfold posture in P1. injection P1 as _ _ P _ _ _. rewrite P. exact Hpc. }
  specialize (K1 Hpc1).
  destruct (leaveGoesOn_calm r (length (Bot.leaves b)) ts m1 b1 B1 Hpc1)
    as (b2 & B2 & P2 & F2 & G2 & C2 & S2 & K2 & L2).
  cbn zeta in B2, P2, F2, G2, C2, S2, K2, L2.
  set (m2 := leaveGoesOn r (length (Bot.leaves b)) ts m1) in *.
  rewrite P1 in P2. unfold posture, BotSpec.ids in P2.
  injection P2 as Q1 Q2 Q3 Q4 Q5 Q6 Q7.
  assert (runningTime b2 t3 = runningTime b t3) as Hrun
    by (unfold runningTime; rewrite Q7; reflexivity).
  assert (meetingId (Bot.session b2) ∉ finalizedMeetings m2) as Hnot2
    by (rewrite Q6, Hid, G2, G1; exact Hnot).
  destruct (leavingLine_finalizes r t3 b2 m2 B2
              ltac:(rewrite Q1; exact Hl) ltac:(rewrite Q2; exact Hlv)
              ltac:(rewrite Q3; exact Hpc) Hnot2)
    as (N1 & N2 & N3 & N4 & N5 & N6).
  cbn zeta in N1, N2, N3, N4, N5, N6.
  rewrite Q6, Hid in N1, N2, N5, N6. rewrite Q5, Q4, Hrun in N5.
  set (m3 := deliver r (Bot.Console (leavingLine "user_requested") t3) t3 m2) in *.
  assert (completions m3 !! length (completions m) = Some (meeting, true)) as Hi.
  { rewrite N2, C2, C1. apply list_lookup_middle. reflexivity. }
  destruct (resumeCompleted_spec (length (completions m)) ok meeting true m3 Hi)
    as (R1 & _).
  cbn zeta in R1.
  split; [intros id; rewrite F2; apply F1|].
  split; [rewrite N1, F2, F1; reflexivity|].
  split; [exact N5|].
  split; [intros Hsock; eexists; apply N6; rewrite S2, S1; exact Hsock|].
  split; [rewrite N3, K2, K1; reflexivity|].
  split.
  { unfold resumeCompleted. rewrite Hi. cbn [sessions set_sessions]. apply lookup_delete_eq. }
  split; [exact R1|].
  unfold resumeCompleted. rewrite Hi.
  destruct (emitToBackend_fields
              (bot_status_change meeting completed (Some "Meeting completed successfully"))
              (finalizeSettled meeting ok
                 (set_completions (delete (length (completions m)) (completions m3)) m3)))
    as (_ & _ & _ & _ & Eb & _).
  cbn [bots set_sessions]. rewrite Eb.
  replace (bots (finalizeSettled meeting ok
                   (set_completions (delete (length (completions m)) (completions m3)) m3)))
    with (bots m3) by (destruct ok; reflexivity).
  rewrite N4, L2, L1. reflexivity.
Qed.

(** X15.  A stop of a joined bot does not by itself finalize the meeting: the
    registry's [stopSession] runs the bot's [leave()], which posts the stop
    command to the page and makes no finalize POST, however far it gets.  The
    extension answers the stop command by leaving, and the first thing it
    prints is the line 'Leaving meeting: user_requested'.  When that line
    reaches the bot (before the structured completion of the extension
    does), [parseExtensionLog] takes it for the end of the meeting: the bot
    emits 'completed' with the reason 'meeting_ended', the listener of
    the registry makes one finalize POST with the bot's segments and
    notifies the backend, and when the listener ends the meeting is no
    longer registered. *)
Theorem stop_is_finalized_through_the_leaving_line meeting reason t1 ts t3 ok m r b :
  sessions m !! meeting = Some r -> bots m !! r = Some b ->
  Bot.joinPc b = Bot.Joined -> Bot.listening b = true -> Bot.isLeaving b = false ->
  meetingId (Bot.session b) = meeting -> meeting ∉ finalizedMeetings m ->
  let m1 := snd (stopSession meeting reason t1 m) in
  let m2 := leaveGoesOn r (length (Bot.leaves b)) ts m1 in
  let m3 := deliver r (Bot.Console (leavingLine "user_requested") t3) t3 m2 in
  let m4 := resumeCompleted (length (completions m)) ok m3 in
  fst (stopSession meeting reason t1 m) = Some r
  /\ finalizeCalls meeting m2 = finalizeCalls meeting m
  /\ finalizeCalls meeting m3 = S (finalizeCalls meeting m)
  /\ PostFinalize meeting (sessionId (Bot.session b)) (Bot.segments b) (runningTime b t3)
       ∈ posts m3
  /\ (socketConnected m = true ->
      exists snap, bot_meeting_ended meeting snap "meeting_ended" ∈ emitted m3)
  /\ sessions m3 !! meeting = Some r
  /\ sessions m4 !! meeting = None
  /\ getSession meeting m4 = None
  /\ finalizeCalls meeting m4 = S (finalizeCalls meeting m).
Proof.
  intros Hs Hb Hpc Hl Hlv Hid Hnot. cbn zeta.
  destruct (stop_through_the_line meeting reason t1 ts t3 ok m r b Hs Hb Hpc Hl Hlv Hid Hnot)
    as (H1 & H2 & H3 & H4 & H5 & H6 & H7 & _).
  cbn zeta in H1, H2, H3, H4, H5, H6, H7.
  split; [unfold stopSession; rewrite Hs; reflexivity|].
  split; [apply H1|]. split; [exact H2|]. split; [exact H3|]. split; [exact H4|].
  split; [rewrite H5; exact Hs|]. split; [exact H6|].
  split; [unfold getSession; rewrite H6; reflexivity|].
  rewrite (finalizeCalls_posts meeting _ _ H7). exact H2.
Qed.

Lemma stop_is_finalized_through_the_leaving_line_witness :
  (sessions joinedRegistry !! "m1" = Some 0
   /\ bots joinedRegistry !! 0 = Some joinedBot
   /\ Bot.joinPc joinedBot = Bot.Joined /\ Bot.listening joinedBot = true
   /\ Bot.isLeaving joinedBot = false /\ meetingId (Bot.session joinedBot) = "m1"
   /\ "m1" ∉ finalizedMeetings joinedRegistry)
  /\ finalizeCalls "m1" (snd (stopSession "m1" "user_requested" 4000 joinedRegistry)) = 0
  /\ finalizeCalls "m1"
       (deliver 0 (Bot.Console (leavingLine "user_requested") 4100) 4100
          (snd (stopSession "m1" "user_requested" 4000 joinedRegistry)))
     = 1
  /\ sessions
       (resumeCompleted 0 true
          (deliver 0 (Bot.Console (leavingLine "user_requested") 4100) 4100
             (snd (stopSession "m1" "user_requested" 4000 joinedRegistry)))) !! "m1"
     = None.
Proof.
  assert (Bot.joinPc joinedBot = Bot.Joined) as H1 by (vm_compute; reflexivity).
  assert (Bot.listening joinedBot = true) as H2 by (vm_compute; reflexivity).
  assert (Bot.isLeaving joinedBot = false) as H3 by (vm_compute; reflexivity).
  assert (meetingId (Bot.session joinedBot) = "m1") as H4 by (vm_compute; reflexivity).
  assert ("m1" ∉ finalizedMeetings joinedRegistry) as H5 by apply not_elem_of_empty.
  split; [split; [apply lookup_singleton_eq | repeat split; assumption]|].
  destruct (stop_is_finalized_through_the_leaving_line "m1" "user_requested" 4000 [] 4100
              true joinedRegistry 0 joinedBot (lookup_singleton_eq "m1" 0) eq_refl
              H1 H2 H3 H4 H5)
    as (_ & K2 & K3 & _ & _ & _ & K7 & _).
  split; [exact K2|]. split; [exact K3 | exact K7].
Defined.

(** *** Failed joins *)



(** X16.  When the extension is not found, [startSession] throws, no browser is
    launched, nothing is posted and the meeting is not left registered, so
    that a later call for the same meeting starts a fresh bot. *)
Theorem failed_start_leaves_no_session meeting target sid path now m :
  sessions m !! meeting = None ->
  let m' := snd (startSession meeting target sid path false now m) in
  fst (startSession meeting target sid path false now m)
  = Throws ("Extension not found at " ++ path)
  /\ sessions m' !! meeting = None
  /\ browsers m' = browsers m /\ posts m' = posts m
  /\ (forall target2 sid2 now2,
        fst (startSession meeting target2 sid2 path true now2 m')
        = Awaits (length (bots m'))).
Proof.
  intros Hs. cbn zeta.
  assert (exists mm, startSession meeting target sid path false now m
                     = (Throws ("Extension not found at " ++ path), mm)
                     /\ sessions mm !! meeting = None
                     /\ browsers mm = browsers m /\ posts mm = posts m) as (mm & -> & H1 & H2 & H3).
  { unfold startSession. rewrite Hs.
    unfold Bot.exec, Bot.join, Bot.join_catch, Bot.cleanup_begin, Bot.bind, Bot.setStatus,
      Bot.modify, Bot.emit, Bot.effect, Bot.get, Bot.ret.
    cbn -[insert lookup delete emitToBackend]. unfold listenAll.
    cbn -[insert lookup delete emitToBackend].
    match goal with
    | |- context [emitToBackend ?e2 (emitToBackend ?e1 ?x)] =>
        destruct (emitToBackend_fields e1 x) as (Ep & _ & _ & Es & Eb & Ebr & _);
        destruct (emitToBackend_fields e2 (emitToBackend e1 x))
          as (Ep0 & _ & _ & Es0 & Eb0 & Ebr0 & _);
        set (m0 := emitToBackend e1 x) in *;
        set (m1 := emitToBackend e2 m0) in *
    end.
    cbn -[insert lookup delete] in Ep, Es, Eb, Ebr.
    eexists. split; [reflexivity|]. cbn [sessions browsers posts set_sessions].
    split; [apply lookup_delete_eq|].
    split; [rewrite Ebr0, Ebr; reflexivity | rewrite Ep0, Ep; reflexivity]. }
  cbn [fst snd]. split; [reflexivity|]. split; [exact H1|].
  split; [exact H2|]. split; [exact H3|].
  intros target2 sid2 now2. unfold startSession. rewrite H1. reflexivity.
Qed.

Lemma failed_start_leaves_no_session_witness :
  sessions connected !! "m1" = None
  /\ fst (startSession "m1" "https://meet.google.com/abc-defg-hij" "bot_1"
            "/opt/extension" false 0 connected)
     = Throws "Extension not found at /opt/extension"
  /\ sessions (snd (startSession "m1" "https://meet.google.com/abc-defg-hij" "bot_1"
                      "/opt/extension" false 0 connected)) !! "m1" = None.
Proof.
  split; [apply lookup_empty|].
  destruct (failed_start_leaves_no_session "m1" "https://meet.google.com/abc-defg-hij"
              "bot_1" "/opt/extension" 0 connected (lookup_empty "m1"))
    as (H1 & H2 & _).
  split; [exact H1 | exact H2].
Defined.

Lemma forget_sessions_lookup (l : list (string * nat)) : forall m k,
  sessions (fold_left (fun acc c => set_sessions (delete (fst c) (sessions acc)) acc) l m) !! k
  = if decide (k ∈ map fst l) then None else sessions m !! k.
Proof.
  induction l as [|c l IH]; intros m k; cbn [fold_left map].
  { destruct (decide (k ∈ [])) as [H|_]; [inversion H | reflexivity]. }
  rewrite IH. cbn [sessions set_sessions].
  destruct (decide (k ∈ map fst l)) as [Hin|Hnot].
  - destruct (decide (k ∈ fst c :: map fst l)) as [_|H]; [reflexivity|].
    exfalso. apply H. apply elem_of_cons. auto.
  - destruct (decide (k = fst c)) as [->|Hne].
    + rewrite lookup_delete_eq.
      destruct (decide (fst c ∈ fst c :: map fst l)) as [_|H]; [reflexivity|].
      exfalso. apply H. apply elem_of_cons. auto.
    + rewrite lookup_delete_ne by congruence.
      destruct (decide (k ∈ fst c :: map fst l)) as [H|_]; [|reflexivity].
      apply elem_of_cons in H as [H|H]; contradiction.
Qed.

(** X17.  A join that failed after the browser was launched: once the context is
    closed, every [startSession] call that awaited the join throws the
    error of the join, and its meeting is taken out of the registry; no
    finalize POST is made. *)
Theorem join_failure_reaches_the_caller r b e meeting now m :
  bots m !! r = Some b -> Bot.joinPc b = Bot.Failing e -> (meeting, r) ∈ calls m ->
  let m' := deliver r Bot.ContextClosed now m in
  (r, Throws e) ∈ results m'
  /\ sessions m' !! meeting = None
  /\ Forall (fun c => snd c <> r) (calls m')
  /\ posts m' = posts m
  /\ exists b', bots m' !! r = Some b' /\ Bot.joinPc b' = Bot.Rejected e
       /\ Bot.context b' = false /\ Bot.page b' = false.
Proof.
  intros Hb Hpc Hin. cbn zeta. unfold deliver. rewrite Hb.
  assert (Bot.exec (Bot.step Bot.ContextClosed) b
          = (Bot.set_joinPc (Bot.Rejected e)
               (Bot.set_browser false false (Bot.listening b) b), [])) as ->.
  { destruct b as [ctx pg lst s segs lv fl tm pc ls]. cbn [Bot.joinPc] in Hpc. subst pc.
    reflexivity. }
  unfold listenAll. cbn [fold_left].
  set (m1 := set_bots _ m).
  unfold settleCalls. cbn [Bot.joinPc Bot.set_joinPc].
  set (mine := List.filter (fun c : string * nat => Nat.eqb (snd c) r) (calls m1)).
  assert ((meeting, r) ∈ mine) as Hmine.
  { subst mine m1. cbn [calls set_bots]. apply list_elem_of_In, filter_In.
    split; [apply list_elem_of_In; exact Hin | apply Nat.eqb_refl]. }
  assert (posts m1 = posts m) as Hp1 by reflexivity.
  assert (exists b', bots m1 !! r = Some b' /\ Bot.joinPc b' = Bot.Rejected e
                     /\ Bot.context b' = false /\ Bot.page b' = false) as Hb1.
  { eexists. split.
    - subst m1. cbn [bots set_bots]. apply list_lookup_insert_eq.
      apply lookup_lt_is_Some. eauto.
    - repeat split; reflexivity. }
  assert (Forall (fun c : string * nat => snd c <> r)
            (List.filter (fun c : string * nat => negb (Nat.eqb (snd c) r)) (calls m1))) as Hrest.
  { apply Forall_forall. intros c Hc. apply list_elem_of_In, filter_In in Hc as [_ Hc].
    apply negb_true_iff, Nat.eqb_neq in Hc. exact Hc. }
  clearbody mine m1.
  unfold set_calls. cbn [results sessions calls posts bots].
  split.
  { apply elem_of_app. right. apply (list_elem_of_fmap_2 (fun c => (r, Throws e)) _ _ Hmine). }
  split.
  { rewrite forget_sessions_lookup.
    destruct (decide (meeting ∈ map fst mine)) as [_|H]; [reflexivity|].
    exfalso. apply H. exact (list_elem_of_fmap_2 fst _ _ Hmine). }
  split; [exact Hrest|].
  destruct (forget_sessions_fields mine m1) as (F1 & F2 & _). cbn zeta in F1, F2.
  split; [rewrite F2; exact Hp1|].
  rewrite F1. exact Hb1.
Qed.

Lemma join_failure_reaches_the_caller_witness :
  (bots failingRegistry !! 0 = Some failingBot
   /\ Bot.joinPc failingBot = Bot.Failing "Extension failed to join meeting"
   /\ ("m1", 0) ∈ calls failingRegistry)
  /\ (0, Throws "Extension failed to join meeting")
       ∈ results (deliver 0 Bot.ContextClosed 3000 failingRegistry)
  /\ sessions (deliver 0 Bot.ContextClosed 3000 failingRegistry) !! "m1" = None.
Proof.
  assert (("m1", 0) ∈ calls failingRegistry) as Hin by apply list_elem_of_here.
  split; [split; [reflexivity | split; [reflexivity | exact Hin]]|].
  destruct (join_failure_reaches_the_caller 0 failingBot "Extension failed to join meeting"
              "m1" 3000 failingRegistry eq_refl eq_refl Hin) as (H1 & H2 & _).
  split; [exact H1 | exact H2].
Defined.

(** *** The end of a 'completed' listener *)

(** X18.  When the finalize call of a 'completed' listener has settled, the
    listener reports the status 'completed' with the message 'Meeting
    completed successfully' and takes the session out of the registry,
    whether the POST succeeded or failed; after a failed POST the meeting is
    no longer marked as finalized. *)
Theorem completion_listener_ends_the_session i ok meeting inflight m :
  completions m !! i = Some (meeting, inflight) ->
  let m' := resumeCompleted i ok m in
  sessions m' !! meeting = None
  /\ emitted m'
     = emitted m ++ (if socketConnected m
                     then [bot_status_change meeting completed
                             (Some "Meeting completed successfully")]
                     else [])
  /\ posts m' = posts m
  /\ bots m' = bots m
  /\ finalizedMeetings m'
     = (if inflight && negb ok then finalizedMeetings m ∖ {[meeting]}
        else finalizedMeetings m).
Proof.
  intros Hi. cbn zeta.
  destruct (resumeCompleted_spec i ok meeting inflight m Hi) as (Hp & Hf & _).
  cbn zeta in Hp, Hf. split; [|split; [|split; [exact Hp|split; [|exact Hf]]]].
  - unfold resumeCompleted. rewrite Hi. cbn [sessions set_sessions]. apply lookup_delete_eq.
  - unfold resumeCompleted. rewrite Hi. cbn [emitted set_sessions].
    unfold emitToBackend.
    assert (forall x, socketConnected (if inflight then finalizeSettled meeting ok x else x)
                      = socketConnected x /\
                      emitted (if inflight then finalizeSettled meeting ok x else x) = emitted x)
      as K by (intros x; destruct inflight, ok; split; reflexivity).
    destruct (K (set_completions (delete i (completions m)) m)) as [K1 K2].
    rewrite K1. cbn [socketConnected set_completions].
    destruct (socketConnected m); [cbn [emitted]; rewrite K2; reflexivity|].
    rewrite K2, app_nil_r. reflexivity.
  - unfold resumeCompleted. rewrite Hi.
    destruct (emitToBackend_fields
                (bot_status_change meeting completed (Some "Meeting completed successfully"))
                (if inflight
                 then finalizeSettled meeting ok (set_completions (delete i (completions m)) m)
                 else set_completions (delete i (completions m)) m))
      as (_ & _ & _ & _ & Eb & _).
    cbn [bots set_sessions]. rewrite Eb. destruct inflight, ok; reflexivity.
Qed.

Lemma completion_listener_ends_the_session_witness :
  completions finalizingRegistry !! 0 = Some ("m1", true)
  /\ sessions (resumeCompleted 0 false finalizingRegistry) !! "m1" = None
  /\ emitted (resumeCompleted 0 false finalizingRegistry)
     = [bot_status_change "m1" completed (Some "Meeting completed successfully")].
Proof.
  split; [reflexivity|].
  destruct (completion_listener_ends_the_session 0 false "m1" true finalizingRegistry eq_refl)
    as (H1 & H2 & _).
  split; [exact H1 | exact H2].
Defined.

(** *** Flushing *)

(** X19.  While the flush interval of a bot runs, every tick POSTs the complete
    list of the bot's segments (not only those added since the last tick),
    and nothing when the bot has none; the bot itself is left as it is and
    nothing is emitted to the backend. *)
Theorem flush_tick_posts_all_segments r b now m :
  bots m !! r = Some b -> Bot.flushInterval b = true ->
  let m' := deliver r (Bot.FlushTimer now) now m in
  posts m'
  = posts m ++ match Bot.segments b with
               | [] => []
               | segs => [PostSegments (meetingId (Bot.session b)) segs]
               end
  /\ bots m' !! r = Some b
  /\ emitted m' = emitted m.
Proof.
  intros Hb Hfl. cbn zeta. unfold deliver. rewrite Hb.
  assert (Bot.exec (Bot.step (Bot.FlushTimer now)) b
          = Bot.exec (Bot.flushSegments now) b) as ->.
  { unfold Bot.exec, Bot.step, Bot.bind, Bot.get. cbn [fst snd]. rewrite Hfl.
    cbn [Bot.when]. destruct (Bot.joinPc b);
      destruct (Bot.flushSegments now b) as [[x b1] e1]; reflexivity. }
  unfold Bot.exec, Bot.flushSegments, Bot.bind, Bot.get, Bot.emit, Bot.ret.
  destruct (Bot.segments b) as [|s segs] eqn:Hsegs; cbn [fst snd app listenAll fold_left listen].
  - destruct (settleCalls_fields r b (set_bots (<[r:=b]> (bots m)) m)) as (S1 & S2 & _).
    cbn zeta in S1, S2. rewrite S1, S2, settleCalls_emitted. cbn [posts bots emitted set_bots].
    rewrite app_nil_r, list_insert_id by exact Hb. auto.
  - set (m1 := post _ _).
    destruct (settleCalls_fields r b m1) as (S1 & S2 & _).
    cbn zeta in S1, S2. rewrite S1, S2, settleCalls_emitted.
    subst m1. cbn [posts bots emitted set_bots post].
    rewrite list_insert_id by exact Hb. auto.
Qed.

Lemma flush_tick_posts_all_segments_witness :
  (bots joinedRegistry !! 0 = Some joinedBot /\ Bot.flushInterval joinedBot = true)
  /\ posts (deliver 0 (Bot.FlushTimer 9000) 9000
              (deliver 0 (Bot.FlushTimer 8000) 8000 joinedRegistry))
     = [PostSegments "m1" (Bot.segments joinedBot);
        PostSegments "m1" (Bot.segments joinedBot)]
  /\ length (Bot.segments joinedBot) = 1.
Proof.
  assert (Bot.flushInterval joinedBot = true) as Hf by (vm_compute; reflexivity).
  split; [split; [reflexivity | exact Hf]|].
  destruct (flush_tick_posts_all_segments 0 joinedBot 8000 joinedRegistry eq_refl Hf)
    as (H1 & H2 & _).
  destruct (flush_tick_posts_all_segments 0 joinedBot 9000
              (deliver 0 (Bot.FlushTimer 8000) 8000 joinedRegistry) H2 Hf)
    as (K1 & _).
  split; [|vm_compute; reflexivity].
  rewrite K1, H1. vm_compute. reflexivity.
Defined.


End RegistryFacts.

(* ===================================================================== *)
(** ** Properties of the REST handlers *)
(* ===================================================================== *)

Module ApiFacts.
Import JS Types Registry RegistrySpec Sessions RegistryNotions RegistryProps.
Import BotNotions BotFacts AgentLog LogFacts RegistryFacts Api.

Lemma includes_app_r (p s k : string) :
  includes s k = true -> includes (p ++ s)%string k = true.
Proof.
  intros H. induction p as [|c p IH]; [exact H|].
  change (String c p ++ s)%string with (String c (p ++ s)).
  apply includes_later. exact IH.
Qed.

Lemma startsWith_app (k s : string) : startsWith (k ++ s)%string k = true.
Proof.
  induction k as [|c k IH]; [destruct s; reflexivity|].
  change (String c k ++ s)%string with (String c (k ++ s)).
  cbn [startsWith]. rewrite Ascii.eqb_refl. exact IH.
Qed.

Lemma includes_middle (p k s : string) : includes (p ++ k ++ s)%string k = true.
Proof. apply includes_app_r, includes_here, startsWith_app. Qed.

Lemma includes_nonempty (s k : string) : k <> "" -> includes s k = true -> s <> "".
Proof.
  intros Hk H ->. destruct k as [|c k]; [congruence|]. discriminate H.
Qed.

Lemma eqb_empty (s : string) : s <> "" -> String.eqb s "" = false.
Proof. intros H. apply String.eqb_neq. exact H. Qed.

(** X20.  A join request that lacks [meetingUrl] or [meetingId] (absent or empty),
    or whose URL does not contain [meet.google.com], is answered with 400
    and touches nothing: no session, no bot, no browser.  Any other request
    is never answered with 400. *)
Theorem invalid_join_request_is_rejected u i sid path ex now m :
  let valid := Bot.truthy u && Bot.truthy i
               && includes (default "" u) "meet.google.com" in
  let res := postJoin u i sid path ex now m in
  (valid = false ->
   snd res = m
   /\ fst res
      = Responds (mkResponse 400
          (ErrorBody (if Bot.truthy u && Bot.truthy i
                      then "Only Google Meet URLs are supported"
                      else "meetingUrl and meetingId are required"))))
  /\ (valid = true ->
      forall r, fst res = Responds r -> code r = 200 \/ code r = 500).
Proof.
  cbn zeta. unfold postJoin, Bot.truthy.
  destruct u as [u|], i as [i|]; cbn [from_option id];
    try (split; [intros _; split; reflexivity | intros H; discriminate H]).
  - destruct (String.eqb u "") eqn:Eu; cbn [negb orb andb];
      [split; [intros _; split; reflexivity | intros H; discriminate H]|].
    destruct (String.eqb i "") eqn:Ei; cbn [negb orb andb];
      [split; [intros _; split; reflexivity | intros H; discriminate H]|].
    destruct (includes u "meet.google.com") eqn:Em; cbn [negb orb andb];
      [|split; [intros _; split; reflexivity | intros H; discriminate H]].
    split; [intros H; discriminate H|]. intros _ r.
    destruct (startSession i u sid path ex now m) as [[s|e|b] m']; cbn [fst joinSettled];
      intros H; inversion H; cbn; auto.
  - rewrite !andb_false_r. cbn [andb].
    split; [intros _; split; reflexivity | intros H; discriminate H].
Qed.

Lemma invalid_join_request_is_rejected_witness :
  Bot.truthy (Some "https://zoom.us/j/123") && Bot.truthy (Some "m1")
  && includes "https://zoom.us/j/123" "meet.google.com" = false
  /\ postJoin (Some "https://zoom.us/j/123") (Some "m1") "bot_1" "/opt/extension" true 0
       connected
     = (Responds (mkResponse 400 (ErrorBody "Only Google Meet URLs are supported")),
        connected).
Proof.
  split; [reflexivity|].
  destruct (proj1 (invalid_join_request_is_rejected (Some "https://zoom.us/j/123")
                     (Some "m1") "bot_1" "/opt/extension" true 0 connected) eq_refl)
    as [H1 H2].
  rewrite (surjective_pairing (postJoin _ _ _ _ _ _ _)), H1, H2. reflexivity.
Defined.

(** A valid join request for a meeting that has no session. *)
Lemma postJoin_fresh u i sid path now m :
  i <> "" -> includes u "meet.google.com" = true -> sessions m !! i = None ->
  let res := postJoin (Some u) (Some i) sid path true now m in
  fst res = Pending (length (bots m))
  /\ sessions (snd res) !! i = Some (length (bots m))
  /\ browsers (snd res) = S (browsers m)
  /\ exists b, bots (snd res) !! length (bots m) = Some b
       /\ url (Bot.session b) = u /\ sessionId (Bot.session b) = sid
       /\ status (Bot.session b) = joining.
Proof.
  intros Hi Hm Hs. cbn zeta.
  assert (u <> "") as Hu by (apply (includes_nonempty u "meet.google.com"); [discriminate | exact Hm]).
  unfold postJoin. rewrite (eqb_empty u Hu), (eqb_empty i Hi), Hm. cbn [orb negb].
  unfold startSession. rewrite Hs.
  unfold Bot.exec, Bot.join, Bot.bind, Bot.setStatus, Bot.modify, Bot.emit, Bot.effect,
    Bot.get, Bot.ret.
  cbn -[insert lookup delete emitToBackend]. unfold listenAll.
  cbn -[insert lookup delete emitToBackend].
  match goal with
  | |- context [emitToBackend ?e1 ?x] =>
      destruct (emitToBackend_fields e1 x) as (_ & _ & _ & Es & Eb & Ebr & _);
      set (m0 := emitToBackend e1 x) in *
  end.
  cbn -[insert lookup delete] in Es, Eb, Ebr.
  split; [reflexivity|].
  split; [rewrite Es; apply lookup_insert_eq|].
  split; [rewrite Ebr; reflexivity|].
  rewrite Eb. eexists. split.
  - apply list_lookup_insert_eq. rewrite length_app. cbn. lia.
  - repeat split; reflexivity.
Qed.

(** X21.  The URL check of the join handler is a substring test: a request for a
    meeting that has no session, with any URL that contains
    [meet.google.com] anywhere, registers a new bot for exactly that URL and
    launches a browser for it; the handler then awaits the join. *)
Theorem join_accepts_any_url_mentioning_meet before after i sid path now m :
  i <> "" -> sessions m !! i = None ->
  let u := (before ++ "meet.google.com" ++ after)%string in
  let res := postJoin (Some u) (Some i) sid path true now m in
  fst res = Pending (length (bots m))
  /\ sessions (snd res) !! i = Some (length (bots m))
  /\ browsers (snd res) = S (browsers m)
  /\ exists b, bots (snd res) !! length (bots m) = Some b
       /\ url (Bot.session b) = u /\ sessionId (Bot.session b) = sid
       /\ status (Bot.session b) = joining.
Proof.
  intros Hi Hs. cbn zeta.
  exact (postJoin_fresh (before ++ "meet.google.com" ++ after) i sid path now m Hi
           (includes_middle before "meet.google.com" after) Hs).
Qed.

Lemma join_accepts_any_url_mentioning_meet_witness :
  ("m1" <> "" /\ sessions connected !! "m1" = None)
  /\ fst (postJoin (Some "https://example.org/?next=meet.google.com") (Some "m1")
            "bot_1" "/opt/extension" true 0 connected)
     = Pending 0
  /\ browsers (snd (postJoin (Some "https://example.org/?next=meet.google.com")
                      (Some "m1") "bot_1" "/opt/extension" true 0 connected))
     = 1.
Proof.
  split; [split; [discriminate | apply lookup_empty]|].
  destruct (join_accepts_any_url_mentioning_meet "https://example.org/?next=" "" "m1"
              "bot_1" "/opt/extension" 0 connected
              ltac:(discriminate) (lookup_empty "m1"))
    as (H1 & _ & H3 & _).
  split; [exact H1 | exact H3].
Defined.

(** X22.  The stop handler on a meeting whose bot has joined: it awaits the bot's
    [leave()], and once that has run to its end (nothing else having
    reached the bot) it answers 200 with one transcript line
    [speaker: text] per segment of the bot, their number, and the time
    from [startedAt] to the end of [leave()].  An absent or empty reason
    counts as 'user_requested'. *)
Theorem stop_response_reports_the_segments meeting reason t1 t2 t3 m r b :
  sessions m !! meeting = Some r -> bots m !! r = Some b -> Bot.joinPc b = Bot.Joined ->
  let k := length (Bot.leaves b) in
  let m1 := snd (postStop meeting reason t1 m) in
  let m3 := deliver r (Bot.LeaveAdvance k t3) t3
              (deliver r (Bot.LeaveAdvance k t2) t2 m1) in
  fst (postStop meeting reason t1 m) = Pending r
  /\ m1 = deliver r (Bot.Leave (stopReason reason) t1) t1 m
  /\ fst (postStopSettled meeting reason r m3)
     = mkResponse 200
         (StopBody (transcript (Bot.segments b)) (length (Bot.segments b))
            (match startedAt (Bot.session b) with
             | Some a => (leftAt b t1 t2 t3 - a)%Z
             | None => 0%Z
             end))
  /\ (stopReason reason = "user_requested"
      <-> reason = None \/ reason = Some "" \/ reason = Some "user_requested").
Proof.
  intros Hs Hb Hpc. cbn zeta. unfold postStop, stopSession. rewrite Hs. cbn [fst snd].
  split; [reflexivity|]. split; [reflexivity|]. split.
  - destruct (stop_runs (stopReason reason) t1 t2 t3 m r b Hb Hpc) as (B3 & _).
    cbn zeta in B3.
    pose proof (leave_runs (stopReason reason) t1 t2 t3 b) as L.
    pose proof (leave_keeps_startedAt (stopReason reason) t1 t2 t3 b) as A.
    cbn zeta in L, A.
    set (b3 := fst (Bot.run _ b)) in *.
    destruct L as (_ & _ & _ & _ & _ & L6 & _ & L8 & _).
    unfold postStopSettled, stopSettled. rewrite B3. cbn [fst snd stopResponse].
    unfold sessionDuration, Bot.getSession.
    cbn [Types.segments startedAt completedAt]. rewrite L6, A, L8. unfold leftAt.
    destruct (startedAt (Bot.session b)); reflexivity.
  - unfold stopReason. destruct reason as [x|].
    + destruct (String.eqb x "") eqn:E.
      * apply String.eqb_eq in E. subst x. split; auto.
      * split; [intros ->; auto|]. intros [H|[H|H]]; [discriminate H| |].
        -- injection H as ->. discriminate E.
        -- injection H as ->. reflexivity.
    + split; auto.
Qed.

Lemma stop_response_reports_the_segments_witness :
  (sessions joinedRegistry !! "m1" = Some 0
   /\ bots joinedRegistry !! 0 = Some joinedBot
   /\ Bot.joinPc joinedBot = Bot.Joined)
  /\ fst (postStopSettled "m1" None 0
            (deliver 0 (Bot.LeaveAdvance 0 6000) 6000
               (deliver 0 (Bot.LeaveAdvance 0 5000) 5000
                  (snd (postStop "m1" None 4000 joinedRegistry)))))
     = mkResponse 200 (StopBody "Alice: Hello everyone" 1 4000).
Proof.
  split; [split; [apply lookup_singleton_eq | split; reflexivity]|].
  exact (proj1 (proj2 (proj2
           (stop_response_reports_the_segments "m1" None 4000 5000 6000
              joinedRegistry 0 joinedBot (lookup_singleton_eq "m1" 0) eq_refl eq_refl)))).
Defined.

(** X23.  After a stop that the extension answered with its line 'Leaving
    meeting: user_requested', once the 'completed' listener has ended, the
    meeting is no longer registered: the status handler and a second stop
    answer 404 'Session not found', and a valid join request for the
    meeting does not get the stopped session back but registers a new bot,
    beside the stopped one, and launches a browser for it. *)
Theorem join_after_stop_starts_a_new_bot
    meeting reason t1 ts t3 ok m r b u sid path now again :
  sessions m !! meeting = Some r -> bots m !! r = Some b ->
  Bot.joinPc b = Bot.Joined -> Bot.listening b = true -> Bot.isLeaving b = false ->
  meetingId (Bot.session b) = meeting -> meeting ∉ finalizedMeetings m ->
  meeting <> "" -> includes u "meet.google.com" = true ->
  let m1 := snd (postStop meeting reason t1 m) in
  let m2 := leaveGoesOn r (length (Bot.leaves b)) ts m1 in
  let m3 := deliver r (Bot.Console (leavingLine "user_requested") t3) t3 m2 in
  let m4 := resumeCompleted (length (completions m)) ok m3 in
  let res := postJoin (Some u) (Some meeting) sid path true now m4 in
  getStatus meeting now m4 = mkResponse 404 (ErrorBody "Session not found")
  /\ postStop meeting again now m4
     = (Responds (mkResponse 404 (ErrorBody "Session not found")), m4)
  /\ fst res = Pending (length (bots m))
  /\ r < length (bots m)
  /\ sessions (snd res) !! meeting = Some (length (bots m))
  /\ browsers (snd res) = S (browsers m4)
  /\ exists b', bots (snd res) !! length (bots m) = Some b'
       /\ url (Bot.session b') = u /\ sessionId (Bot.session b') = sid
       /\ status (Bot.session b') = joining.
Proof.
  intros Hs Hb Hpc Hl Hlv Hid Hnot Hmeet Hm. cbn zeta.
  assert (snd (postStop meeting reason t1 m)
          = snd (stopSession meeting (stopReason reason) t1 m)) as ->
    by (unfold postStop, stopSession; rewrite Hs; reflexivity).
  destruct (stop_through_the_line meeting (stopReason reason) t1 ts t3 ok m r b
              Hs Hb Hpc Hl Hlv Hid Hnot)
    as (_ & _ & _ & _ & _ & H6 & _ & H8).
  cbn zeta in H6, H8.
  set (m4 := resumeCompleted _ ok _) in *.
  destruct (postJoin_fresh u meeting sid path now m4 Hmeet Hm H6) as (J1 & J2 & J3 & J4).
  cbn zeta in J1, J2, J3, J4. rewrite H8 in J1, J2, J4.
  split; [unfold getStatus, getSession; rewrite H6; reflexivity|].
  split; [unfold postStop, stopSession; rewrite H6; reflexivity|].
  split; [exact J1|].
  split; [apply lookup_lt_is_Some; eauto|].
  split; [exact J2|]. split; [exact J3 | exact J4].
Qed.

Lemma join_after_stop_starts_a_new_bot_witness :
  (sessions joinedRegistry !! "m1" = Some 0
   /\ bots joinedRegistry !! 0 = Some joinedBot
   /\ Bot.joinPc joinedBot = Bot.Joined /\ Bot.listening joinedBot = true
   /\ Bot.isLeaving joinedBot = false /\ meetingId (Bot.session joinedBot) = "m1"
   /\ ("m1" ∉ finalizedMeetings joinedRegistry)
   /\ "m1" <> ""
   /\ includes "https://meet.google.com/abc-defg-hij" "meet.google.com" = true)
  /\ getStatus "m1" 7000
       (resumeCompleted 0 true
          (deliver 0 (Bot.Console (leavingLine "user_requested") 4100) 4100
             (snd (postStop "m1" None 4000 joinedRegistry))))
     = mkResponse 404 (ErrorBody "Session not found")
  /\ fst (postJoin (Some "https://meet.google.com/abc-defg-hij") (Some "m1") "bot_2"
            "/opt/extension" true 7000
            (resumeCompleted 0 true
               (deliver 0 (Bot.Console (leavingLine "user_requested") 4100) 4100
                  (snd (postStop "m1" None 4000 joinedRegistry)))))
     = Pending 1.
Proof.
  assert (Bot.joinPc joinedBot = Bot.Joined) as H1 by (vm_compute; reflexivity).
  assert (Bot.listening joinedBot = true) as H2 by (vm_compute; reflexivity).
  assert (Bot.isLeaving joinedBot = false) as H3 by (vm_compute; reflexivity).
  assert (meetingId (Bot.session joinedBot) = "m1") as H4 by (vm_compute; reflexivity).
  assert ("m1" ∉ finalizedMeetings joinedRegistry) as H5 by apply not_elem_of_empty.
  assert (includes "https://meet.google.com/abc-defg-hij" "meet.google.com" = true) as H6
    by (vm_compute; reflexivity).
  split.
  { split; [apply lookup_singleton_eq|]. split; [reflexivity|].
    repeat split; (assumption || discriminate). }
  destruct (join_after_stop_starts_a_new_bot "m1" None 4000 [] 4100 true joinedRegistry 0
              joinedBot "https://meet.google.com/abc-defg-hij" "bot_2" "/opt/extension"
              7000 None (lookup_singleton_eq "m1" 0) eq_refl H1 H2 H3 H4 H5
              ltac:(discriminate) H6)
    as (K1 & _ & K3 & _).
  split; [exact K1 | exact K3].
Defined.

End ApiFacts.

(* ===================================================================== *)
(** ** Properties of caption parsing and of the injected observer *)
(* ===================================================================== *)

Module CaptionFacts.
Import JS Captions AgentProps LogFacts.

#[local] Arguments String.append !s1 s2 : simpl nomatch.

(** *** White space and trimming *)

Lemma allChars_app p (s t : string) :
  allChars p (s ++ t)%string = allChars p s && allChars p t.
Proof.
  induction s as [|c s IH]; [reflexivity|].
  cbn [String.append allChars]. rewrite IH, andb_assoc. reflexivity.
Qed.

Lemma trimEnd_empty (t : string) : trimEnd t = "" -> allChars isWhiteSpace t = true.
Proof.
  induction t as [|c t IH]; [reflexivity|]. cbn [trimEnd allChars].
  destruct (trimEnd t) as [|d r]; [|intros H; discriminate H].
  destruct (isWhiteSpace c); [intros _; apply IH; reflexivity | intros H; discriminate H].
Qed.

Lemma trimStart_white (s : string) :
  allChars isWhiteSpace (trimStart s) = true -> allChars isWhiteSpace s = true.
Proof.
  induction s as [|c s IH]; [reflexivity|]. cbn [trimStart].
  destruct (isWhiteSpace c) eqn:W.
  - intros H. cbn [allChars]. rewrite W. apply IH. exact H.
  - cbn [allChars]. rewrite W. intros H. discriminate H.
Qed.

Lemma trim_empty (s : string) : trim s = "" -> allChars isWhiteSpace s = true.
Proof. intros H. apply trimStart_white, trimEnd_empty. exact H. Qed.

Lemma trim_nonblank (s : string) : allChars isWhiteSpace s = false -> trim s <> "".
Proof. intros H E. apply trim_empty in E. congruence. Qed.

Lemma allChars_trimStart p (s : string) :
  allChars p s = true -> allChars p (trimStart s) = true.
Proof.
  induction s as [|c s IH]; [reflexivity|]. cbn [trimStart allChars]. intros H.
  apply andb_true_iff in H as [Hc Hs].
  destruct (isWhiteSpace c); [apply IH; exact Hs|].
  cbn [allChars]. rewrite Hc, Hs. reflexivity.
Qed.

Lemma allChars_trimEnd p (s : string) :
  allChars p s = true -> allChars p (trimEnd s) = true.
Proof.
  induction s as [|c s IH]; [reflexivity|]. cbn [trimEnd allChars]. intros H.
  apply andb_true_iff in H as [Hc Hs]. specialize (IH Hs).
  destruct (trimEnd s) as [|d r].
  - destruct (isWhiteSpace c); [reflexivity|]. cbn [allChars]. rewrite Hc. reflexivity.
  - cbn [allChars] in *. rewrite Hc, IH. reflexivity.
Qed.

Lemma allChars_trim p (s : string) : allChars p s = true -> allChars p (trim s) = true.
Proof. intros H. apply allChars_trimEnd, allChars_trimStart. exact H. Qed.

Lemma trimEnd_idem (s : string) : trimEnd (trimEnd s) = trimEnd s.
Proof.
  induction s as [|c s IH]; [reflexivity|]. cbn [trimEnd].
  destruct (trimEnd s) as [|d r] eqn:E.
  - destruct (isWhiteSpace c) eqn:W; [reflexivity|]. cbn [trimEnd]. rewrite W. reflexivity.
  - change (trimEnd (String c (String d r)))
      with (match trimEnd (String d r) with
            | EmptyString => if isWhiteSpace c then EmptyString else String c EmptyString
            | t => String c t
            end).
    rewrite IH. reflexivity.
Qed.

Lemma trimStart_head (s : string) :
  trimStart s = "" \/ exists c t, trimStart s = String c t /\ isWhiteSpace c = false.
Proof.
  induction s as [|c s IH]; [left; reflexivity|]. cbn [trimStart].
  destruct (isWhiteSpace c) eqn:W; [exact IH|]. right. eauto.
Qed.

Lemma trimEnd_head c (t : string) :
  isWhiteSpace c = false -> exists r, trimEnd (String c t) = String c r.
Proof.
  intros W. cbn [trimEnd]. destruct (trimEnd t) as [|d r]; [rewrite W|]; eauto.
Qed.

Lemma trim_idem (s : string) : trim (trim s) = trim s.
Proof.
  unfold trim. destruct (trimStart_head s) as [E | (c & t & E & W)]; rewrite E.
  - reflexivity.
  - destruct (trimEnd_head c t W) as [r Hr]. rewrite Hr.
    cbn [trimStart]. rewrite W, <- Hr. apply trimEnd_idem.
Qed.

(** *** Lines *)

Lemma whiteSpace_LF c : Ascii.eqb c LF = true -> isWhiteSpace c = true.
Proof. intros H. apply Ascii.eqb_eq in H. subst c. reflexivity. Qed.

Lemma splitLines_noLineFeed (s : string) :
  Forall (fun l => noLineFeed l = true) (splitLines s).
Proof.
  induction s as [|c s IH]; [repeat constructor|]. cbn [splitLines].
  destruct (Ascii.eqb c LF) eqn:E; [constructor; [reflexivity | exact IH]|].
  destruct (splitLines s) as [|l ls]; [repeat constructor; unfold noLineFeed; cbn; rewrite E; reflexivity|].
  inversion IH as [|? ? Hl Hls]; subst. constructor; [|exact Hls].
  unfold noLineFeed in *. cbn [allChars]. rewrite E, Hl. reflexivity.
Qed.

Lemma splitLines_nonblank (s : string) :
  allChars isWhiteSpace s = false ->
  Exists (fun l => allChars isWhiteSpace l = false) (splitLines s).
Proof.
  induction s as [|c s IH]; [intros H; discriminate H|]. cbn [allChars splitLines].
  intros H. destruct (Ascii.eqb c LF) eqn:E.
  - rewrite (whiteSpace_LF c E) in H. cbn [andb] in H. apply Exists_cons_tl, IH, H.
  - destruct (isWhiteSpace c) eqn:W; cbn [andb] in H.
    + specialize (IH H). destruct (splitLines s) as [|l ls]; [inversion IH|].
      inversion IH as [? ? Hl | ? ? Hls]; subst.
      * apply Exists_cons_hd. cbn [allChars]. rewrite W, Hl. reflexivity.
      * apply Exists_cons_tl. exact Hls.
    + destruct (splitLines s) as [|l ls]; apply Exists_cons_hd; cbn [allChars];
        rewrite W; reflexivity.
Qed.

Lemma concat_noLineFeed (ls : list string) :
  Forall (fun l => noLineFeed l = true) ls -> noLineFeed (String.concat " " ls) = true.
Proof.
  induction ls as [|l ls IH]; [reflexivity|]. intros H.
  inversion H as [|? ? Hl Hls]; subst. cbn [String.concat].
  destruct ls as [|l2 ls]; [exact Hl|].
  unfold noLineFeed in *. rewrite !allChars_app, Hl, (IH Hls). reflexivity.
Qed.

Lemma concat_nonblank l (ls : list string) :
  allChars isWhiteSpace l = false ->
  allChars isWhiteSpace (String.concat " " (l :: ls)) = false.
Proof.
  intros H. cbn [String.concat]. destruct ls as [|l2 ls]; [exact H|].
  rewrite allChars_app, H. reflexivity.
Qed.

Lemma filter_nonblank_line l (ls : list string) (s : string) :
  In l (List.filter (fun line => negb (String.eqb (trim line) "")) (splitLines s)) ->
  allChars isWhiteSpace l = false /\ noLineFeed l = true.
Proof.
  intros H. apply filter_In in H as [Hin Hl]. split.
  - destruct (allChars isWhiteSpace l) eqn:W; [|reflexivity].
    rewrite (AgentProps.trim_blank l W) in Hl. discriminate Hl.
  - pose proof (splitLines_noLineFeed s) as F. rewrite Forall_forall in F.
    apply F. apply list_elem_of_In. exact Hin.
Qed.

(** What a parsed caption looks like. *)
Lemma parsed_fields tc c :
  parseCaptionElement tc = Some c ->
  speaker c <> "" /\ text c <> ""
  /\ trim (speaker c) = speaker c /\ trim (text c) = text c
  /\ noLineFeed (speaker c) = true /\ noLineFeed (text c) = true.
Proof.
  unfold parseCaptionElement. destruct tc as [raw|]; [|intros H; discriminate H].
  cbn zeta. destruct (String.eqb (trim raw) "" || isSystemMessage (trim raw));
    [intros H; discriminate H|].
  pose proof (filter_nonblank_line) as F.
  destruct (List.filter _ (splitLines (trim raw))) as [|first [|second rest]] eqn:E;
    [intros H; discriminate H| |]; intros H; injection H as <-; cbn [speaker text].
  - destruct (F first [] (trim raw)) as [W L]; [rewrite E; left; reflexivity|].
    split; [discriminate|]. split; [apply trim_nonblank, W|].
    split; [reflexivity|]. split; [apply trim_idem|].
    split; [reflexivity | apply allChars_trim, L].
  - destruct (F first [] (trim raw)) as [W L]; [rewrite E; left; reflexivity|].
    destruct (F second [] (trim raw)) as [W2 L2]; [rewrite E; right; left; reflexivity|].
    split; [apply trim_nonblank, W|].
    split; [apply trim_nonblank, (concat_nonblank second rest), W2|].
    split; [apply trim_idem|]. split; [apply trim_idem|].
    split; [apply allChars_trim, L|].
    apply allChars_trim. apply (concat_noLineFeed (second :: rest)).
    apply Forall_forall. intros l Hl. apply list_elem_of_In in Hl.
    apply (F l [] (trim raw)). rewrite E. right. exact Hl.
Qed.

(** X24.  On an element whose text is made of ASCII characters,
    [parseCaptionElement] returns a caption when the text is neither blank
    nor a system message (the final [return null] is never reached), and
    null otherwise.  A caption it returns has a speaker and a text that are
    non-empty, trimmed and free of line feeds. *)
Theorem parsed_caption_is_never_blank tc :
  asciiContent tc = true ->
  match parseCaptionElement tc with
  | Some c =>
      speaker c <> "" /\ text c <> ""
      /\ trim (speaker c) = speaker c /\ trim (text c) = text c
      /\ noLineFeed (speaker c) = true /\ noLineFeed (text c) = true
  | None =>
      tc = None
      \/ exists raw, tc = Some raw
           /\ (trim raw = "" \/ isSystemMessage (trim raw) = true)
  end.
Proof.
  intros _.
  destruct (parseCaptionElement tc) as [c|] eqn:E; [exact (parsed_fields tc c E)|].
  destruct tc as [raw|]; [|left; reflexivity]. right. exists raw. split; [reflexivity|].
  unfold parseCaptionElement in E. cbn zeta in E.
  destruct (String.eqb (trim raw) "") eqn:B; [left; apply String.eqb_eq, B|].
  destruct (isSystemMessage (trim raw)) eqn:S; [right; reflexivity|].
  cbn [orb] in E. exfalso.
  assert (allChars isWhiteSpace (trim raw) = false) as W.
  { destruct (allChars isWhiteSpace (trim raw)) eqn:W; [|reflexivity].
    pose proof (AgentProps.trim_blank _ W) as T. rewrite trim_idem in T.
    rewrite T in B. discriminate B. }
  apply splitLines_nonblank in W. apply Exists_exists in W as (l & Hin & Hl).
  assert (In l (List.filter (fun line => negb (String.eqb (trim line) ""))
                  (splitLines (trim raw)))) as Hf.
  { apply filter_In. split; [apply list_elem_of_In; exact Hin|].
    apply negb_true_iff, String.eqb_neq, trim_nonblank, Hl. }
  destruct (List.filter _ (splitLines (trim raw))) as [|first [|second rest]];
    [inversion Hf | discriminate E | discriminate E].
Qed.

Lemma parsed_caption_is_never_blank_witness :
  asciiContent (Some sampleCaption) = true
  /\ parseCaptionElement (Some sampleCaption)
     = Some (mkCaptionEvent "Alice" "Hello everyone")
  /\ match parseCaptionElement (Some sampleCaption) with
     | Some c => speaker c <> "" /\ text c <> ""
     | None => False
     end.
Proof.
  split; [reflexivity|]. split; [reflexivity|].
  pose proof (parsed_caption_is_never_blank (Some sampleCaption) eq_refl) as H.
  destruct (parseCaptionElement (Some sampleCaption)) as [c|] eqn:E.
  - split; [exact (proj1 H) | exact (proj1 (proj2 H))].
  - discriminate E.
Defined.

(** *** System messages *)

Lemma lowerChar_white c : isWhiteSpace (lowerChar c) = isWhiteSpace c.
Proof.
  unfold lowerChar.
  destruct ((65 <=? nat_of_ascii c)%nat && (nat_of_ascii c <=? 90)%nat) eqn:E; [|reflexivity].
  apply andb_true_iff in E as [E1 E2]. apply Nat.leb_le in E1, E2.
  unfold isWhiteSpace. rewrite nat_ascii_embedding by lia.
  transitivity false; [|symmetry].
  - apply orb_false_iff. split; [apply andb_false_iff; right; apply Nat.leb_gt; lia|].
    apply Nat.eqb_neq. lia.
  - apply orb_false_iff. split; [apply andb_false_iff; right; apply Nat.leb_gt; lia|].
    apply Nat.eqb_neq. lia.
Qed.

Lemma toLowerCase_trimStart (s : string) :
  toLowerCase (trimStart s) = trimStart (toLowerCase s).
Proof.
  induction s as [|c s IH]; [reflexivity|]. cbn [trimStart toLowerCase].
  rewrite lowerChar_white. destruct (isWhiteSpace c); [exact IH | reflexivity].
Qed.

Lemma toLowerCase_trimEnd (s : string) :
  toLowerCase (trimEnd s) = trimEnd (toLowerCase s).
Proof.
  induction s as [|c s IH]; [reflexivity|]. cbn [trimEnd toLowerCase].
  rewrite <- IH, lowerChar_white.
  destruct (trimEnd s) as [|d r]; [destruct (isWhiteSpace c)|]; reflexivity.
Qed.

Lemma toLowerCase_trim (s : string) : toLowerCase (trim s) = trim (toLowerCase s).
Proof. unfold trim. rewrite toLowerCase_trimEnd, toLowerCase_trimStart. reflexivity. Qed.

Lemma startsWith_white (s p : string) c :
  isWhiteSpace c = true -> clean p = true -> startsWith (String c s) p = false.
Proof.
  intros W H. destruct p as [|d p]; [discriminate H|]. cbn [clean] in H.
  apply andb_true_iff in H as [H _]. cbn [startsWith].
  destruct (Ascii.eqb d c) eqn:E; [|reflexivity].
  apply Ascii.eqb_eq in E. subst d. rewrite W in H. discriminate H.
Qed.

Lemma includes_trimStart (s p : string) :
  clean p = true -> includes (trimStart s) p = includes s p.
Proof.
  intros H. induction s as [|c s IH]; [reflexivity|]. cbn [trimStart].
  destruct (isWhiteSpace c) eqn:W; [|reflexivity].
  rewrite IH. cbn [includes]. rewrite (startsWith_white s p c W H). reflexivity.
Qed.

Lemma startsWith_blank (s p : string) :
  allChars isWhiteSpace s = true -> endsClean p = true -> startsWith s p = false.
Proof.
  revert s. induction p as [|d p IH]; intros s Hs Hp; [discriminate Hp|].
  destruct s as [|c s]; [reflexivity|]. cbn [startsWith].
  cbn [allChars] in Hs. apply andb_true_iff in Hs as [Hc Hs].
  destruct (Ascii.eqb d c) eqn:E; [|reflexivity]. apply Ascii.eqb_eq in E. subst d.
  destruct p as [|e p]; [cbn [endsClean] in Hp; rewrite Hc in Hp; discriminate Hp|].
  apply IH; [exact Hs | exact Hp].
Qed.

Lemma startsWith_trimEnd (s p : string) :
  endsClean p = true -> startsWith (trimEnd s) p = startsWith s p.
Proof.
  revert p. induction s as [|c s IH]; intros p Hp; [reflexivity|].
  destruct p as [|d p]; [discriminate Hp|].
  cbn [trimEnd]. destruct (trimEnd s) as [|e r] eqn:E.
  - destruct (isWhiteSpace c) eqn:W.
    + symmetry. apply startsWith_blank; [|exact Hp].
      cbn [allChars]. rewrite W. apply trimEnd_empty, E.
    + cbn [startsWith]. destruct (Ascii.eqb d c); [|reflexivity].
      destruct p as [|f p]; [destruct s; reflexivity|].
      rewrite <- (IH (String f p)) by exact Hp. reflexivity.
  - cbn [startsWith]. destruct (Ascii.eqb d c); [|reflexivity].
    destruct p as [|f p]; [destruct s; reflexivity|].
    rewrite <- (IH (String f p)) by exact Hp. reflexivity.
Qed.

Lemma endsClean_clean (p : string) : clean p = true -> endsClean p = true.
Proof.
  destruct p as [|c p]; [intros H; discriminate H|]. cbn [clean]. intros H.
  apply andb_true_iff in H as [_ H]. exact H.
Qed.

Lemma includes_trimEnd (s p : string) :
  endsClean p = true -> includes (trimEnd s) p = includes s p.
Proof.
  intros Hp. destruct p as [|d p]; [discriminate Hp|].
  induction s as [|c s IH]; [reflexivity|].
  pose proof (startsWith_trimEnd (String c s) (String d p) Hp) as Hs.
  cbn [trimEnd] in *. destruct (trimEnd s) as [|e r] eqn:E.
  - destruct (isWhiteSpace c) eqn:W.
    + cbn [includes]. rewrite <- IH, <- Hs. reflexivity.
    + cbn [includes]. rewrite <- IH, <- Hs. reflexivity.
  - change (includes (String c (String e r)) (String d p))
      with (startsWith (String c (String e r)) (String d p)
            || includes (String e r) (String d p)).
    cbn [includes]. rewrite <- IH, <- Hs. reflexivity.
Qed.

Lemma includes_trim (s p : string) :
  clean p = true -> includes (trim s) p = includes s p.
Proof.
  intros H. unfold trim.
  rewrite (includes_trimEnd _ p (endsClean_clean p H)). apply includes_trimStart, H.
Qed.

Lemma patterns_clean : forallb clean SYSTEM_MESSAGE_PATTERNS = true.
Proof. reflexivity. Qed.

(** X25.  A text that contains one of the system phrases anywhere, in any
    letter case, yields no caption, whatever else it says. *)
Theorem system_phrase_drops_the_caption raw pattern :
  In pattern SYSTEM_MESSAGE_PATTERNS -> includes (toLowerCase raw) pattern = true ->
  parseCaptionElement (Some raw) = None.
Proof.
  intros Hin Hinc. unfold parseCaptionElement. cbn zeta.
  assert (isSystemMessage (trim raw) = true) as ->; [|rewrite orb_true_r; reflexivity].
  unfold isSystemMessage. apply existsb_exists. exists pattern. split; [exact Hin|].
  pose proof patterns_clean as C. rewrite forallb_forall in C.
  rewrite toLowerCase_trim, (includes_trim _ pattern (C pattern Hin)). exact Hinc.
Qed.

Lemma system_phrase_drops_the_caption_witness :
  (In "feedback" SYSTEM_MESSAGE_PATTERNS
   /\ includes (toLowerCase sampleText) "feedback" = true)
  /\ parseCaptionElement (Some sampleText) = None.
Proof.
  assert (In "feedback" SYSTEM_MESSAGE_PATTERNS) as Hin
    by (right; right; right; left; reflexivity).
  split; [split; [exact Hin | reflexivity]|].
  exact (system_phrase_drops_the_caption sampleText "feedback" Hin eq_refl).
Defined.

(** *** The injected script *)

Lemma observe_call has mu t t' c at_ :
  observe has mu t = (t', Some (c, at_)) ->
  t' = mkTracking (text c) (speaker c) at_
  /\ has = true
  /\ parseCaptionElement (textContent mu) = Some c
  /\ (text c = lastCaption t -> speaker c = lastSpeaker t ->
      (DEDUPE_THRESHOLD_MS <= at_ - lastCaptionTime t)%Z).
Proof.
  unfold observe.
  assert (match parseCaptionElement (textContent mu) with
          | Some caption =>
              if String.eqb (text caption) (lastCaption t)
                 && String.eqb (speaker caption) (lastSpeaker t)
                 && (now mu - lastCaptionTime t <? DEDUPE_THRESHOLD_MS)%Z
              then (t, None)
              else (mkTracking (text caption) (speaker caption) (now mu),
                    if has then Some (caption, now mu) else None)
          | None => (t, None)
          end = (t', Some (c, at_)) ->
          t' = mkTracking (text c) (speaker c) at_ /\ has = true
          /\ parseCaptionElement (textContent mu) = Some c
          /\ (text c = lastCaption t -> speaker c = lastSpeaker t ->
              (DEDUPE_THRESHOLD_MS <= at_ - lastCaptionTime t)%Z)) as K.
  { destruct (parseCaptionElement (textContent mu)) as [caption|]; [|intros H; discriminate H].
    destruct (String.eqb (text caption) (lastCaption t)
              && String.eqb (speaker caption) (lastSpeaker t)
              && (now mu - lastCaptionTime t <? DEDUPE_THRESHOLD_MS)%Z) eqn:D;
      [intros H; discriminate H|].
    destruct has; intros H; [|discriminate H]. injection H as <- <- <-.
    repeat split. intros E1 E2. rewrite E1, E2, !AgentProps.string_eqb_refl in D.
    cbn [andb] in D. apply Z.ltb_ge in D. exact D. }
  destruct (mutationType mu); [exact K | exact K | intros H; discriminate H].
Qed.

Lemma observe_skip has mu t t' :
  observe has mu t = (t', None) -> t' = t \/ has = false.
Proof.
  unfold observe.
  destruct (mutationType mu); try (intros H; injection H as <-; left; reflexivity);
    (destruct (parseCaptionElement (textContent mu)) as [caption|];
     [|intros H; injection H as <-; left; reflexivity];
     destruct (String.eqb (text caption) (lastCaption t)
               && String.eqb (speaker caption) (lastSpeaker t)
               && (now mu - lastCaptionTime t <? DEDUPE_THRESHOLD_MS)%Z);
     [intros H; injection H as <-; left; reflexivity|];
     destruct has; [intros H; discriminate H | right; reflexivity]).
Qed.

Lemma observeAll_silent mus : forall t, observeAll false mus t = [].
Proof.
  induction mus as [|mu mus IH]; intros t; [reflexivity|]. cbn [observeAll].
  destruct (observe false mu t) as [t' [[c a]|]] eqn:E; [|apply IH].
  apply observe_call in E as (_ & H & _). discriminate H.
Qed.

Lemma observeAll_spaced has mus : forall t,
  let calls := observeAll has mus t in
  match calls with
  | (c, a) :: _ =>
      text c = lastCaption t -> speaker c = lastSpeaker t ->
      (DEDUPE_THRESHOLD_MS <= a - lastCaptionTime t)%Z
  | [] => True
  end
  /\ (forall i c a1 a2,
        calls !! i = Some (c, a1) -> calls !! S i = Some (c, a2) ->
        (DEDUPE_THRESHOLD_MS <= a2 - a1)%Z)
  /\ Forall (fun call => speaker (fst call) <> "" /\ text (fst call) <> "") calls.
Proof.
  induction mus as [|mu mus IH]; intros t; cbn zeta.
  { split; [exact I|]. split; [intros i c a1 a2 H; discriminate H | constructor]. }
  cbn [observeAll]. destruct (observe has mu t) as [t' [[c a]|]] eqn:E.
  - apply observe_call in E as (-> & _ & Hp & Hd).
    destruct (IH (mkTracking (text c) (speaker c) a)) as (H1 & H2 & H3). cbn zeta in *.
    split; [exact Hd|]. split.
    + intros [|i] c1 a1 a2 Ha Hb.
      * injection Ha as <- <-.
        destruct (observeAll has mus _) as [|[c2 b] rest]; [discriminate Hb|].
        injection Hb as -> ->. apply H1; reflexivity.
      * exact (H2 i c1 a1 a2 Ha Hb).
    + constructor; [|exact H3]. cbn [fst].
      destruct (parsed_fields _ _ Hp) as (P1 & P2 & _). auto.
  - apply observe_skip in E as [-> | ->]; [apply IH|].
    rewrite observeAll_silent. split; [exact I|].
    split; [intros i c a1 a2 H; discriminate H | constructor].
Qed.

(** X26.  The injected script never forwards the same speaker and text twice in a
    row less than 500 ms apart; what it forwards has a non-empty speaker and
    text; and without [window.onCaption] it forwards nothing. *)
Theorem identical_captions_are_spaced has mus :
  let calls := observeAll has mus initial in
  (forall i c a1 a2,
     calls !! i = Some (c, a1) -> calls !! S i = Some (c, a2) -> (500 <= a2 - a1)%Z)
  /\ Forall (fun call => speaker (fst call) <> "" /\ text (fst call) <> "") calls
  /\ (has = false -> calls = []).
Proof.
  cbn zeta. destruct (observeAll_spaced has mus initial) as (_ & H2 & H3).
  split; [exact H2|]. split; [exact H3|]. intros ->. apply observeAll_silent.
Qed.

End CaptionFacts.

(* ===================================================================== *)
(** ** Properties of audio capture *)
(* ===================================================================== *)

Module AudioFacts.
Import Audio.

Lemma audio_run_snoc es e a :
  run (es ++ [e]) a
  = let '(a1, out) := run es a in
    let '(a2, out2) := step e a1 in (a2, out ++ out2).
Proof.
  unfold run. rewrite fold_left_app. cbn [fold_left].
  destruct (fold_left _ es (a, [])) as [a1 out]. reflexivity.
Qed.

Lemma step_tidy e a : tidy a -> tidy (fst (step e a)).
Proof.
  unfold tidy. intros H. destruct a as [rec mid n h l]. cbn in H. subst l.
  destruct e as [meeting | success | | | type data]; cbn.
  - destruct rec; cbn; [reflexivity|]. destruct h; reflexivity.
  - destruct success; reflexivity.
  - unfold stop. destruct h; cbn; destruct rec; reflexivity.
  - reflexivity.
  - unfold onMessage. cbn. destruct h; cbn; [|reflexivity].
    destruct (String.eqb type "audio_chunk_data"); reflexivity.
Qed.

Lemma step_posts e a :
  tidy a ->
  let '(a', out) := step e a in
  chunkCount a' = chunkCount a + length (List.filter isPosted out)
  /\ length (List.filter isPosted out)
     = if isChunkMessage e && messageHandler a then 1 else 0.
Proof.
  unfold tidy. intros H. destruct a as [rec mid n h l]. cbn in H. subst l.
  destruct e as [meeting | success | | | type data]; cbn.
  - destruct rec; cbn; split; (lia || reflexivity).
  - destruct success; cbn; split; (lia || reflexivity).
  - unfold stop. destruct h; cbn; destruct rec; cbn; split; (lia || reflexivity).
  - split; (lia || reflexivity).
  - unfold onMessage. cbn. destruct h; cbn.
    + destruct (String.eqb type "audio_chunk_data"); cbn; split; (lia || reflexivity).
    + rewrite andb_false_r. split; (lia || reflexivity).
Qed.

Lemma run_invariant es :
  let '(a, out) := run es create in
  tidy a
  /\ chunkCount a = length (List.filter isPosted out)
  /\ length (List.filter isPosted out) <= length (List.filter isChunkMessage es).
Proof.
  induction es as [|e es IH] using rev_ind.
  { cbn. repeat split; (reflexivity || lia). }
  rewrite audio_run_snoc. destruct (run es create) as [a out]. destruct IH as (T & C & L).
  pose proof (step_tidy e a T) as T'. pose proof (step_posts e a T) as P.
  destruct (step e a) as [a' out']. cbn [fst] in T'. destruct P as [P1 P2].
  rewrite !List.filter_app, !length_app. cbn [List.filter].
  split; [exact T'|]. split; [lia|].
  rewrite P2. destruct (isChunkMessage e); cbn [andb length]; [|lia].
  destruct (messageHandler a); cbn; lia.
Qed.

(** X27.  Whatever sequence of calls, answers and messages reaches an
    [AudioCapture] object, it has at most one handler registered (exactly
    one while [messageHandler] is set), so that a chunk message is posted to
    the orchestrator at most once, and [chunkCount] is the number of chunks
    posted. *)
Theorem chunks_are_forwarded_at_most_once es :
  let a := fst (run es create) in
  let out := snd (run es create) in
  listeners a = (if messageHandler a then 1 else 0)
  /\ chunkCount a = length (List.filter isPosted out)
  /\ length (List.filter isPosted out) <= length (List.filter isChunkMessage es).
Proof.
  cbn zeta. pose proof (run_invariant es) as H.
  destruct (run es create) as [a out]. exact H.
Qed.

(** X28.  A [start] that the background script answers with a failure returns
    false and leaves the object not recording, but its chunk handler stays
    registered: a chunk that arrives afterwards is still posted (with the
    meeting id of the failed start), and a later [stop()] removes the
    handler without telling the background script to stop. *)
Theorem failed_start_keeps_the_listener meeting data a :
  isRecording a = false -> listeners a = (if messageHandler a then 1 else 0) ->
  let a1 := snd (fst (start meeting a)) in
  let a2 := snd (startSettled false a1) in
  fst (fst (start meeting a)) = None
  /\ fst (startSettled false a1) = false
  /\ isRecording a2 = false /\ messageHandler a2 = true /\ listeners a2 = 1
  /\ snd (onMessage "audio_chunk_data" data a2) = [Posted (Some meeting) data]
  /\ snd (stop a2) = []
  /\ listeners (fst (stop a2)) = 0
  /\ snd (onMessage "audio_chunk_data" data (fst (stop a2))) = [].
Proof.
  intros Hr Hl. destruct a as [rec mid n h l]. cbn in Hr, Hl. subst rec l.
  destruct h; cbn; repeat split; reflexivity.
Qed.

Lemma failed_start_keeps_the_listener_witness :
  (isRecording create = false
   /\ listeners create = (if messageHandler create then 1 else 0))
  /\ snd (run [Start "m1"; StartSettled false; Message "audio_chunk_data" sampleChunk]
            create)
     = [ToBackground "start_audio_capture" (Some "m1"); Posted (Some "m1") sampleChunk].
Proof.
  split; [split; reflexivity|].
  pose proof (failed_start_keeps_the_listener "m1" sampleChunk create eq_refl eq_refl) as H.
  cbn zeta in H. destruct H as (_ & _ & _ & _ & _ & H & _).
  change (snd (run [Start "m1"; StartSettled false;
                    Message "audio_chunk_data" sampleChunk] create))
    with ([ToBackground "start_audio_capture" (Some "m1")]
          ++ snd (onMessage "audio_chunk_data" sampleChunk
                    (snd (startSettled false (snd (fst (start "m1" create))))))).
  rewrite H. reflexivity.
Defined.

End AudioFacts.
